(** * Palettebuddy: the Flux rendering engine and the audio-reactive loop

    A shallow embedding of the canvas utilities (seeded generator, noise,
    base field, pattern transforms, exposure stage; in
    [src/components/FluxDevice.tsx] from line 340 on) and of the [App]
    component (audio accumulator, animation loop, [toggleAudioSync]; in
    [src/unnamed/part_005]), together with the properties of the
    specification that concern them.

    Numbers.  A JavaScript [number] is a rational [Q].  Where the program
    takes a count, a size or a decision from a computed number, every
    operation on the way is rounded to the nearest IEEE-754 double, as
    [JS.add], [JS.sub], [JS.mul] and [JS.div] below do: the state of the
    seeded generator and the seed [noise] gives it, the channel split of
    Wave, the channel shift and the number of slices of Glitch, the wedges
    of Kaleidoscope, the block and the reduced copy of Pixelate, the backing
    store of the canvas, the band energies and the volume the loop compares
    with its threshold, and the channels of [hslToHex].  The other numbers
    (geometry, sampling coordinates, colour parameters, the audio modulation
    and the hue accumulator) are computed without rounding.  Infinities and
    [NaN] are not modelled: numbers are taken within the range of finite
    doubles.  Values that the program only ever uses as integers (canvas
    sizes, loop counters, array indices, bytes) are modelled by [Z].  The
    host functions the program calls but does not define (the 2D canvas
    rasteriser and the transcendental functions of [Math]) are taken as
    interfaces. *)

From Stdlib Require Import ZArith QArith Qround Qpower Qabs Lia Lqa Bool String.
From stdpp Require Import base list.

Local Open Scope Z_scope.

(** Integers are read as numbers where a number is expected. *)
Coercion inject_Z : Z >-> Q.

(** ** JavaScript arithmetic *)

Module JS.

Definition two32 : Z := 4294967296.

(** [Math.trunc]: rounding towards zero. *)
Definition trunc (x : Q) : Z :=
  if Qle_bool 0 x then Qfloor x else Qceiling x.

(** The abstract operations [ToUint32] and [ToInt32] applied by the bit
    operators to their operands. *)
Definition wrapU (z : Z) : Z := z mod two32.
Definition wrapS (z : Z) : Z := (z + 2147483648) mod two32 - 2147483648.
Definition ToUint32 (x : Q) : Z := wrapU (trunc x).
Definition ToInt32 (x : Q) : Z := wrapS (trunc x).

(** [x ^ y], [x | y], [x >>> y] and [Math.imul(x, y)]. *)
Definition bxor (x y : Q) : Q := inject_Z (Z.lxor (ToInt32 x) (ToInt32 y)).
Definition bor (x y : Q) : Q := inject_Z (Z.lor (ToInt32 x) (ToInt32 y)).
Definition ushr (x y : Q) : Q :=
  inject_Z (Z.shiftr (ToUint32 x) (ToUint32 y mod 32)).
Definition imul (x y : Q) : Q := inject_Z (wrapS (ToInt32 x * ToInt32 y)).

(** [Math.floor], [Math.ceil], [Math.min], [Math.max]. *)
Definition floor (x : Q) : Z := Qfloor x.
Definition ceil (x : Q) : Z := Qceiling x.
Definition min (x y : Q) : Q := if Qle_bool x y then x else y.
Definition max (x y : Q) : Q := if Qle_bool x y then y else x.

(** [x % y]: the remainder has the sign of the dividend.  ([x % 0] is [NaN]
    in JavaScript; no call site below divides by zero.) *)
Definition rem (x y : Q) : Q := x - y * inject_Z (trunc (x / y)).

(** Comparisons on numbers, as booleans. *)
Definition lt (x y : Q) : bool := negb (Qle_bool y x).
Definition gt (x y : Q) : bool := lt y x.
Definition neq (x y : Q) : bool := negb (Qeq_bool x y).

(** *** Double precision

    The exponent [e] of the binade of a positive number:
    [2^e <= q < 2^(e+1)]. *)
Definition binade (q : Q) : Z :=
  let e := Z.log2 (Qnum q) - Z.log2 (Zpos (Qden q)) in
  if Qle_bool (2 ^ e) q then e else e - 1.

(** The nearest integer, ties to the even one. *)
Definition round_even (m : Q) : Z :=
  let f := Qfloor m in
  match (m - inject_Z f ?= 1 # 2)%Q with
  | Lt => f
  | Gt => f + 1
  | Eq => if Z.even f then f else f + 1
  end.

(** The double nearest to a positive number: 53 significant bits, on the
    grid [2^(e-52)] of its binade, and on the subnormal grid [2^-1074] below
    [2^-1022]. *)
Definition grid (q : Q) : Z := Z.max (binade q - 52) (-1074).

Definition double_pos (q : Q) : Q :=
  let p := grid q in
  (inject_Z (round_even (q / 2 ^ p)) * 2 ^ p)%Q.

(** The double nearest to a number (round to nearest, ties to even): the
    value of a numeric literal and of the result of each arithmetic
    operation. *)
Definition double (q : Q) : Q :=
  match (q ?= 0)%Q with
  | Eq => 0%Q
  | Gt => double_pos q
  | Lt => (- double_pos (- q))%Q
  end.

(** The numbers that are doubles. *)
Definition is_double (q : Q) : Prop := double q == q.

(** [x + y], [x - y], [x * y] and [x / y] on doubles. *)
Definition add (x y : Q) : Q := double (x + y).
Definition sub (x y : Q) : Q := double (x - y).
Definition mul (x y : Q) : Q := double (x * y).
Definition div (x y : Q) : Q := double (x / y).

End JS.

(** ** Seeded random ([mulberry32]) and [noise] *)

(** The closure returned by [mulberry32(a)] captures the variable [a] and
    updates it at every call: a generator is the current value of [a]. *)
Definition Rng : Type := Q.

Definition mulberry32 (a : Q) : Rng := a.

(** One call of the closure: the sample and the generator afterwards.  The
    sum [a += 0x6D2B79F5] is a double; the bit operations work on integers
    of 32 bits, whose sum and whose quotient by [2^32] are exact. *)
Definition rng_call (g : Rng) : Q * Rng :=
  let a := JS.add g (inject_Z 0x6D2B79F5) in
  let t := a in
  let t := JS.imul (JS.bxor t (JS.ushr t 15)) (JS.bor t 1) in
  let t := JS.bxor t (t + JS.imul (JS.bxor t (JS.ushr t 7)) (JS.bor t 61))%Q in
  ((JS.ushr (JS.bxor t (JS.ushr t 14)) 0 / inject_Z 4294967296)%Q, a).

(** The [n]-th sample (counting from 0) of a generator. *)
Fixpoint rng_nth (n : nat) (g : Rng) : Q :=
  match n with
  | O => fst (rng_call g)
  | S n' => rng_nth n' (snd (rng_call g))
  end.

Definition noise (x y seed : Q) : Q :=
  let fn := mulberry32 (JS.add (JS.add seed (JS.mul x 1341)) (JS.mul y 7231)) in
  (fst (rng_call fn) * 2 - 1)%Q.

(** The generator as the specification words it: a 32-bit state advanced
    by a fixed odd increment, mixed in arithmetic modulo [2^32]. *)
Module Mulberry32Spec.

Definition advance (state : Z) : Z := (state + 0x6D2B79F5) mod 2 ^ 32.

Definition mix (state : Z) : Z :=
  let t := state in
  let t := (Z.lxor t (Z.shiftr t 15) * Z.lor t 1) mod 2 ^ 32 in
  let t := Z.lxor t ((t + Z.lxor t (Z.shiftr t 7) * Z.lor t 61) mod 2 ^ 32) in
  Z.lxor t (Z.shiftr t 14).

(** The [n]-th output (counting from 0) from a given 32-bit state. *)
Fixpoint sample (n : nat) (state : Z) : Q :=
  match n with
  | O => (inject_Z (mix (advance state)) / inject_Z 4294967296)%Q
  | S n' => sample n' (advance state)
  end.

(** Seeding: the state is the seed reduced to 32 bits. *)
Definition seeded (seed : Z) : Z := seed mod 2 ^ 32.

End Mulberry32Spec.


(** ** Typed arrays and counted loops *)

(** [for (let i = 0; i < n; i++) body] over a state [St]. *)
Definition for_loop {St : Type} (n : Z) (body : Z -> St -> St) (s : St) : St :=
  fold_left (fun acc i => body (Z.of_nat i) acc) (seq 0 (Z.to_nat n)) s.

(** A [Uint8ClampedArray] is a list of bytes held as integers.  Reading
    outside the array yields [undefined], which is stored as 0 when it is
    written to another byte array; writing outside the array (typed arrays
    have a fixed length) does nothing. *)
Definition aget (a : list Z) (i : Z) : Z :=
  if i <? 0 then 0 else default 0 (a !! Z.to_nat i).

Definition aset (a : list Z) (i : Z) (v : Z) : list Z :=
  if i <? 0 then a else <[Z.to_nat i := v]> a.

Record ImageData : Type := mkImageData {
  img_width : Z;
  img_height : Z;
  data : list Z
}.

(** [ctx.createImageData(width, height)]: transparent black. *)
Definition createImageData (width height : Z) : ImageData :=
  mkImageData width height (replicate (Z.to_nat (width * height * 4)) 0).

(** ** The 2D canvas, as the history of what was drawn on it *)

Inductive CompositeOp : Type :=
  | source_over | hard_light | screen | multiply | difference | soft_light.

Inductive Filter : Type :=
  | filter_none
  | blur (px : Q).

(** CSS colours: a literal string, or one of the templates the program
    fills with numbers. *)
Inductive Color : Type :=
  | css (literal : string)
  | hsl (h s l : Q)
  | hsla (h s l a : Q)
  | rgba (r g b a : Q).

Inductive Transform : Type :=
  | Translate (x y : Q)
  | Rotate (angle : Q)
  | Scale (x y : Q).

(** A path segment remembers the transformation in force when it was added. *)
Inductive PathSeg : Type :=
  | MoveTo (tr : list Transform) (x y : Q)
  | Arc (tr : list Transform) (x y r startAngle endAngle : Q)
  | ClosePath.

Definition Path : Type := list PathSeg.

Inductive Canvas : Type :=
  | Blank (width height : Q)
  | Paint (under : Canvas) (s : DrawState) (op : DrawOp)
  | PutImageData (under : Canvas) (img : ImageData) (dx dy : Q)
with DrawState : Type :=
  | mkDrawState (fillStyle : FillStyle)
                (globalCompositeOperation : CompositeOp)
                (filter : Filter)
                (imageSmoothingEnabled : bool)
                (transform : list Transform)
                (clipping : list Path)
with FillStyle : Type :=
  | Colour (c : Color)
  | LinearGradient (x0 y0 x1 y1 : Q) (stops : list (Q * Color))
  | RadialGradient (x0 y0 r0 x1 y1 r1 : Q) (stops : list (Q * Color))
  | Pattern (image : Canvas) (repetition : string)
with DrawOp : Type :=
  | FillRect (x y w h : Q)
  | Fill (p : Path)
  | DrawImage (image : Canvas) (dx dy : Q)
  | DrawImageScaled (image : Canvas) (dx dy dw dh : Q).

Definition fillStyle (s : DrawState) : FillStyle :=
  match s with mkDrawState f _ _ _ _ _ => f end.
Definition globalCompositeOperation (s : DrawState) : CompositeOp :=
  match s with mkDrawState _ g _ _ _ _ => g end.
Definition filter (s : DrawState) : Filter :=
  match s with mkDrawState _ _ f _ _ _ => f end.
Definition imageSmoothingEnabled (s : DrawState) : bool :=
  match s with mkDrawState _ _ _ b _ _ => b end.
Definition transform (s : DrawState) : list Transform :=
  match s with mkDrawState _ _ _ _ t _ => t end.
Definition clipping (s : DrawState) : list Path :=
  match s with mkDrawState _ _ _ _ _ c => c end.

(** The state of a context that has just been created. *)
Definition initial_state : DrawState :=
  mkDrawState (Colour (css "#000")) source_over filter_none true [] [].

(** A rendering context: its canvas, the drawing state, the current path
    and the stack of [save()]. *)
Record Ctx : Type := mkCtx {
  canvas : Canvas;
  state : DrawState;
  path : Path;
  stack : list DrawState
}.

(** [document.createElement('canvas')] sized [w] by [h], with its context. *)
Definition createCanvas (w h : Q) : Ctx := mkCtx (Blank w h) initial_state [] [].

Module Ctx2D.

Definition with_state (f : DrawState -> DrawState) (ctx : Ctx) : Ctx :=
  mkCtx (canvas ctx) (f (state ctx)) (path ctx) (stack ctx).

Definition set_fillStyle (v : FillStyle) : Ctx -> Ctx :=
  with_state (fun s => mkDrawState v (globalCompositeOperation s) (filter s)
                         (imageSmoothingEnabled s) (transform s) (clipping s)).
Definition set_globalCompositeOperation (v : CompositeOp) : Ctx -> Ctx :=
  with_state (fun s => mkDrawState (fillStyle s) v (filter s)
                         (imageSmoothingEnabled s) (transform s) (clipping s)).
Definition set_filter (v : Filter) : Ctx -> Ctx :=
  with_state (fun s => mkDrawState (fillStyle s) (globalCompositeOperation s) v
                         (imageSmoothingEnabled s) (transform s) (clipping s)).
Definition set_imageSmoothingEnabled (v : bool) : Ctx -> Ctx :=
  with_state (fun s => mkDrawState (fillStyle s) (globalCompositeOperation s)
                         (filter s) v (transform s) (clipping s)).
Definition add_transform (t : Transform) : Ctx -> Ctx :=
  with_state (fun s => mkDrawState (fillStyle s) (globalCompositeOperation s)
                         (filter s) (imageSmoothingEnabled s)
                         (transform s ++ [t]) (clipping s)).

Definition translate (x y : Q) : Ctx -> Ctx := add_transform (Translate x y).
Definition rotate (angle : Q) : Ctx -> Ctx := add_transform (Rotate angle).
Definition scale (x y : Q) : Ctx -> Ctx := add_transform (Scale x y).

Definition save (ctx : Ctx) : Ctx :=
  mkCtx (canvas ctx) (state ctx) (path ctx) (state ctx :: stack ctx).
Definition restore (ctx : Ctx) : Ctx :=
  match stack ctx with
  | [] => ctx
  | s :: rest => mkCtx (canvas ctx) s (path ctx) rest
  end.

Definition paint (op : DrawOp) (ctx : Ctx) : Ctx :=
  mkCtx (Paint (canvas ctx) (state ctx) op) (state ctx) (path ctx) (stack ctx).

Definition fillRect (x y w h : Q) : Ctx -> Ctx := paint (FillRect x y w h).
Definition drawImage (image : Canvas) (dx dy : Q) : Ctx -> Ctx :=
  paint (DrawImage image dx dy).
Definition drawImageScaled (image : Canvas) (dx dy dw dh : Q) : Ctx -> Ctx :=
  paint (DrawImageScaled image dx dy dw dh).
Definition putImageData (img : ImageData) (dx dy : Q) (ctx : Ctx) : Ctx :=
  mkCtx (PutImageData (canvas ctx) img dx dy) (state ctx) (path ctx) (stack ctx).

Definition with_path (p : Path) (ctx : Ctx) : Ctx :=
  mkCtx (canvas ctx) (state ctx) p (stack ctx).
Definition beginPath : Ctx -> Ctx := with_path [].
Definition moveTo (x y : Q) (ctx : Ctx) : Ctx :=
  with_path (path ctx ++ [MoveTo (transform (state ctx)) x y]) ctx.
Definition arc (x y r a0 a1 : Q) (ctx : Ctx) : Ctx :=
  with_path (path ctx ++ [Arc (transform (state ctx)) x y r a0 a1]) ctx.
Definition closePath (ctx : Ctx) : Ctx := with_path (path ctx ++ [ClosePath]) ctx.
Definition fill (ctx : Ctx) : Ctx := paint (Fill (path ctx)) ctx.
Definition clip : Ctx -> Ctx :=
  fun ctx =>
    with_state (fun s => mkDrawState (fillStyle s) (globalCompositeOperation s)
                           (filter s) (imageSmoothingEnabled s) (transform s)
                           (clipping s ++ [path ctx])) ctx.

End Ctx2D.

(** What the program uses and the host provides: the functions of [Math]
    that are not rational, and the reading back of pixels from a canvas. *)
Class MathHost : Type := {
  Math_PI : Q;
  Math_sin : Q -> Q;
  Math_cos : Q -> Q;
  Math_sqrt : Q -> Q;
  Math_atan2 : Q -> Q -> Q
}.

(** [getImageData] and [createImageData] raise [IndexSizeError] on an empty
    rectangle; this is not modelled: the transforms that read pixels back are
    specified on canvases with at least one pixel. *)
Class CanvasHost : Type := {
  getImageData : Canvas -> Q -> Q -> Q -> Q -> ImageData
}.

(** A copy of the canvas as it is now:
    [temp.width = width; temp.height = height;
     temp.getContext('2d')?.drawImage(ctx.canvas, 0, 0)]. *)
Definition snapshot (ctx : Ctx) (width height : Z) : Canvas :=
  canvas (Ctx2D.drawImage (canvas ctx) 0 0 (createCanvas width height)).

(** ** The Flux engine *)

Inductive FluxPattern : Type :=
  | wave | interference | ripple | prism | turbulence
  | glitch | kaleido | pixelate | scanline | vortex.

Section FluxEngine.
Context {M : MathHost} {C : CanvasHost}.
Import Ctx2D.

(** One iteration of the blob loop of [drawPsychedelicField]. *)
Definition drawPsychedelicField_orb
    (width height : Z) (hue : Q) (i : Z) (s : Ctx * Rng) : Ctx * Rng :=
  let '(ctx, rng) := s in
  let '(u, rng) := rng_call rng in
  let x := (u * width)%Q in
  let '(u, rng) := rng_call rng in
  let y := (u * height)%Q in
  let '(u, rng) := rng_call rng in
  let r := ((0.3 + u * 0.5) * Z.min width height)%Q in
  let '(u, rng) := rng_call rng in
  let orbHue := JS.rem (hue + u * 180) 360 in
  let blob :=
    RadialGradient x y 0 x y r
      [ (0%Q, hsla orbHue 100 60 0.4); (1%Q, css "transparent") ] in
  let ctx := set_fillStyle blob ctx in
  let ctx := beginPath ctx in
  let ctx := arc x y r 0 (Math_PI * 2) ctx in
  let ctx := fill ctx in
  (ctx, rng).

Definition drawPsychedelicField
    (ctx : Ctx) (width height : Z) (hue spectra seed : Q) : Ctx :=
  let rng := mulberry32 seed in
  let '(u, rng) := rng_call rng in
  let angle := ((u * 360) * (Math_PI / 180))%Q in
  let diag := Math_sqrt (width * width + height * height)%Q in
  let cx := (width / 2)%Q in
  let cy := (height / 2)%Q in
  let x0 := (cx - Math_cos angle * diag * 0.5)%Q in
  let y0 := (cy - Math_sin angle * diag * 0.5)%Q in
  let x1 := (cx + Math_cos angle * diag * 0.5)%Q in
  let y1 := (cy + Math_sin angle * diag * 0.5)%Q in
  let spread := (60 + (spectra / 100) * 120)%Q in
  let grd :=
    LinearGradient x0 y0 x1 y1
      [ (0%Q, hsl hue 100 40);
        (0.3%Q, hsl (JS.rem (hue + spread) 360) 100 50);
        (0.7%Q, hsl (JS.rem (hue - spread + 360) 360) 100 50);
        (1%Q, hsl hue 100 40) ] in
  let ctx := set_fillStyle grd ctx in
  let ctx := fillRect 0 0 width height ctx in
  let ctx := set_globalCompositeOperation hard_light ctx in
  let '(u, rng) := rng_call rng in
  let numOrbs := 6 + JS.floor (u * 4) in
  let '(ctx, rng) :=
    for_loop numOrbs (drawPsychedelicField_orb width height hue) (ctx, rng) in
  set_globalCompositeOperation source_over ctx.

(** *** Effect renderers *)

(** The closure [getIdx] of [renderLiquidWave]; its arguments are results
    of [Math.floor]. *)
Definition getIdx (width height : Z) (xx yy : Z) : Z :=
  let xx := if xx <? 0 then - xx else xx in
  let xx := if xx >=? width then width - Z.rem xx width - 1 else xx in
  let yy := if yy <? 0 then - yy else yy in
  let yy := if yy >=? height then height - Z.rem yy height - 1 else yy in
  (yy * width + xx) * 4.

(** The array [output.data] that [renderLiquidWave] builds from [d]. *)
Definition renderLiquidWave_output
    (width height : Z) (distortion scale seed : Q) (d : list Z) : list Z :=
  let o := data (createImageData width height) in
  let ampX := ((distortion / 100) * 80)%Q in
  let ampY := ((distortion / 100) * 40)%Q in
  let freqX := (0.005 + (scale / 100) * 0.03)%Q in
  let freqY := (0.005 + (scale / 100) * 0.05)%Q in
  let phase := (seed * 0.1)%Q in
  let split := JS.floor (JS.mul (JS.div distortion 100) 30) in
  for_loop height
    (fun y o =>
       let xShift := (Math_sin (y * freqX + phase) * ampX)%Q in
       for_loop width
         (fun x o =>
            let yShift := (Math_cos (x * freqY + phase) * ampY)%Q in
            let sx := (x + xShift)%Q in
            let sy := (y + yShift)%Q in
            let rx := JS.floor (sx - split) in
            let ry := JS.floor sy in
            let gx := JS.floor sx in
            let gy := JS.floor sy in
            let bx := JS.floor (sx + split) in
            let by_ := JS.floor sy in
            let destIdx := (y * width + x) * 4 in
            let o := aset o destIdx (aget d (getIdx width height rx ry)) in
            let o := aset o (destIdx + 1) (aget d (getIdx width height gx gy + 1)) in
            let o := aset o (destIdx + 2) (aget d (getIdx width height bx by_ + 2)) in
            aset o (destIdx + 3) 255)
         o)
    o.

Definition renderLiquidWave
    (ctx : Ctx) (width height : Z) (distortion scale seed : Q) : Ctx :=
  let imageData := getImageData (canvas ctx) 0 0 width height in
  let o := renderLiquidWave_output width height distortion scale seed (data imageData) in
  putImageData (mkImageData width height o) 0 0 ctx.

Definition renderLinearPrism
    (ctx : Ctx) (width height : Z) (distortion spectra seed : Q) : Ctx :=
  let temp := snapshot ctx width height in
  let ctx := set_fillStyle (Colour (css "#000")) ctx in
  let ctx := fillRect 0 0 width height ctx in
  let ctx := set_globalCompositeOperation screen ctx in
  let shift := ((distortion / 100) * 50)%Q in
  let base := (seed * 0.1)%Q in
  let rA := base in
  let bA := (base + Math_PI + (spectra / 100) * Math_PI)%Q in
  let rDx := (Math_cos rA * shift)%Q in
  let rDy := (Math_sin rA * shift)%Q in
  let bDx := (Math_cos bA * shift)%Q in
  let bDy := (Math_sin bA * shift)%Q in
  let ctx := save ctx in
  let ctx := translate rDx rDy ctx in
  let ctx := drawImage temp 0 0 ctx in
  let ctx := set_globalCompositeOperation multiply ctx in
  let ctx := set_fillStyle (Colour (css "#f00")) ctx in
  let ctx := fillRect (- width) (- height) (width * 3) (height * 3) ctx in
  let ctx := restore ctx in
  let ctx := set_globalCompositeOperation screen ctx in
  let ctx := drawImage temp 0 0 ctx in
  let ctx := set_globalCompositeOperation multiply ctx in
  let ctx := set_fillStyle (Colour (css "#0f0")) ctx in
  let ctx := fillRect 0 0 width height ctx in
  let ctx := set_globalCompositeOperation screen ctx in
  let ctx := save ctx in
  let ctx := translate bDx bDy ctx in
  let ctx := drawImage temp 0 0 ctx in
  let ctx := set_globalCompositeOperation multiply ctx in
  let ctx := set_fillStyle (Colour (css "#00f")) ctx in
  let ctx := fillRect (- width) (- height) (width * 3) (height * 3) ctx in
  let ctx := restore ctx in
  set_globalCompositeOperation source_over ctx.

(** The first block of [renderDataMosh]: the three colour channels are
    redrawn from a copy, shifted by [channelShift] pixels. *)
Definition dataMosh_channels (ctx : Ctx) (width height : Z) (channelShift : Z) : Ctx :=
  let temp := snapshot ctx width height in
  let ctx := set_globalCompositeOperation screen ctx in
  let ctx := set_fillStyle (Colour (css "black")) ctx in
  let ctx := fillRect 0 0 width height ctx in
  let ctx := drawImage temp (- channelShift) 0 ctx in
  let ctx := set_globalCompositeOperation multiply ctx in
  let ctx := set_fillStyle (Colour (css "red")) ctx in
  let ctx := fillRect 0 0 width height ctx in
  let ctx := set_globalCompositeOperation screen ctx in
  let ctx := drawImage temp channelShift 0 ctx in
  let ctx := set_globalCompositeOperation multiply ctx in
  let ctx := set_fillStyle (Colour (css "blue")) ctx in
  let ctx := fillRect 0 0 width height ctx in
  let ctx := set_globalCompositeOperation screen ctx in
  let ctx := drawImage temp 0 0 ctx in
  let ctx := set_globalCompositeOperation multiply ctx in
  let ctx := set_fillStyle (Colour (css "lime")) ctx in
  let ctx := fillRect 0 0 width height ctx in
  set_globalCompositeOperation source_over ctx.

(** One iteration of the slice loop of [renderDataMosh]. *)
Definition dataMosh_slice
    (width height : Z) (distortion : Q) (i : Z) (s : Ctx * Rng) : Ctx * Rng :=
  let '(ctx, rng) := s in
  let '(u, rng) := rng_call rng in
  let h := (5 + u * 100)%Q in
  let '(u, rng) := rng_call rng in
  let y := (u * (height - h))%Q in
  let '(u, rng) := rng_call rng in
  let xOff := ((u - 0.5) * (width * 0.4) * (distortion / 80))%Q in
  let slice := getImageData (canvas ctx) 0 y width h in
  let '(u, rng) := rng_call rng in
  let ctx :=
    if JS.gt u 0.8
    then fillRect 0 y width h (set_fillStyle (Colour (css "black")) ctx)
    else ctx in
  let sc := canvas (putImageData slice 0 0 (createCanvas width h)) in
  let ctx := drawImage sc xOff y ctx in
  let '(u, rng) := rng_call rng in
  let ctx :=
    if JS.gt u 0.9
    then
      let ctx := save ctx in
      let ctx := set_globalCompositeOperation difference ctx in
      let ctx := set_fillStyle (Colour (css "white")) ctx in
      let ctx := fillRect 0 y width h ctx in
      restore ctx
    else ctx in
  (ctx, rng).

Definition renderDataMosh
    (ctx : Ctx) (width height : Z) (distortion seed : Q) : Ctx :=
  let channelShift := JS.floor (JS.mul (JS.div distortion 100) 40) in
  let ctx :=
    if channelShift >? 0 then dataMosh_channels ctx width height channelShift
    else ctx in
  if JS.gt distortion 5 then
    let num := 5 + JS.floor (JS.mul (JS.div distortion 100) 30) in
    let rng := mulberry32 seed in
    fst (for_loop num (dataMosh_slice width height distortion) (ctx, rng))
  else ctx.

Definition renderFluidDisplacement_output
    (width height : Z) (distortion scale seed : Q) (d : list Z) : list Z :=
  let o := data (createImageData width height) in
  let str := ((distortion / 100) * 150)%Q in
  let zoom := (0.001 + (scale / 100) * 0.005)%Q in
  for_loop height
    (fun y o =>
       for_loop width
         (fun x o =>
            let n1 := noise (x * zoom) (y * zoom) seed in
            let n2 := noise (x * zoom + 100) (y * zoom + 100) seed in
            let sx := JS.floor (x + n1 * str) in
            let sy := JS.floor (y + n2 * str) in
            let sx := if sx <? 0 then 0 else sx in
            let sx := if sx >=? width then width - 1 else sx in
            let sy := if sy <? 0 then 0 else sy in
            let sy := if sy >=? height then height - 1 else sy in
            let si := (sy * width + sx) * 4 in
            let di := (y * width + x) * 4 in
            let o := aset o di (aget d si) in
            let o := aset o (di + 1) (aget d (si + 1)) in
            let o := aset o (di + 2) (aget d (si + 2)) in
            aset o (di + 3) 255)
         o)
    o.

Definition renderFluidDisplacement
    (ctx : Ctx) (width height : Z) (distortion scale seed : Q) : Ctx :=
  let imageData := getImageData (canvas ctx) 0 0 width height in
  let o := renderFluidDisplacement_output width height distortion scale seed
             (data imageData) in
  putImageData (mkImageData width height o) 0 0 ctx.

Definition renderLinearMoire
    (ctx : Ctx) (width height : Z) (hue distortion scale seed : Q) : Ctx :=
  let ctx := set_globalCompositeOperation difference ctx in
  let den := JS.max 3 (30 - (scale / 100) * 25) in
  let p1 := createCanvas (den * 2) (den * 2) in
  let p1c := set_fillStyle (Colour (hsl hue 100 50)) p1 in
  let p1c := fillRect 0 0 den (den * 2) p1c in
  let pat1 := Pattern (canvas p1c) "repeat" in
  let ctx := set_fillStyle pat1 ctx in
  let ctx := fillRect 0 0 width height ctx in
  let off := ((distortion / 100) * den)%Q in
  let ang := ((distortion / 100) * 0.1)%Q in
  let ctx := save ctx in
  let ctx := translate (width / 2) (height / 2) ctx in
  let ctx := rotate ang ctx in
  let ctx := translate (- width / 2) (- height / 2) ctx in
  let ctx := translate off 0 ctx in
  let p2 := createCanvas (den * 2) (den * 2) in
  let p2c := set_fillStyle (Colour (hsl (JS.rem (hue + 180) 360) 100 50)) p2 in
  let p2c := fillRect 0 0 den (den * 2) p2c in
  let pat2 := Pattern (canvas p2c) "repeat" in
  let ctx := set_fillStyle pat2 ctx in
  let ctx := fillRect (- width) (- height) (width * 3) (height * 3) ctx in
  let ctx := restore ctx in
  set_globalCompositeOperation source_over ctx.

Definition renderGlassRefraction_output
    (width height : Z) (distortion scale seed : Q) (d : list Z) : list Z :=
  let o := data (createImageData width height) in
  let str := ((distortion / 100) * 50)%Q in
  let freq := (0.005 + (scale / 100) * 0.02)%Q in
  let time := (seed * 0.1)%Q in
  for_loop height
    (fun y o =>
       for_loop width
         (fun x o =>
            let nX := noise (x * freq) (y * freq) time in
            let nY := noise (x * freq + 100) (y * freq + 100) time in
            let sx := JS.floor (x + nX * str) in
            let sy := JS.floor (y + nY * str) in
            let sx := if sx <? 0 then 0 else sx in
            let sx := if sx >=? width then width - 1 else sx in
            let sy := if sy <? 0 then 0 else sy in
            let sy := if sy >=? height then height - 1 else sy in
            let si := (sy * width + sx) * 4 in
            let di := (y * width + x) * 4 in
            let o := aset o di (aget d si) in
            let o := aset o (di + 1) (aget d (si + 1)) in
            let o := aset o (di + 2) (aget d (si + 2)) in
            aset o (di + 3) 255)
         o)
    o.

Definition renderGlassRefraction
    (ctx : Ctx) (width height : Z) (distortion scale seed : Q) : Ctx :=
  let imageData := getImageData (canvas ctx) 0 0 width height in
  let o := renderGlassRefraction_output width height distortion scale seed
             (data imageData) in
  putImageData (mkImageData width height o) 0 0 ctx.

Definition renderKaleidoscope
    (ctx : Ctx) (width height : Z) (distortion scale : Q) : Ctx :=
  let temp := snapshot ctx width height in
  let ctx := set_fillStyle (Colour (css "#000")) ctx in
  let ctx := fillRect 0 0 width height ctx in
  let segments := 4 + JS.floor (JS.mul (JS.div scale 100) 12) in
  let angleStep := ((Math_PI * 2) / segments)%Q in
  let cx := (width / 2)%Q in
  let cy := (height / 2)%Q in
  let radius := Math_sqrt (cx * cx + cy * cy) in
  let rotOffset := ((distortion / 100) * Math_PI)%Q in
  for_loop segments
    (fun i ctx =>
       let ctx := save ctx in
       let ctx := translate cx cy ctx in
       let ctx := rotate (i * angleStep + rotOffset) ctx in
       let ctx := beginPath ctx in
       let ctx := moveTo 0 0 ctx in
       let ctx := arc 0 0 radius (- angleStep / 2 - 0.01) (angleStep / 2 + 0.01) ctx in
       let ctx := closePath ctx in
       let ctx := clip ctx in
       let ctx := if Z.rem i 2 =? 1 then Ctx2D.scale (-1) 1 ctx else ctx in
       let ctx := rotate (- Math_PI / 2) ctx in
       let ctx := translate (- cx) (- cy) ctx in
       let ctx := drawImage temp 0 0 ctx in
       restore ctx)
    ctx.

Definition renderPixelate
    (ctx : Ctx) (width height : Z) (distortion scale : Q) : Ctx :=
  let blockSize :=
    JS.max 4
      (JS.add (JS.add 4 (JS.mul (JS.div (JS.sub 100 scale) 100) 40))
         (JS.mul (JS.div distortion 100) 20)) in
  let w := JS.ceil (JS.div width blockSize) in
  let h := JS.ceil (JS.div height blockSize) in
  let temp := createCanvas w h in
  let tCtx := set_imageSmoothingEnabled false temp in
  let tCtx := drawImageScaled (canvas ctx) 0 0 w h tCtx in
  let ctx := set_imageSmoothingEnabled false ctx in
  let ctx := drawImageScaled (canvas tCtx) 0 0 width height ctx in
  set_imageSmoothingEnabled true ctx.

Definition renderScanline
    (ctx : Ctx) (width height : Z) (distortion scale : Q) : Ctx :=
  let lineSize := Z.max 2 (JS.floor (2 + (scale / 100) * 6)) in
  let intensity := (0.2 + (distortion / 100) * 0.6)%Q in
  let temp := createCanvas 1 (lineSize * 2) in
  let tCtx := set_fillStyle (Colour (rgba 0 0 0 0)) temp in
  let tCtx := fillRect 0 0 1 lineSize tCtx in
  let tCtx := set_fillStyle (Colour (rgba 0 0 0 intensity)) tCtx in
  let tCtx := fillRect 0 lineSize 1 lineSize tCtx in
  let ctx :=
    if JS.gt distortion 10 then
      let shift := ((distortion / 100) * 10)%Q in
      let copy := snapshot ctx width height in
      let ctx := set_globalCompositeOperation screen ctx in
      let ctx := set_fillStyle (Colour (css "black")) ctx in
      let ctx := fillRect 0 0 width height ctx in
      let ctx := drawImage copy (- shift) 0 ctx in
      let ctx := set_globalCompositeOperation multiply ctx in
      let ctx := set_fillStyle (Colour (css "#f00")) ctx in
      let ctx := fillRect 0 0 width height ctx in
      let ctx := set_globalCompositeOperation screen ctx in
      let ctx := drawImage copy 0 0 ctx in
      let ctx := set_globalCompositeOperation multiply ctx in
      let ctx := set_fillStyle (Colour (css "#0f0")) ctx in
      let ctx := fillRect 0 0 width height ctx in
      let ctx := set_globalCompositeOperation screen ctx in
      let ctx := drawImage copy shift 0 ctx in
      let ctx := set_globalCompositeOperation multiply ctx in
      let ctx := set_fillStyle (Colour (css "#00f")) ctx in
      let ctx := fillRect 0 0 width height ctx in
      set_globalCompositeOperation source_over ctx
    else ctx in
  let pat := Pattern (canvas tCtx) "repeat" in
  let ctx := set_fillStyle pat ctx in
  let ctx := set_globalCompositeOperation multiply ctx in
  let ctx := fillRect 0 0 width height ctx in
  set_globalCompositeOperation source_over ctx.

Definition renderVortex_output
    (width height : Z) (distortion scale : Q) (d : list Z) : list Z :=
  let o := data (createImageData width height) in
  let cx := (width / 2)%Q in
  let cy := (height / 2)%Q in
  let radius := (Z.min width height / 2)%Q in
  let strength := ((distortion / 100) * 10)%Q in
  let zoom := (1 - (scale / 100) * 0.5)%Q in
  for_loop height
    (fun y o =>
       for_loop width
         (fun x o =>
            let dx := (x - cx)%Q in
            let dy := (y - cy)%Q in
            let dist := Math_sqrt (dx * dx + dy * dy) in
            let angle := Math_atan2 dy dx in
            let r := (dist * zoom)%Q in
            let delta := (strength * (1 - JS.min 1 (dist / radius)))%Q in
            let angle := (angle + delta)%Q in
            let sx := (cx + Math_cos angle * r)%Q in
            let sy := (cy + Math_sin angle * r)%Q in
            let isx := JS.floor sx in
            let isy := JS.floor sy in
            let idx := (y * width + x) * 4 in
            if (isx >=? 0) && (isx <? width) && (isy >=? 0) && (isy <? height)
            then
              let sIdx := (isy * width + isx) * 4 in
              let o := aset o idx (aget d sIdx) in
              let o := aset o (idx + 1) (aget d (sIdx + 1)) in
              let o := aset o (idx + 2) (aget d (sIdx + 2)) in
              aset o (idx + 3) 255
            else
              let o := aset o idx 0 in
              let o := aset o (idx + 1) 0 in
              let o := aset o (idx + 2) 0 in
              aset o (idx + 3) 255)
         o)
    o.

Definition renderVortex
    (ctx : Ctx) (width height : Z) (distortion scale : Q) : Ctx :=
  if JS.lt distortion 5 then ctx
  else
    let imageData := getImageData (canvas ctx) 0 0 width height in
    let o := renderVortex_output width height distortion scale (data imageData) in
    putImageData (mkImageData width height o) 0 0 ctx.

(** *** [renderFluxToCanvas], stage by stage *)

Definition applyPattern
    (ctx : Ctx) (width height : Z) (hue spectra distortion scale seed : Q)
    (pattern : FluxPattern) : Ctx :=
  match pattern with
  | wave => renderLiquidWave ctx width height distortion scale seed
  | prism => renderLinearPrism ctx width height distortion spectra seed
  | glitch => renderDataMosh ctx width height distortion seed
  | turbulence => renderFluidDisplacement ctx width height distortion scale seed
  | interference => renderLinearMoire ctx width height hue distortion scale seed
  | ripple => renderGlassRefraction ctx width height distortion scale seed
  | kaleido => renderKaleidoscope ctx width height distortion scale
  | pixelate => renderPixelate ctx width height distortion scale
  | scanline => renderScanline ctx width height distortion scale
  | vortex => renderVortex ctx width height distortion scale
  end.

Definition applySmudge
    (ctx : Ctx) (width height : Z) (smudgeActive : bool) (smudgeFactor : Q) : Ctx :=
  if smudgeActive && JS.gt smudgeFactor 0 then
    let temp := snapshot ctx width height in
    let ctx := save ctx in
    let blurPx := ((smudgeFactor / 100) * 40)%Q in
    let ctx := set_filter (blur blurPx) ctx in
    let ctx := drawImage temp 0 0 ctx in
    let ctx := set_filter filter_none ctx in
    restore ctx
  else ctx.

Definition applyExposure (ctx : Ctx) (width height : Z) (exposure : Q) : Ctx :=
  if JS.neq exposure 50 then
    let ctx :=
      set_fillStyle
        (if JS.gt exposure 50
         then Colour (rgba 255 255 255 ((exposure - 50) / 150))
         else Colour (rgba 0 0 0 ((50 - exposure) / 100)))
        ctx in
    let ctx :=
      set_globalCompositeOperation
        (if JS.gt exposure 50 then soft_light else multiply) ctx in
    let ctx := fillRect 0 0 width height ctx in
    set_globalCompositeOperation source_over ctx
  else ctx.

Definition renderFluxToCanvas
    (ctx : Ctx) (width height : Z)
    (hue spectra exposure distortion scale seed : Q)
    (pattern : FluxPattern) (smudgeActive : bool) (smudgeFactor : Q) : Ctx :=
  let ctx := drawPsychedelicField ctx width height hue spectra seed in
  let ctx := applyPattern ctx width height hue spectra distortion scale seed pattern in
  let ctx := applySmudge ctx width height smudgeActive smudgeFactor in
  applyExposure ctx width height exposure.

End FluxEngine.

(** ** The application: audio synchronisation and the animation loop *)

Module App.

Inductive SystemMode : Type := chroma | flux.

(** The React state the audio code reads and writes.  [stateRef.current] is
    refreshed from it after every change, before the next animation frame:
    the loop reads this same record. *)
Record State : Type := mkState {
  systemMode : SystemMode;
  hue : Q;
  hueB : Q;
  fluxHue : Q;
  fluxSpectra : Q;
  fluxExposure : Q;
  fluxDistortion : Q;
  fluxIso : Q;
  fluxSeed : Q;
  fluxPattern : FluxPattern;
  fluxSmudgeActive : bool;
  fluxSmudgeFactor : Q;
  activeCanvasDims : option (Q * Q);
  audioSync : bool
}.

Definition setHue (f : Q -> Q) (s : State) : State :=
  mkState (systemMode s) (f (hue s)) (hueB s) (fluxHue s) (fluxSpectra s)
    (fluxExposure s) (fluxDistortion s) (fluxIso s) (fluxSeed s) (fluxPattern s)
    (fluxSmudgeActive s) (fluxSmudgeFactor s) (activeCanvasDims s) (audioSync s).

Definition setHueB (f : Q -> Q) (s : State) : State :=
  mkState (systemMode s) (hue s) (f (hueB s)) (fluxHue s) (fluxSpectra s)
    (fluxExposure s) (fluxDistortion s) (fluxIso s) (fluxSeed s) (fluxPattern s)
    (fluxSmudgeActive s) (fluxSmudgeFactor s) (activeCanvasDims s) (audioSync s).

Definition setFluxHue (f : Q -> Q) (s : State) : State :=
  mkState (systemMode s) (hue s) (hueB s) (f (fluxHue s)) (fluxSpectra s)
    (fluxExposure s) (fluxDistortion s) (fluxIso s) (fluxSeed s) (fluxPattern s)
    (fluxSmudgeActive s) (fluxSmudgeFactor s) (activeCanvasDims s) (audioSync s).

Definition setAudioSync (b : bool) (s : State) : State :=
  mkState (systemMode s) (hue s) (hueB s) (fluxHue s) (fluxSpectra s)
    (fluxExposure s) (fluxDistortion s) (fluxIso s) (fluxSeed s) (fluxPattern s)
    (fluxSmudgeActive s) (fluxSmudgeFactor s) (activeCanvasDims s) b.

(** Host objects the code only holds on to. *)
Inductive AudioContext : Type := an_AudioContext.
Inductive AnalyserNode : Type := an_AnalyserNode.
Inductive MediaStream : Type := a_MediaStream.

(** The inline style of the chroma element: [transform: scale(s)] and the
    [filter] list. *)
Inductive CssFilter : Type :=
  | css_none
  | css_hue_saturate_brightness (hueRotateDeg saturatePct brightness : Q).

Record Style : Type := mkStyle {
  style_scale : Q;
  style_filter : CssFilter
}.

Record CanvasElement : Type := mkCanvasElement {
  canvas_width : Z;
  canvas_height : Z
}.

Record Accumulator : Type := mkAccumulator { hueOffset : Q }.

(** The component: its state and its refs. *)
Record App : Type := mkApp {
  state : State;
  audioContextRef : option AudioContext;
  analyserRef : option AnalyserNode;
  audioAccumulatorRef : Accumulator;
  fluxCanvasRef : option CanvasElement;
  chromaRef : option Style
}.

(** [toggleAudioSync].  [media] is the outcome of
    [navigator.mediaDevices.getUserMedia] ([None] when it rejects); it is only
    consulted when audio sync is off. *)
Definition toggleAudioSync (media : option MediaStream) (app : App) : App :=
  if audioSync (state app) then
    let st := setAudioSync false (state app) in
    let finalOffset := hueOffset (audioAccumulatorRef app) in
    let st :=
      match systemMode (state app) with
      | chroma =>
          setHueB (fun prev => JS.rem (prev + finalOffset) 360)
            (setHue (fun prev => JS.rem (prev + finalOffset) 360) st)
      | flux => setFluxHue (fun prev => JS.rem (prev + finalOffset) 360) st
      end in
    let audioContext := None in
    let chroma_el :=
      match chromaRef app with
      | Some _ => Some (mkStyle 1 css_none)
      | None => None
      end in
    mkApp st audioContext (analyserRef app) (mkAccumulator 0)
      (fluxCanvasRef app) chroma_el
  else
    match media with
    | Some stream =>
        mkApp (setAudioSync true (state app)) (Some an_AudioContext)
          (Some an_AnalyserNode) (audioAccumulatorRef app)
          (fluxCanvasRef app) (chromaRef app)
    | None =>
        mkApp (setAudioSync false (state app)) (audioContextRef app)
          (analyserRef app) (audioAccumulatorRef app)
          (fluxCanvasRef app) (chromaRef app)
    end.

(** What one animation frame receives from the host. *)
Record Frame : Type := mkFrame {
  frequencyData : list Byte.byte;   (* left in [dataArrayRef] by the analyser *)
  devicePixelRatio : Q;
  hasContext2d : bool               (* [canvas.getContext('2d')] is not null *)
}.

(** The arguments of a call to [renderFluxToCanvas]. *)
Record FluxCall : Type := mkFluxCall {
  call_width : Z;
  call_height : Z;
  call_hue : Q;
  call_spectra : Q;
  call_exposure : Q;
  call_distortion : Q;
  call_scale : Q;
  call_seed : Q;
  call_pattern : FluxPattern;
  call_smudgeActive : bool;
  call_smudgeFactor : Q
}.

(** [data.slice(from, to).reduce((a, b) => a + b, 0)]. *)
Definition slice_sum (data : list Byte.byte) (from to : nat) : Z :=
  fold_left (fun a b => a + Z.of_N (Byte.to_N b)) (take (to - from) (drop from data)) 0.

Record Bands : Type := mkBands { bass : Q; mid : Q; high : Q; vol : Q }.

Definition silent : Bands := mkBands 0 0 0 0.

(** The band energies and the volume are doubles: the volume is compared
    with the threshold [0.02], itself a double. *)

Definition analyse (data : list Byte.byte) : Bands :=
  let bassSum := slice_sum data 0 10 in
  let bass := JS.div (JS.div bassSum 10) 255 in
  let midSum := slice_sum data 20 100 in
  let mid := JS.div (JS.div midSum 80) 255 in
  let highSum := slice_sum data 100 300 in
  let high := JS.div (JS.div highSum 200) 255 in
  let vol := JS.div (JS.add (JS.add bass mid) high) 3 in
  mkBands bass mid high vol.

(** One run of [loop]: the component afterwards and the call to
    [renderFluxToCanvas] it made, if any. *)
Definition loop (frame : Frame) (app : App) : App * option FluxCall :=
  let state := state app in
  (* 1. Analyze Audio if Sync is On *)
  let '(bands, accumulator) :=
    match audioSync state, analyserRef app with
    | true, Some _ =>
        let b := analyse (frequencyData frame) in
        let acc :=
          if JS.gt (vol b) (JS.double 0.02)
          then mkAccumulator (hueOffset (audioAccumulatorRef app) + vol b * 4)
          else audioAccumulatorRef app in
        (b, acc)
    | _, _ => (silent, audioAccumulatorRef app)
    end in
  (* 2. Render Flux (Canvas) *)
  let '(fluxCanvas, call) :=
    match systemMode state, fluxCanvasRef app, activeCanvasDims state with
    | flux, Some canvas, Some (w, h) =>
        if audioSync state then
          let dpr :=
            if Qeq_bool (devicePixelRatio frame) 0 then 1%Q
            else devicePixelRatio frame in
          let targetW := JS.floor (JS.mul w dpr) in
          let targetH := JS.floor (JS.mul h dpr) in
          let canvas :=
            if negb (canvas_width canvas =? targetW)
               || negb (canvas_height canvas =? targetH)
            then mkCanvasElement targetW targetH
            else canvas in
          if hasContext2d frame then
            let dynDistortion := (fluxDistortion state + bass bands * 80)%Q in
            let dynIso := (fluxIso state + bass bands * 50)%Q in
            let dynSpectra := (fluxSpectra state + high bands * 100)%Q in
            let accumulatedHue :=
              JS.rem (fluxHue state + hueOffset accumulator) 360 in
            (Some canvas,
             Some (mkFluxCall (canvas_width canvas) (canvas_height canvas)
                     accumulatedHue dynSpectra (fluxExposure state)
                     dynDistortion dynIso (fluxSeed state) (fluxPattern state)
                     (fluxSmudgeActive state) (fluxSmudgeFactor state)))
          else (Some canvas, None)
        else (Some canvas, None)
    | _, c, _ => (c, None)
    end in
  (* 3. Render Chroma (DOM Reactivity) *)
  let chroma_el :=
    match systemMode state, chromaRef app with
    | chroma, Some style =>
        if audioSync state then
          let scale := (1 + bass bands * 0.25)%Q in
          let saturate := (100 + mid bands * 150)%Q in
          let hueRot := JS.rem (hueOffset accumulator) 360 in
          Some (mkStyle scale
                  (css_hue_saturate_brightness hueRot saturate
                     (1 + high bands * 0.5)))
        else Some style
    | _, c => c
    end in
  (mkApp state (audioContextRef app) (analyserRef app) accumulator
     fluxCanvas chroma_el,
   call).

(** A listening session: the component after a sequence of frames. *)
Definition run (frames : list Frame) (app : App) : App :=
  fold_left (fun a f => fst (loop f a)) frames app.

(** What happens to the component: an animation frame, or the audio
    button. *)
Inductive Event : Type :=
  | Tick (frame : Frame)
  | Toggle (media : option MediaStream).

Definition step (app : App) (e : Event) : App :=
  match e with
  | Tick frame => fst (loop frame app)
  | Toggle media => toggleAudioSync media app
  end.

End App.

(** ** Views of the engine used to state its properties *)

(** The four consecutive writes of one pixel. *)
Definition write_pixel (o : list Z) (idx : Z) (p : Z * Z * Z * Z) : list Z :=
  let '(r, g, b, a) := p in
  aset (aset (aset (aset o idx r) (idx + 1) g) (idx + 2) b) (idx + 3) a.

Definition pixel_at (o : list Z) (idx : Z) : Z * Z * Z * Z :=
  (aget o idx, aget o (idx + 1), aget o (idx + 2), aget o (idx + 3)).

(** The two nested loops of the per-pixel transforms: pixel [(x, y)] of a
    [width] by [height] image receives [f x y]. *)
Definition pixel_loops (width height : Z) (f : Z -> Z -> Z * Z * Z * Z)
    (o : list Z) : list Z :=
  for_loop height
    (fun y o =>
       for_loop width (fun x o => write_pixel o ((y * width + x) * 4) (f x y)) o)
    o.

(** After the loops have treated all pixels before [(x, y)] in row-major
    order. *)
Definition filled (width : Z) (f : Z -> Z -> Z * Z * Z * Z) (n : Z)
    (len : nat) (o : list Z) : Prop :=
  length o = len /\
  forall x y, 0 <= x < width -> 0 <= y -> y * width + x < n ->
              pixel_at o ((y * width + x) * 4) = f x y.

(** An index at which a pixel of a [width] by [height] RGBA buffer starts. *)
Definition pixel_index (width height idx : Z) : Prop :=
  0 <= idx /\ idx + 3 < width * height * 4.

(** What [getIdx] does to one coordinate: coordinates below 0 are negated,
    coordinates from [n] on are counted back from the far edge. *)
Definition mirror (n v : Z) : Z :=
  let v := if v <? 0 then - v else v in
  if v >=? n then n - Z.rem v n - 1 else v.

(** Reflection as the specification words it: the buffer seen through the
    two mirrors of [getIdx], the one about coordinate 0 ([v] to [-v]) and the
    one about the far edge ([v] to [2n - 1 - v]), as often as it takes to
    come inside.  Both mirrors together shift by [2n - 1], so the image has
    that period. *)
Definition reflect (n v : Z) : Z :=
  let r := v mod (2 * n - 1) in
  if r <? n then r else 2 * n - 1 - r.

(** What [renderFluidDisplacement] and [renderGlassRefraction] do to one
    coordinate. *)
Definition clamp (n v : Z) : Z :=
  let v := if v <? 0 then 0 else v in
  if v >=? n then n - 1 else v.

Section Views.
Context {M : MathHost}.

(** The sampling coordinates of [renderLiquidWave] for the red, green and
    blue channels of pixel [(x, y)]. *)
Definition wave_sources (width height : Z) (distortion scale seed : Q) (x y : Z)
    : (Z * Z) * (Z * Z) * (Z * Z) :=
  let ampX := ((distortion / 100) * 80)%Q in
  let ampY := ((distortion / 100) * 40)%Q in
  let freqX := (0.005 + (scale / 100) * 0.03)%Q in
  let freqY := (0.005 + (scale / 100) * 0.05)%Q in
  let phase := (seed * 0.1)%Q in
  let split := JS.floor (JS.mul (JS.div distortion 100) 30) in
  let xShift := (Math_sin (y * freqX + phase) * ampX)%Q in
  let yShift := (Math_cos (x * freqY + phase) * ampY)%Q in
  let sx := (x + xShift)%Q in
  let sy := (y + yShift)%Q in
  ((JS.floor (sx - split), JS.floor sy),
   (JS.floor sx, JS.floor sy),
   (JS.floor (sx + split), JS.floor sy)).

Definition wave_pixel (width height : Z) (distortion scale seed : Q)
    (d : list Z) (x y : Z) : Z * Z * Z * Z :=
  let '((rx, ry), (gx, gy), (bx, by_)) :=
    wave_sources width height distortion scale seed x y in
  (aget d (getIdx width height rx ry),
   aget d (getIdx width height gx gy + 1),
   aget d (getIdx width height bx by_ + 2),
   255).

(** The displaced coordinates of [renderFluidDisplacement] (Turbulence) and
    of [renderGlassRefraction] (Ripple), before clamping. *)
Definition turbulence_source (distortion scale seed : Q) (x y : Z) : Z * Z :=
  let str := ((distortion / 100) * 150)%Q in
  let zoom := (0.001 + (scale / 100) * 0.005)%Q in
  let n1 := noise (x * zoom) (y * zoom) seed in
  let n2 := noise (x * zoom + 100) (y * zoom + 100) seed in
  (JS.floor (x + n1 * str), JS.floor (y + n2 * str)).

Definition ripple_source (distortion scale seed : Q) (x y : Z) : Z * Z :=
  let str := ((distortion / 100) * 50)%Q in
  let freq := (0.005 + (scale / 100) * 0.02)%Q in
  let time := (seed * 0.1)%Q in
  let nX := noise (x * freq) (y * freq) time in
  let nY := noise (x * freq + 100) (y * freq + 100) time in
  (JS.floor (x + nX * str), JS.floor (y + nY * str)).

(** The pixel read at the clamped coordinates, made opaque. *)
Definition clamped_pixel (width height : Z) (d : list Z) (s : Z * Z)
    : Z * Z * Z * Z :=
  let si := (clamp height (snd s) * width + clamp width (fst s)) * 4 in
  (aget d si, aget d (si + 1), aget d (si + 2), 255).

(** The source coordinates of [renderVortex] for pixel [(x, y)]: the polar
    coordinates about the centre, the angle advanced by the twist and the
    radius scaled by the zoom, rounded down. *)
Definition vortex_source (width height : Z) (distortion scale : Q) (x y : Z)
    : Z * Z :=
  let cx := (width / 2)%Q in
  let cy := (height / 2)%Q in
  let radius := (Z.min width height / 2)%Q in
  let dx := (x - cx)%Q in
  let dy := (y - cy)%Q in
  let dist := Math_sqrt (dx * dx + dy * dy) in
  let angle :=
    (Math_atan2 dy dx
     + (distortion / 100) * 10 * (1 - JS.min 1 (dist / radius)))%Q in
  let r := (dist * (1 - (scale / 100) * 0.5))%Q in
  (JS.floor (cx + Math_cos angle * r), JS.floor (cy + Math_sin angle * r)).

Definition vortex_pixel (width height : Z) (distortion scale : Q)
    (d : list Z) (x y : Z) : Z * Z * Z * Z :=
  let '(isx, isy) := vortex_source width height distortion scale x y in
  if (isx >=? 0) && (isx <? width) && (isy >=? 0) && (isy <? height)
  then
    let sIdx := (isy * width + isx) * 4 in
    (aget d sIdx, aget d (sIdx + 1), aget d (sIdx + 2), 255)
  else (0, 0, 0, 255).

End Views.

(** An image all of whose pixels have alpha 255. *)
Definition opaque (img : ImageData) : Prop :=
  length (data img) = Z.to_nat (img_width img * img_height img * 4)
  /\ forall x y,
       0 <= x < img_width img -> 0 <= y < img_height img ->
       aget (data img) ((y * img_width img + x) * 4 + 3) = 255.

(** The generator after [n] calls. *)
Definition rng_after (n : nat) (g : Rng) : Rng :=
  Nat.iter n (fun g => snd (rng_call g)) g.

(** A uniform layer over the whole canvas: [fillRect(0, 0, width, height)]
    with fill colour [c] under the composite operation [op]. *)
Definition uniform_layer (c : Color) (op : CompositeOp) (width height : Z)
    (ctx : Ctx) : Canvas :=
  Paint (canvas ctx)
    (mkDrawState (Colour c) op (filter (state ctx))
       (imageSmoothingEnabled (state ctx)) (transform (state ctx))
       (clipping (state ctx)))
    (FillRect 0 0 width height).

(** The number of slice displacements in the history of a canvas: the
    drawings of a band that was read back onto a canvas of its own. *)
Definition is_slice_draw (op : DrawOp) : bool :=
  match op with
  | DrawImage (PutImageData (Blank _ _) _ _ _) _ _ => true
  | _ => false
  end.

Fixpoint slice_draws (c : Canvas) : nat :=
  match c with
  | Blank _ _ => 0%nat
  | Paint under _ op => (slice_draws under + (if is_slice_draw op then 1 else 0))%nat
  | PutImageData under _ _ _ => slice_draws under
  end.

Section FieldViews.
Context {M : MathHost} {C : CanvasHost}.

(** The base field in terms of the samples of the seed's generator: sample 0
    turns the ramp, sample 1 counts the blobs, and blob [i] takes the samples
    [2 + 4i .. 5 + 4i]. *)
Definition field_ramp (width height : Z) (hue spectra seed : Q) : FillStyle :=
  let angle := ((rng_nth 0 (mulberry32 seed) * 360) * (Math_PI / 180))%Q in
  let diag := Math_sqrt (width * width + height * height)%Q in
  let cx := (width / 2)%Q in
  let cy := (height / 2)%Q in
  let spread := (60 + (spectra / 100) * 120)%Q in
  LinearGradient
    (cx - Math_cos angle * diag * 0.5) (cy - Math_sin angle * diag * 0.5)
    (cx + Math_cos angle * diag * 0.5) (cy + Math_sin angle * diag * 0.5)
    [ (0%Q, hsl hue 100 40);
      (0.3%Q, hsl (JS.rem (hue + spread) 360) 100 50);
      (0.7%Q, hsl (JS.rem (hue - spread + 360) 360) 100 50);
      (1%Q, hsl hue 100 40) ].

Definition field_numOrbs (seed : Q) : Z :=
  6 + JS.floor (rng_nth 1 (mulberry32 seed) * 4).

Record Blob : Type := mkBlob {
  blob_x : Q;
  blob_y : Q;
  blob_r : Q;
  blob_hueOffset : Q     (* added to the base hue, then reduced modulo 360 *)
}.

Definition field_blob (width height : Z) (seed : Q) (i : nat) : Blob :=
  let u := fun k => rng_nth (2 + 4 * i + k) (mulberry32 seed) in
  mkBlob (u 0%nat * width) (u 1%nat * height)
    ((0.3 + u 2%nat * 0.5) * Z.min width height) (u 3%nat * 180).

(** One blob painted over the canvas [c]: a disc filled with a radial
    gradient from the blob's colour to transparent, composited with
    hard-light. *)
Definition paint_blob (s0 : DrawState) (hue : Q) (b : Blob) (c : Canvas) : Canvas :=
  Paint c
    (mkDrawState
       (RadialGradient (blob_x b) (blob_y b) 0 (blob_x b) (blob_y b) (blob_r b)
          [ (0%Q, hsla (JS.rem (hue + blob_hueOffset b) 360) 100 60 0.4);
            (1%Q, css "transparent") ])
       hard_light (filter s0) (imageSmoothingEnabled s0) (transform s0)
       (clipping s0))
    (Fill [Arc (transform s0) (blob_x b) (blob_y b) (blob_r b) 0 (Math_PI * 2)]).

(** The Glitch transform in terms of the samples of the seed's generator:
    slice [i] takes the samples [5i .. 5i + 4]. *)
Record Slice : Type := mkSlice {
  slice_h : Q;
  slice_y : Q;
  slice_xOff : Q;
  slice_black : bool;     (* the band is blacked out before the slice is drawn *)
  slice_flash : bool      (* the band is inverted after the slice is drawn *)
}.

Definition glitch_slice (width height : Z) (distortion seed : Q) (i : nat) : Slice :=
  let u := fun k => rng_nth (5 * i + k) (mulberry32 seed) in
  let h := (5 + u 0%nat * 100)%Q in
  mkSlice h (u 1%nat * (height - h))
    ((u 2%nat - 0.5) * (width * 0.4) * (distortion / 80))
    (JS.gt (u 3%nat) 0.8) (JS.gt (u 4%nat) 0.9).

(** One slice displacement: the band of height [slice_h] at row [slice_y]
    is read back and redrawn [slice_xOff] pixels to the right. *)
Definition displace_slice (width : Z) (s : Slice) (ctx : Ctx) : Ctx :=
  let band := getImageData (canvas ctx) 0 (slice_y s) width (slice_h s) in
  let ctx :=
    if slice_black s
    then Ctx2D.fillRect 0 (slice_y s) width (slice_h s)
           (Ctx2D.set_fillStyle (Colour (css "black")) ctx)
    else ctx in
  let sc := PutImageData (Blank width (slice_h s)) band 0 0 in
  let ctx := Ctx2D.drawImage sc (slice_xOff s) (slice_y s) ctx in
  if slice_flash s
  then Ctx2D.restore
         (Ctx2D.fillRect 0 (slice_y s) width (slice_h s)
            (Ctx2D.set_fillStyle (Colour (css "white"))
               (Ctx2D.set_globalCompositeOperation difference (Ctx2D.save ctx))))
  else ctx.

Definition glitch_slices (width height : Z) (distortion seed : Q) (n : nat)
    (ctx : Ctx) : Ctx :=
  fold_left
    (fun ctx i => displace_slice width (glitch_slice width height distortion seed i) ctx)
    (seq 0 n) ctx.

End FieldViews.

(** The accumulator after one run of the loop, and the band energies that
    run works with. *)
Definition tick_offset (frame : App.Frame) (app : App.App) : Q :=
  match App.audioSync (App.state app), App.analyserRef app with
  | true, Some _ =>
      let v := App.vol (App.analyse (App.frequencyData frame)) in
      if JS.gt v (JS.double 0.02)
      then (App.hueOffset (App.audioAccumulatorRef app) + v * 4)%Q
      else App.hueOffset (App.audioAccumulatorRef app)
  | _, _ => App.hueOffset (App.audioAccumulatorRef app)
  end.

Definition heard (frame : App.Frame) (app : App.App) : App.Bands :=
  match App.audioSync (App.state app), App.analyserRef app with
  | true, Some _ => App.analyse (App.frequencyData frame)
  | _, _ => App.silent
  end.

(** The hue on screen in chroma mode: the element is painted in the
    persisted hue, and the [hue-rotate] of its filter turns what is painted
    by that many degrees. *)
Definition hue_rotation (s : App.Style) : Q :=
  match App.style_filter s with
  | App.css_none => 0
  | App.css_hue_saturate_brightness hueRotateDeg _ _ => hueRotateDeg
  end.


(** ** Worked examples *)

(** A host to run the engine on concrete inputs.  The properties below hold
    for every host; this one reads back the last image put on a canvas
    (transparent black otherwise) and uses coarse rational stand-ins for the
    functions of [Math] (saw-tooth waves for the sine and the cosine, the
    integer square root, a constant angle). *)
Module Demo.

#[local] Instance math : MathHost := {|
  Math_PI := 3.14159;
  Math_sin := fun x => (2 * (x / 6 - inject_Z (Qfloor (x / 6))) - 1)%Q;
  Math_cos := fun x => (1 - 2 * (x / 6 - inject_Z (Qfloor (x / 6))))%Q;
  Math_sqrt := fun x => inject_Z (Z.sqrt (Qfloor x));
  Math_atan2 := fun y x => 0%Q
|}.

#[local] Instance host : CanvasHost := {|
  getImageData := fun c sx sy sw sh =>
    match c with
    | PutImageData _ img _ _ => img
    | _ => createImageData (Qfloor sw) (Qfloor sh)
    end
|}.

(** A 2 by 2 image: red, green, blue and a half-transparent white. *)
Definition image : ImageData :=
  mkImageData 2 2
    [ 255; 0; 0; 255;   0; 255; 0; 255;
      0; 0; 255; 255;   255; 255; 255; 128 ].

Definition ctx : Ctx := Ctx2D.putImageData image 0 0 (createCanvas 2 2).

(** The component as it starts (the initial values of [useState]), in flux
    mode with a 4 by 4 canvas, and listening with 725 degrees accumulated
    (more than two turns). *)
Definition state : App.State :=
  App.mkState App.flux 280 240 210 50 50 30 60 12345 wave false 50
    (Some (4%Q, 4%Q)) true.

Definition listening : App.App :=
  App.mkApp state (Some App.an_AudioContext) (Some App.an_AnalyserNode)
    (App.mkAccumulator 725) (Some (App.mkCanvasElement 4 4)) None.

(** A loud frame (every bin at 128) and a silent one. *)
Definition loud : App.Frame :=
  App.mkFrame (replicate 1024 Byte.x80) 1 true.

Definition quiet : App.Frame :=
  App.mkFrame (replicate 1024 Byte.x00) 1 true.

(** A faint frame: the bins of the bass band add up to 1, those of the mid
    band to 352 and those of the high band to 2160. *)
Definition faint : App.Frame :=
  App.mkFrame
    ([Byte.x01] ++ replicate 19 Byte.x00
     ++ [Byte.xff; Byte.x61] ++ replicate 78 Byte.x00
     ++ replicate 8 Byte.xff ++ [Byte.x78] ++ replicate 915 Byte.x00)
    1 true.

End Demo.

(** ** Further views of the engine *)

(** The strokes a canvas has received, oldest first. *)
Inductive Stroke : Type :=
  | painted (s : DrawState) (op : DrawOp)
  | put (img : ImageData) (dx dy : Q).

Fixpoint history (c : Canvas) : list Stroke :=
  match c with
  | Blank _ _ => []
  | Paint under s op => history under ++ [painted s op]
  | PutImageData under img dx dy => history under ++ [put img dx dy]
  end.

(** The part of a context that [save()] and [restore()] bracket and that no
    renderer is meant to leave changed: the stack of saved states, the
    transformation, the clipping region and the filter. *)
Definition frame (ctx : Ctx) : list DrawState * list Transform * list Path * Filter :=
  (stack ctx, transform (state ctx), clipping (state ctx), filter (state ctx)).

(** [Math.round]: to the nearest integer, halves upwards. *)
Definition Math_round (x : Q) : Z := Qfloor (x + 0.5).

(** A stage keeps the context when the frame and the smoothing flag are
    after it what they were before; it settles when, entered in source-over,
    it ends in source-over. *)
Definition keeps (f : Ctx -> Ctx) : Prop :=
  forall ctx : Ctx,
    frame (f ctx) = frame ctx
    /\ imageSmoothingEnabled (state (f ctx)) = imageSmoothingEnabled (state ctx).

Definition settles (f : Ctx -> Ctx) : Prop :=
  forall ctx : Ctx,
    globalCompositeOperation (state ctx) = source_over ->
    globalCompositeOperation (state (f ctx)) = source_over.

Definition tidy (f : Ctx -> Ctx) : Prop := keeps f /\ settles f.

(** A drawing state with one field replaced. *)
Definition with_fill (v : FillStyle) (s : DrawState) : DrawState :=
  mkDrawState v (globalCompositeOperation s) (filter s)
    (imageSmoothingEnabled s) (transform s) (clipping s).

Definition with_filter (v : Filter) (s : DrawState) : DrawState :=
  mkDrawState (fillStyle s) (globalCompositeOperation s) v
    (imageSmoothingEnabled s) (transform s) (clipping s).

Definition with_smoothing (v : bool) (s : DrawState) : DrawState :=
  mkDrawState (fillStyle s) (globalCompositeOperation s) (filter s) v
    (transform s) (clipping s).

(** The block size of [renderPixelate]. *)
Definition pixelate_blockSize (distortion scale : Q) : Q :=
  JS.max 4
    (JS.add (JS.add 4 (JS.mul (JS.div (JS.sub 100 scale) 100) 40))
       (JS.mul (JS.div distortion 100) 20)).



Definition scanline_tile (lineSize : Z) (intensity : Q) : Canvas :=
  Paint
    (Paint (Blank 1 (lineSize * 2))
       (with_fill (Colour (rgba 0 0 0 0)) initial_state)
       (FillRect 0 0 1 lineSize))
    (with_fill (Colour (rgba 0 0 0 intensity)) initial_state)
    (FillRect 0 lineSize 1 lineSize).

Section KaleidoViews.
Context {M : MathHost}.

(** The wedges of [renderKaleidoscope]. *)
Definition kaleido_segments (scale : Q) : Z :=
  4 + JS.floor (JS.mul (JS.div scale 100) 12).

(** Wedge [i]: the copy [temp] of the canvas drawn through a sector about
    the centre; the sector is turned by [i] steps, and the copy is mirrored
    in the wedges of odd index. *)
Definition kaleido_wedge (s0 : DrawState) (width height : Z)
    (distortion scale : Q) (temp : Canvas) (i : Z) : Stroke :=
  let angleStep := ((Math_PI * 2) / kaleido_segments scale)%Q in
  let cx := (width / 2)%Q in
  let cy := (height / 2)%Q in
  let radius := Math_sqrt (cx * cx + cy * cy) in
  let rotOffset := ((distortion / 100) * Math_PI)%Q in
  let turned := transform s0 ++ [Translate cx cy; Rotate (i * angleStep + rotOffset)] in
  let sector :=
    [ MoveTo turned 0 0;
      Arc turned 0 0 radius (- angleStep / 2 - 0.01) (angleStep / 2 + 0.01);
      ClosePath ] in
  let mirrored := if Z.rem i 2 =? 1 then [Scale (-1) 1] else [] in
  painted
    (mkDrawState (Colour (css "#000")) (globalCompositeOperation s0) (filter s0)
       (imageSmoothingEnabled s0)
       (turned ++ mirrored ++ [Rotate (- Math_PI / 2); Translate (- cx) (- cy)])
       (clipping s0 ++ [sector]))
    (DrawImage temp 0 0).

End KaleidoViews.

(** The tile of [renderLinearMoire]: a canvas set to [2 den] by [2 den]
    whose left half is painted with the given hue. *)
Definition moire_den (scale : Q) : Q := JS.max 3 (30 - (scale / 100) * 25).

Definition moire_tile (den hue : Q) : Canvas :=
  Paint (Blank (den * 2) (den * 2))
    (with_fill (Colour (hsl hue 100 50)) initial_state)
    (FillRect 0 0 den (den * 2)).

(** ** The handlers of the component ([src/unnamed/part_005]) *)

Module Handlers.

(** [arr.indexOf(x)], which is -1 when [x] is not in the array, and
    [arr[i]] for an integer [i], which is [undefined] ([None]) outside the
    array. *)
Fixpoint indexOf_from {A : Type} (eqb : A -> A -> bool) (arr : list A) (x : A)
    (i : Z) : Z :=
  match arr with
  | [] => -1
  | y :: rest => if eqb y x then i else indexOf_from eqb rest x (i + 1)
  end.

Definition indexOf {A : Type} (eqb : A -> A -> bool) (arr : list A) (x : A) : Z :=
  indexOf_from eqb arr x 0.

Definition item {A : Type} (arr : list A) (i : Z) : option A :=
  if i <? 0 then None else arr !! Z.to_nat i.

Definition FLUX_PATTERNS : list FluxPattern :=
  [wave; interference; ripple; prism; turbulence; glitch; kaleido; pixelate;
   scanline; vortex].

Definition FluxPattern_eqb (p q : FluxPattern) : bool :=
  match p, q with
  | wave, wave | interference, interference | ripple, ripple | prism, prism
  | turbulence, turbulence | glitch, glitch | kaleido, kaleido
  | pixelate, pixelate | scanline, scanline | vortex, vortex => true
  | _, _ => false
  end.

Definition BLEND_MODES : list string :=
  ["overlay"; "soft-light"; "multiply"; "screen"; "difference"]%string.

(** The values [cycleFluxPattern] and [cycleBlendMode] hand to their
    setters. *)
Definition cycleFluxPattern (prev : FluxPattern) : option FluxPattern :=
  item FLUX_PATTERNS
    (Z.rem (indexOf FluxPattern_eqb FLUX_PATTERNS prev + 1)
       (Z.of_nat (length FLUX_PATTERNS))).

Definition cycleBlendMode (blendMode : string) : option string :=
  let currentIndex := indexOf String.eqb BLEND_MODES blendMode in
  item BLEND_MODES (Z.rem (currentIndex + 1) (Z.of_nat (length BLEND_MODES))).

(** [handleRandomize].  [random n] is the result of the [n]-th call of
    [Math.random()] the handler makes; the result holds the values handed to
    the setters. *)
Inductive GradientType : Type := gradient_none | gradient_linear | gradient_radial.

Record ChromaValues : Type := mkChromaValues {
  set_hue : Z;
  set_sat : Z;
  set_lum : Z;
  set_hueB : Z;
  set_satB : Z;
  set_lumB : Z;
  set_gradientType : GradientType;
  set_gradientAngle : Z;
  set_noise : Z;
  set_fineGrain : Z;
  set_vignette : Z;
  set_noiseFreq : Q
}.

Record FluxValues : Type := mkFluxValues {
  set_fluxHue : Z;
  set_fluxSpectra : Z;
  set_fluxExposure : Z;
  set_fluxDistortion : Z;
  set_fluxGrain : Z;
  set_fluxFineGrain : Z;
  set_fluxIso : Z;
  set_fluxSeed : Z;
  set_fluxPattern : option FluxPattern
}.

Definition handleRandomize (random : nat -> Q) (systemMode : App.SystemMode)
    : ChromaValues + FluxValues :=
  match systemMode with
  | App.chroma =>
      let hue := JS.floor (random 0%nat * 360) in
      let sat := JS.floor (random 1%nat * 80) + 10 in
      let lum := JS.floor (random 2%nat * 60) + 20 in
      let hueB := JS.floor (random 3%nat * 360) in
      let satB := JS.floor (random 4%nat * 80) + 10 in
      let lumB := JS.floor (random 5%nat * 60) + 20 in
      let '(gradientType, n) :=
        if JS.gt (random 6%nat) 0.6
        then (if JS.gt (random 7%nat) 0.5 then gradient_linear else gradient_radial,
              8%nat)
        else (gradient_none, 7%nat) in
      let gradientAngle := JS.floor (random n * 360) in
      let noise := JS.floor (random (n + 1)%nat * 20) in
      let fineGrain := JS.floor (random (n + 2)%nat * 20) in
      let vignette := JS.floor (random (n + 3)%nat * 40) in
      let noiseFreq := (0.3 + random (n + 4)%nat * 1.5)%Q in
      inl (mkChromaValues hue sat lum hueB satB lumB gradientType gradientAngle
             noise fineGrain vignette noiseFreq)
  | App.flux =>
      let fluxHue := JS.floor (random 0%nat * 360) in
      let fluxSpectra := JS.floor (random 1%nat * 100) in
      let fluxExposure := JS.floor (random 2%nat * 100) in
      let fluxDistortion := JS.floor (random 3%nat * 100) in
      let fluxGrain := JS.floor (random 4%nat * 60) + 10 in
      let fluxFineGrain := JS.floor (random 5%nat * 30) in
      let fluxIso := JS.floor (random 6%nat * 100) in
      let fluxSeed := JS.floor (random 7%nat * 100000) in
      let fluxPattern :=
        item FLUX_PATTERNS
          (JS.floor (random 8%nat * Z.of_nat (length FLUX_PATTERNS))) in
      inr (mkFluxValues fluxHue fluxSpectra fluxExposure fluxDistortion
             fluxGrain fluxFineGrain fluxIso fluxSeed fluxPattern)
  end.


(** [renderStaticFlux]: the rendering of the settings as they are, which
    the component requests when a setting changes while audio sync is off. *)
Definition renderStaticFlux (frame : App.Frame) (app : App.App)
    : App.App * option App.FluxCall :=
  let state := App.state app in
  match App.systemMode state, App.fluxCanvasRef app, App.activeCanvasDims state with
  | App.flux, Some canvas, Some (w, h) =>
      let dpr :=
        if Qeq_bool (App.devicePixelRatio frame) 0 then 1%Q
        else App.devicePixelRatio frame in
      let targetW := JS.floor (JS.mul w dpr) in
      let targetH := JS.floor (JS.mul h dpr) in
      let canvas :=
        if negb (App.canvas_width canvas =? targetW)
           || negb (App.canvas_height canvas =? targetH)
        then App.mkCanvasElement targetW targetH
        else canvas in
      let call :=
        if App.hasContext2d frame then
          Some (App.mkFluxCall (App.canvas_width canvas) (App.canvas_height canvas)
                  (App.fluxHue state) (App.fluxSpectra state)
                  (App.fluxExposure state) (App.fluxDistortion state)
                  (App.fluxIso state) (App.fluxSeed state) (App.fluxPattern state)
                  (App.fluxSmudgeActive state) (App.fluxSmudgeFactor state))
        else None in
      (App.mkApp state (App.audioContextRef app) (App.analyserRef app)
         (App.audioAccumulatorRef app) (Some canvas) (App.chromaRef app),
       call)
  | _, _, _ => (app, None)
  end.

End Handlers.

(** ** The slider and the knob ([src/unnamed/part_000]) *)

Module Slider.

Definition percentage (value min max : Q) : Q :=
  JS.min 100 (JS.max 0 (((value - min) / (max - min)) * 100)).

(** [handleInteract]: the value handed to [onChange], or [None] when the
    track is not mounted or the slider is disabled.  [rect_left] and
    [rect_width] are those of the track's bounding rectangle.  (A track of
    width 0 makes [x / width] infinite or [NaN]; the division below is only
    meaningful for a track that has a width.) *)
Definition handleInteract (min max : Q) (trackRef : option (Q * Q))
    (disabled : bool) (clientX : Q) : option Z :=
  match trackRef with
  | None => None
  | Some (rect_left, rect_width) =>
      if disabled then None
      else
        let x := (clientX - rect_left)%Q in
        let width := rect_width in
        let newPercent := (x / width)%Q in
        let newPercent := JS.max 0 (JS.min 1 newPercent) in
        let newValue := Math_round (min + newPercent * (max - min)) in
        Some newValue
  end.

End Slider.

Module Knob.



End Knob.

(** The pattern, or the blend mode, after [k] presses of the button. *)
Definition pattern_after (k : nat) (p : FluxPattern) : option FluxPattern :=
  Nat.iter k
    (fun o => match o with Some q => Handlers.cycleFluxPattern q | None => None end)
    (Some p).

Definition blend_after (k : nat) (m : string) : option string :=
  Nat.iter k
    (fun o => match o with Some q => Handlers.cycleBlendMode q | None => None end)
    (Some m).

(** Two calls of the engine that draw the same picture: the same arguments,
    numbers being compared as numbers. *)
Definition same_picture (c c' : App.FluxCall) : Prop :=
  App.call_width c = App.call_width c'
  /\ App.call_height c = App.call_height c'
  /\ App.call_hue c == App.call_hue c'
  /\ App.call_spectra c == App.call_spectra c'
  /\ App.call_exposure c == App.call_exposure c'
  /\ App.call_distortion c == App.call_distortion c'
  /\ App.call_scale c == App.call_scale c'
  /\ App.call_seed c == App.call_seed c'
  /\ App.call_pattern c = App.call_pattern c'
  /\ App.call_smudgeActive c = App.call_smudgeActive c'
  /\ App.call_smudgeFactor c == App.call_smudgeFactor c'.

(** ** Colour utilities ([src/utils/colors.ts]) *)

From Stdlib Require Import Ascii HexadecimalString.

Module Colors.

(** [z.toString(16)] for an integer, [s.padStart(2, '0')] and
    [s.toUpperCase()] for a string of ASCII characters. *)
Definition toString16 (z : Z) : string :=
  NilZero.string_of_int (Z.to_hex_int z).

Fixpoint zeros (n : nat) : string :=
  match n with
  | O => EmptyString
  | S n' => String "0" (zeros n')
  end.

Definition padStart2 (s : string) : string :=
  (zeros (2 - String.length s) ++ s)%string.

Definition toUpperCase_char (c : ascii) : ascii :=
  let n := nat_of_ascii c in
  if (97 <=? n)%nat && (n <=? 122)%nat then ascii_of_nat (n - 32) else c.

Fixpoint toUpperCase (s : string) : string :=
  match s with
  | EmptyString => EmptyString
  | String c rest => String (toUpperCase_char c) (toUpperCase rest)
  end.

(** Every operation on the way to [Math.round] is a double; the remainder
    [%] of two doubles is exact. *)
Definition hslToHex (h s l : Q) : string :=
  let l := JS.div l 100 in
  let a := JS.div (JS.mul s (JS.min l (JS.sub 1 l))) 100 in
  let f := fun n : Q =>
    let k := JS.rem (JS.add n (JS.div h 30)) 12 in
    let color :=
      JS.sub l
        (JS.mul a (JS.max (JS.min (JS.min (JS.sub k 3) (JS.sub 9 k)) 1) (-1))) in
    padStart2 (toString16 (Math_round (JS.mul 255 color))) in
  toUpperCase ("#" ++ f 0%Q ++ f 8%Q ++ f 4%Q)%string.

Record Palette : Type := mkPalette {
  base : Color;
  genA : Color;
  genB : Color;
  accent : Color
}.

Definition generatePalette (h s l : Q) : Palette :=
  mkPalette
    (hsl h s l)
    (hsl (JS.rem (h + 30) 360) s (JS.max 10 (l - 20)))
    (hsl (JS.rem (h + 180) 360) (JS.max 0 (s - 20)) (JS.min 90 (l + 20)))
    (hsl (JS.rem (h - 30) 360) 100 60).

End Colors.

(** The channel [n] (0 for red, 8 for green, 4 for blue) of [hslToHex],
    before it is printed, and the two digits it is printed as. *)
Definition hex_channel (h s l n : Q) : Z :=
  let l := JS.div l 100 in
  let a := JS.div (JS.mul s (JS.min l (JS.sub 1 l))) 100 in
  let k := JS.rem (JS.add n (JS.div h 30)) 12 in
  Math_round
    (JS.mul 255
       (JS.sub l
          (JS.mul a (JS.max (JS.min (JS.min (JS.sub k 3) (JS.sub 9 k)) 1) (-1))))).

Definition hex2 (z : Z) : string :=
  Colors.toUpperCase (Colors.padStart2 (Colors.toString16 z)).

(** Two characters, each a digit or a letter from A to F. *)
Definition two_hex_digits (s : string) : bool :=
  match s with
  | String a (String b EmptyString) =>
      let hex := fun c : ascii =>
        let n := nat_of_ascii c in
        ((48 <=? n) && (n <=? 57) || (65 <=? n) && (n <=? 70))%nat in
      hex a && hex b
  | _ => false
  end.

(** * Properties *)

(** ** Rounding to double precision *)

Ltac qlra := unfold Qdiv in *; cbn [Qinv Qnum Qden] in *; lra.

Section Doubles.
Import JS.

Lemma pow2_pos (e : Z) : (0 < 2 ^ e)%Q.
Proof. apply Qpower_0_lt. reflexivity. Qed.

Lemma pow2_plus (a b : Z) : (2 ^ (a + b) == 2 ^ a * 2 ^ b)%Q.
Proof. apply Qpower_plus. discriminate. Qed.

Lemma pow2_le (a b : Z) : a <= b -> (2 ^ a <= 2 ^ b)%Q.
Proof. intros H. apply Qpower_le_compat_l; [exact H | discriminate]. Qed.

Lemma pow2_lt (a b : Z) : a < b -> (2 ^ a < 2 ^ b)%Q.
Proof. intros H. apply Qpower_lt_compat_l; [exact H | reflexivity]. Qed.

Lemma pow2_lt_inv (a b : Z) : (2 ^ a < 2 ^ b)%Q -> a < b.
Proof. intros H. apply (Qpower_lt_compat_l_inv 2); [exact H | reflexivity]. Qed.

Lemma pow2_Z (e : Z) : 0 <= e -> (2 ^ e == inject_Z (2 ^ e))%Q.
Proof. intros H. symmetry. apply (Zpower_Qpower 2 e H). Qed.

Lemma pow2_succ (e : Z) : (2 ^ (e + 1) == 2 * 2 ^ e)%Q.
Proof. rewrite pow2_plus. change (2 ^ 1)%Q with 2%Q. ring. Qed.

(** Dividing by a power of two. *)
Lemma scale_unscale (q : Q) (p : Z) : (q / 2 ^ p * 2 ^ p == q)%Q.
Proof. field. pose proof (pow2_pos p). lra. Qed.

Lemma scale_le (x y : Q) (p : Z) : (x <= y)%Q -> (x / 2 ^ p <= y / 2 ^ p)%Q.
Proof.
  intros H. unfold Qdiv. apply Qmult_le_compat_r; [exact H |].
  apply Qinv_le_0_compat. apply Qlt_le_weak, pow2_pos.
Qed.

Lemma scale_pow (a p : Z) : (2 ^ a / 2 ^ p == 2 ^ (a - p))%Q.
Proof. symmetry. apply Qpower_minus. discriminate. Qed.

(** *** The binade *)

Lemma binade_spec (q : Q) :
  (0 < q)%Q -> (2 ^ binade q <= q < 2 ^ (binade q + 1))%Q.
Proof.
  intros H. unfold binade.
  destruct q as [n d]. cbn [Qnum Qden].
  assert (Hn : 0 < n) by (unfold Qlt in H; cbn in H; lia).
  pose proof (Z.log2_spec n Hn) as [N1 N2].
  pose proof (Z.log2_spec (Z.pos d) ltac:(lia)) as [D1 D2].
  pose proof (Z.log2_nonneg n) as An. pose proof (Z.log2_nonneg (Z.pos d)) as Ad.
  set (a := Z.log2 n) in *. set (b := Z.log2 (Z.pos d)) in *.
  assert (Q1 : (inject_Z (2 ^ a) <= inject_Z n)%Q) by (rewrite <- Zle_Qle; exact N1).
  assert (Q2 : (inject_Z n < inject_Z (2 ^ Z.succ a))%Q) by (rewrite <- Zlt_Qlt; exact N2).
  assert (Q3 : (inject_Z (2 ^ b) <= inject_Z (Z.pos d))%Q) by (rewrite <- Zle_Qle; exact D1).
  assert (Q4 : (inject_Z (Z.pos d) < inject_Z (2 ^ Z.succ b))%Q) by (rewrite <- Zlt_Qlt; exact D2).
  rewrite <- !pow2_Z in Q1, Q2, Q3, Q4 by lia.
  assert (Dp : (0 < inject_Z (Z.pos d))%Q) by reflexivity.
  assert (E : (n # d == inject_Z n / inject_Z (Z.pos d))%Q) by apply Qmake_Qdiv.
  assert (U : (n # d < 2 ^ (a - b + 1))%Q).
  { rewrite E. apply Qlt_shift_div_r; [exact Dp |].
    apply Qlt_le_trans with (2 ^ Z.succ a)%Q; [exact Q2 |].
    replace (Z.succ a) with ((a - b + 1) + b) by lia.
    rewrite pow2_plus. apply Qmult_le_l; [apply pow2_pos | exact Q3]. }
  assert (L : (2 ^ (a - b - 1) < n # d)%Q).
  { rewrite E. apply Qlt_shift_div_l; [exact Dp |].
    apply Qlt_le_trans with (2 ^ a)%Q; [| exact Q1].
    replace a with ((a - b - 1) + Z.succ b) at 2 by lia.
    rewrite pow2_plus. apply Qmult_lt_l; [apply pow2_pos | exact Q4]. }
  destruct (Qle_bool (2 ^ (a - b)) (n # d)) eqn:B.
  - apply Qle_bool_iff in B. split; assumption.
  - assert (~ (2 ^ (a - b) <= n # d)%Q) by (rewrite <- Qle_bool_iff; congruence).
    replace (a - b - 1 + 1) with (a - b) by lia.
    split; [apply Qlt_le_weak; exact L | apply Qnot_le_lt; assumption].
Qed.

Lemma binade_unique (q : Q) (b : Z) :
  (2 ^ b <= q < 2 ^ (b + 1))%Q -> binade q = b.
Proof.
  intros [L U].
  assert (H : (0 < q)%Q) by (pose proof (pow2_pos b); lra).
  destruct (binade_spec q H) as [L' U'].
  assert (binade q < b + 1) by (apply pow2_lt_inv; lra).
  assert (b < binade q + 1) by (apply pow2_lt_inv; lra).
  lia.
Qed.

Lemma binade_comp (x y : Q) : (0 < x)%Q -> x == y -> binade x = binade y.
Proof.
  intros H E. symmetry. apply binade_unique. rewrite <- E. apply binade_spec, H.
Qed.

Lemma binade_mono (x y : Q) : (0 < x)%Q -> (x <= y)%Q -> binade x <= binade y.
Proof.
  intros H L.
  destruct (binade_spec x H) as [Lx Ux].
  destruct (binade_spec y ltac:(lra)) as [Ly Uy].
  assert (binade x < binade y + 1) by (apply pow2_lt_inv; lra).
  lia.
Qed.

(** *** Rounding to the nearest integer, ties to even *)

Lemma round_even_comp (x y : Q) : x == y -> round_even x = round_even y.
Proof.
  intros E. unfold round_even. rewrite (Qfloor_comp _ _ E).
  assert (C : ((x - inject_Z (Qfloor y) ?= 1 # 2) = (y - inject_Z (Qfloor y) ?= 1 # 2))%Q).
  { apply Qcompare_comp; [rewrite E; reflexivity | reflexivity]. }
  rewrite C. reflexivity.
Qed.

Lemma round_even_cases (m : Q) :
  round_even m = Qfloor m \/ round_even m = Qfloor m + 1.
Proof.
  unfold round_even. destruct (_ ?= _)%Q; [destruct (Z.even _) | |]; auto.
Qed.

Lemma round_even_near (m : Q) :
  (m - (1 # 2) <= inject_Z (round_even m) <= m + (1 # 2))%Q.
Proof.
  unfold round_even.
  pose proof (Qfloor_le m) as F1. pose proof (Qlt_floor m) as F2.
  rewrite inject_Z_plus in F2. change (inject_Z 1) with 1%Q in F2.
  destruct (m - inject_Z (Qfloor m) ?= 1 # 2)%Q eqn:C.
  - rewrite <- Qeq_alt in C.
    destruct (Z.even (Qfloor m)); [| rewrite inject_Z_plus; change (inject_Z 1) with 1%Q]; lra.
  - rewrite <- Qlt_alt in C. lra.
  - rewrite <- Qgt_alt in C. rewrite inject_Z_plus. change (inject_Z 1) with 1%Q. lra.
Qed.

Lemma round_even_Z (z : Z) : round_even (inject_Z z) = z.
Proof.
  unfold round_even. rewrite Qfloor_Z.
  assert (C : (inject_Z z - inject_Z z ?= 1 # 2)%Q = Lt).
  { rewrite <- Qlt_alt. generalize (inject_Z z). intros x. lra. }
  rewrite C. reflexivity.
Qed.

Lemma round_even_mono (x y : Q) : (x <= y)%Q -> round_even x <= round_even y.
Proof.
  intros H.
  pose proof (Qfloor_resp_le _ _ H) as F.
  destruct (Z.eq_dec (Qfloor x) (Qfloor y)) as [E | N].
  - unfold round_even. rewrite E.
    destruct (x - inject_Z (Qfloor y) ?= 1 # 2)%Q eqn:Cx;
      destruct (y - inject_Z (Qfloor y) ?= 1 # 2)%Q eqn:Cy;
      first [rewrite <- Qeq_alt in Cx | rewrite <- Qlt_alt in Cx | rewrite <- Qgt_alt in Cx];
      first [rewrite <- Qeq_alt in Cy | rewrite <- Qlt_alt in Cy | rewrite <- Qgt_alt in Cy];
      try (destruct (Z.even (Qfloor y))); try lia; exfalso; lra.
  - destruct (round_even_cases x) as [-> | ->], (round_even_cases y) as [-> | ->]; lia.
Qed.

Lemma round_even_nonneg (m : Q) : (0 <= m)%Q -> 0 <= round_even m.
Proof.
  intros H. rewrite <- (round_even_Z 0). apply round_even_mono. exact H.
Qed.

(** *** Rounding a positive number *)

Lemma double_pos_grid (q : Q) :
  double_pos q = (inject_Z (round_even (q / 2 ^ grid q)) * 2 ^ grid q)%Q.
Proof. reflexivity. Qed.

Lemma double_pos_comp (x y : Q) : (0 < x)%Q -> x == y -> double_pos x == double_pos y.
Proof.
  intros H E. rewrite !double_pos_grid. unfold grid.
  rewrite (binade_comp x y H E).
  rewrite (round_even_comp (x / 2 ^ Z.max (binade y - 52) (-1074))
             (y / 2 ^ Z.max (binade y - 52) (-1074))) by (rewrite E; reflexivity).
  reflexivity.
Qed.

Lemma double_pos_nonneg (q : Q) : (0 < q)%Q -> (0 <= double_pos q)%Q.
Proof.
  intros H. rewrite double_pos_grid.
  apply Qmult_le_0_compat; [| apply Qlt_le_weak, pow2_pos].
  change 0%Q with (inject_Z 0). rewrite <- Zle_Qle. apply round_even_nonneg.
  apply Qle_shift_div_l; [apply pow2_pos | lra].
Qed.

Lemma times_pow_le (a b : Z) (p : Z) :
  a <= b -> (inject_Z a * 2 ^ p <= inject_Z b * 2 ^ p)%Q.
Proof.
  intros H. apply Qmult_le_compat_r; [rewrite <- Zle_Qle; exact H |].
  apply Qlt_le_weak, pow2_pos.
Qed.

Lemma double_pos_mono (x y : Q) :
  (0 < x)%Q -> (x <= y)%Q -> (double_pos x <= double_pos y)%Q.
Proof.
  intros Hx L.
  assert (Hy : (0 < y)%Q) by lra.
  pose proof (binade_mono x y Hx L) as B.
  destruct (binade_spec x Hx) as [Lx Ux]. destruct (binade_spec y Hy) as [Ly Uy].
  rewrite !double_pos_grid.
  destruct (Z.eq_dec (grid x) (grid y)) as [E | N].
  - rewrite E. apply times_pow_le. apply round_even_mono. apply scale_le, L.
  - assert (G : grid x < grid y) by (unfold grid in *; lia).
    assert (Gy : grid y = binade y - 52) by (unfold grid in *; lia).
    assert (Bx : binade x + 1 <= binade y) by (unfold grid in *; lia).
    apply Qle_trans with (2 ^ binade y)%Q.
    + (* double_pos x <= 2 ^ binade y *)
      assert (K : 0 <= binade y - grid x) by (unfold grid in *; lia).
      assert (M : (x / 2 ^ grid x <= inject_Z (2 ^ (binade y - grid x)))%Q).
      { rewrite <- pow2_Z by exact K. rewrite <- scale_pow. apply scale_le.
        pose proof (pow2_le _ _ Bx). lra. }
      apply round_even_mono in M. rewrite round_even_Z in M.
      apply Qle_trans with (inject_Z (2 ^ (binade y - grid x)) * 2 ^ grid x)%Q;
        [apply times_pow_le, M |].
      rewrite <- pow2_Z by exact K. rewrite <- pow2_plus.
      replace (binade y - grid x + grid x) with (binade y) by lia. apply Qle_refl.
    + assert (M : (inject_Z (2 ^ 52) <= y / 2 ^ grid y)%Q).
      { rewrite <- pow2_Z by lia. rewrite Gy.
        replace 52 with (binade y - (binade y - 52)) at 1 by lia.
        rewrite <- scale_pow. apply scale_le, Ly. }
      apply round_even_mono in M. rewrite round_even_Z in M.
      apply Qle_trans with (inject_Z (2 ^ 52) * 2 ^ grid y)%Q;
        [| apply times_pow_le, M].
      rewrite <- pow2_Z by lia. rewrite <- pow2_plus, Gy.
      replace (52 + (binade y - 52)) with (binade y) by lia. apply Qle_refl.
Qed.

(** A number with at most 53 significant bits, not below the smallest
    exponent, is its own rounding. *)
Lemma double_pos_exact (m k : Z) :
  0 < m < 2 ^ 53 -> -1074 <= k ->
  double_pos (inject_Z m * 2 ^ k) == (inject_Z m * 2 ^ k)%Q.
Proof.
  intros [M0 M1] K.
  set (q := (inject_Z m * 2 ^ k)%Q).
  assert (Hq : (0 < q)%Q).
  { apply Qmult_lt_0_compat; [| apply pow2_pos].
    change 0%Q with (inject_Z 0). rewrite <- Zlt_Qlt. exact M0. }
  destruct (binade_spec q Hq) as [L U].
  assert (Up : (q < 2 ^ (53 + k))%Q).
  { unfold q. rewrite pow2_plus, (pow2_Z 53) by lia.
    apply Qmult_lt_compat_r; [apply pow2_pos | rewrite <- Zlt_Qlt; exact M1]. }
  assert (B : binade q < 53 + k) by (apply pow2_lt_inv; lra).
  assert (G : grid q <= k) by (unfold grid; lia).
  rewrite double_pos_grid.
  assert (E : (q / 2 ^ grid q == inject_Z (m * 2 ^ (k - grid q)))%Q).
  { rewrite inject_Z_mult, <- pow2_Z by lia. set (g := grid q). unfold q.
    rewrite <- scale_pow. field. pose proof (pow2_pos g). lra. }
  rewrite (round_even_comp _ _ E), round_even_Z, <- E.
  apply scale_unscale.
Qed.

Lemma double_pos_le_top (q : Q) :
  (0 < q)%Q -> round_even (q / 2 ^ grid q) <= 2 ^ 53.
Proof.
  intros H. destruct (binade_spec q H) as [L U].
  assert (M : (q / 2 ^ grid q <= inject_Z (2 ^ 53))%Q).
  { rewrite <- pow2_Z by lia.
    apply Qle_trans with (2 ^ (binade q + 1) / 2 ^ grid q)%Q;
      [apply scale_le; lra |].
    rewrite scale_pow. apply pow2_le. unfold grid. lia. }
  apply round_even_mono in M. rewrite round_even_Z in M. exact M.
Qed.

Lemma double_pos_error (q : Q) :
  (0 < q)%Q ->
  (q - (q * 2 ^ (-53) + 2 ^ (-1075)) <= double_pos q
   <= q + (q * 2 ^ (-53) + 2 ^ (-1075)))%Q.
Proof.
  intros H. destruct (binade_spec q H) as [L U].
  rewrite double_pos_grid.
  pose proof (round_even_near (q / 2 ^ grid q)) as [N1 N2].
  pose proof (pow2_pos (grid q)) as P.
  assert (E : (q / 2 ^ grid q * 2 ^ grid q == q)%Q) by apply scale_unscale.
  assert (Hf : (2 ^ grid q * (1 # 2) <= q * 2 ^ (-53) + 2 ^ (-1075))%Q).
  { assert (S : forall e, (2 ^ e * (1 # 2) == 2 ^ (e - 1))%Q).
    { intros e. replace (e - 1) with (e + -1) by lia. rewrite pow2_plus.
      reflexivity. }
    rewrite S.
    pose proof (pow2_pos (-1075)). pose proof (pow2_pos (-53)).
    destruct (Z.le_ge_cases (binade q - 52) (-1074)) as [C | C].
    - replace (grid q) with (-1074) by (unfold grid; lia).
      change (-1074 - 1) with (-1075).
      assert (0 <= q * 2 ^ (-53))%Q by (apply Qmult_le_0_compat; lra).
      lra.
    - replace (grid q) with (binade q - 52) by (unfold grid; lia).
      replace (binade q - 52 - 1) with (binade q + -53) by lia.
      rewrite pow2_plus.
      assert ((2 ^ binade q * 2 ^ (-53) <= q * 2 ^ (-53))%Q)
        by (apply Qmult_le_compat_r; lra).
      lra. }
  set (r := inject_Z (round_even (q / 2 ^ grid q))) in *.
  set (m := (q / 2 ^ grid q)%Q) in *.
  set (g := (2 ^ grid q)%Q) in *.
  set (bound := (q * 2 ^ (-53) + 2 ^ (-1075))%Q) in *.
  assert (A1 : ((m - (1 # 2)) * g <= r * g)%Q) by (apply Qmult_le_compat_r; lra).
  assert (A2 : (r * g <= (m + (1 # 2)) * g)%Q) by (apply Qmult_le_compat_r; lra).
  assert (B1 : ((m - (1 # 2)) * g == q - g * (1 # 2))%Q) by (rewrite <- E; ring).
  assert (B2 : ((m + (1 # 2)) * g == q + g * (1 # 2))%Q) by (rewrite <- E; ring).
  lra.
Qed.

(** *** Rounding *)

Global Instance double_comp : Proper (Qeq ==> Qeq) double.
Proof.
  intros x y E. unfold double.
  assert (C : (x ?= 0)%Q = (y ?= 0)%Q) by (apply Qcompare_comp; [exact E | reflexivity]).
  rewrite <- C. destruct (x ?= 0)%Q eqn:D.
  - reflexivity.
  - rewrite <- Qlt_alt in D.
    rewrite (double_pos_comp (- x) (- y)); [reflexivity | lra | rewrite E; reflexivity].
  - rewrite <- Qgt_alt in D. apply double_pos_comp; [lra | exact E].
Qed.

Lemma double_0 : double 0 = 0%Q.
Proof. reflexivity. Qed.

Lemma double_of_pos (q : Q) : (0 < q)%Q -> double q = double_pos q.
Proof. intros H. unfold double. rewrite Qgt_alt in H. rewrite H. reflexivity. Qed.

Lemma double_of_neg (q : Q) : (q < 0)%Q -> double q = (- double_pos (- q))%Q.
Proof. intros H. unfold double. rewrite Qlt_alt in H. rewrite H. reflexivity. Qed.

Lemma double_opp (q : Q) : double (- q) == - double q.
Proof.
  destruct (Q_dec q 0) as [[N | P] | Z0].
  - rewrite (double_of_pos (- q)) by lra. rewrite (double_of_neg q N). ring.
  - rewrite (double_of_neg (- q)) by lra. rewrite (double_of_pos q P).
    rewrite (double_pos_comp (- - q) q); [reflexivity | lra | ring].
  - rewrite Z0. reflexivity.
Qed.

Lemma double_nonneg (q : Q) : (0 <= q)%Q -> (0 <= double q)%Q.
Proof.
  intros H. destruct (Qlt_le_dec 0 q) as [P | Z0].
  - rewrite double_of_pos by exact P. apply double_pos_nonneg, P.
  - assert (E : q == 0) by lra. rewrite E. apply Qle_refl.
Qed.

Lemma double_mono (x y : Q) : (x <= y)%Q -> (double x <= double y)%Q.
Proof.
  intros H.
  destruct (Qlt_le_dec 0 x) as [Px | Nx].
  - rewrite !double_of_pos by lra. apply double_pos_mono; assumption.
  - destruct (Qlt_le_dec y 0) as [Ny | Py].
    + rewrite !double_of_neg by lra.
      apply Qopp_le_compat. apply double_pos_mono; lra.
    + apply Qle_trans with 0%Q.
      * assert (E : double x == - double (- x)) by (rewrite double_opp; ring).
        rewrite E. pose proof (double_nonneg (- x) ltac:(lra)). lra.
      * apply double_nonneg, Py.
Qed.

Lemma double_exact (m k : Z) :
  - 2 ^ 53 < m < 2 ^ 53 -> -1074 <= k ->
  double (inject_Z m * 2 ^ k) == (inject_Z m * 2 ^ k)%Q.
Proof.
  intros [M0 M1] K. pose proof (pow2_pos k) as P.
  destruct (Z.lt_trichotomy m 0) as [N | [-> | Pm]].
  - assert (E : (inject_Z m * 2 ^ k == - (inject_Z (- m) * 2 ^ k))%Q)
      by (rewrite inject_Z_opp; ring).
    rewrite E, double_opp.
    assert (Hp : (0 < inject_Z (- m) * 2 ^ k)%Q).
    { apply Qmult_lt_0_compat; [| exact P].
      change 0%Q with (inject_Z 0). rewrite <- Zlt_Qlt. lia. }
    rewrite (double_of_pos _ Hp), double_pos_exact by lia. reflexivity.
  - assert (E : (inject_Z 0 * 2 ^ k == 0)%Q) by ring. rewrite E. reflexivity.
  - assert (Hp : (0 < inject_Z m * 2 ^ k)%Q).
    { apply Qmult_lt_0_compat; [| exact P].
      change 0%Q with (inject_Z 0). rewrite <- Zlt_Qlt. lia. }
    rewrite (double_of_pos _ Hp). apply double_pos_exact; lia.
Qed.

Lemma double_Z (z : Z) : - 2 ^ 53 <= z <= 2 ^ 53 -> double (inject_Z z) == inject_Z z.
Proof.
  intros H.
  destruct (Z.eq_dec z (2 ^ 53)) as [-> | N1].
  { pose proof (double_exact (2 ^ 52) 1 ltac:(lia) ltac:(lia)) as E.
    assert (F : (inject_Z (2 ^ 52) * 2 ^ 1 == inject_Z (2 ^ 53))%Q) by reflexivity.
    rewrite F in E. exact E. }
  destruct (Z.eq_dec z (- 2 ^ 53)) as [-> | N2].
  { pose proof (double_exact (- 2 ^ 52) 1 ltac:(lia) ltac:(lia)) as E.
    assert (F : (inject_Z (- 2 ^ 52) * 2 ^ 1 == inject_Z (- 2 ^ 53))%Q) by reflexivity.
    rewrite F in E. exact E. }
  pose proof (double_exact z 0 ltac:(lia) ltac:(lia)) as E.
  assert (F : (inject_Z z * 2 ^ 0 == inject_Z z)%Q) by (change (2 ^ 0)%Q with 1%Q; ring).
  rewrite F in E. exact E.
Qed.

Lemma double_is_double (q : Q) : is_double (double q).
Proof.
  unfold is_double.
  assert (P : forall x, (0 < x)%Q -> double (double_pos x) == double_pos x).
  { intros x Hx. rewrite double_pos_grid.
    pose proof (double_pos_le_top x Hx) as T.
    assert (R0 : 0 <= round_even (x / 2 ^ grid x)).
    { apply round_even_nonneg. apply Qle_shift_div_l; [apply pow2_pos | lra]. }
    assert (G : -1074 <= grid x) by (unfold grid; lia).
    destruct (Z.eq_dec (round_even (x / 2 ^ grid x)) (2 ^ 53)) as [E | N].
    - rewrite E.
      assert (F : (inject_Z (2 ^ 53) * 2 ^ grid x
                   == inject_Z (2 ^ 52) * 2 ^ (grid x + 1))%Q).
      { rewrite pow2_succ. change (inject_Z (2 ^ 53)) with (2 * inject_Z (2 ^ 52))%Q.
        ring. }
      rewrite F. apply double_exact; lia.
    - apply double_exact; lia. }
  destruct (Q_dec q 0) as [[N | Pq] | Z0].
  - rewrite (double_of_neg q N), double_opp, P by lra. reflexivity.
  - rewrite (double_of_pos q Pq). apply P, Pq.
  - rewrite Z0. reflexivity.
Qed.

Lemma double_le (x a : Q) : is_double a -> (x <= a)%Q -> (double x <= a)%Q.
Proof.
  intros A H. unfold is_double in A.
  apply Qle_trans with (double a); [apply double_mono, H | rewrite A; apply Qle_refl].
Qed.

Lemma double_ge (x a : Q) : is_double a -> (a <= x)%Q -> (a <= double x)%Q.
Proof.
  intros A H. unfold is_double in A.
  apply Qle_trans with (double a); [rewrite A; apply Qle_refl | apply double_mono, H].
Qed.

Lemma is_double_Z (z : Z) : - 2 ^ 53 <= z <= 2 ^ 53 -> is_double (inject_Z z).
Proof. apply double_Z. Qed.

Lemma double_error (q : Q) :
  (q - (Qabs q * 2 ^ (-53) + 2 ^ (-1075)) <= double q
   <= q + (Qabs q * 2 ^ (-53) + 2 ^ (-1075)))%Q.
Proof.
  destruct (Q_dec q 0) as [[N | P] | Z0].
  - rewrite (double_of_neg q N).
    pose proof (double_pos_error (- q) ltac:(lra)) as [A B].
    rewrite (Qabs_neg q) by lra. lra.
  - rewrite (double_of_pos q P).
    pose proof (double_pos_error q P) as [A B].
    rewrite (Qabs_pos q) by lra. lra.
  - rewrite Z0. pose proof (pow2_pos (-1075)).
    change (Qabs 0) with 0%Q. change (double 0) with 0%Q.
    set (e := (2 ^ (-1075))%Q) in *. set (f := (2 ^ (-53))%Q). lra.
Qed.

Global Instance is_double_comp : Proper (Qeq ==> iff) is_double.
Proof. intros x y E. unfold is_double. rewrite E. reflexivity. Qed.

(** Dyadic numbers of at most 53 bits are doubles. *)
Lemma is_double_dyadic (m k : Z) :
  - 2 ^ 53 < m < 2 ^ 53 -> -1074 <= k -> is_double (inject_Z m * 2 ^ k).
Proof. apply double_exact. Qed.

(** Between two neighbours of a grid at least as fine as the one of their
    binade there is no double. *)
Lemma no_double_between (d : Q) (m p : Z) :
  is_double d -> 2 ^ 52 <= m -> -1074 <= p ->
  (inject_Z m * 2 ^ p < d)%Q -> (d < inject_Z (m + 1) * 2 ^ p)%Q -> False.
Proof.
  intros D M P L U. unfold is_double in D.
  assert (Hm : (2 ^ (52 + p) <= inject_Z m * 2 ^ p)%Q).
  { rewrite pow2_plus, (pow2_Z 52) by lia. apply times_pow_le. exact M. }
  assert (Hd : (0 < d)%Q) by (pose proof (pow2_pos (52 + p)); lra).
  assert (B : 52 + p <= binade d).
  { destruct (binade_spec d Hd) as [_ U'].
    assert (52 + p < binade d + 1) by (apply pow2_lt_inv; lra). lia. }
  assert (G : p <= grid d) by (unfold grid; lia).
  rewrite (double_of_pos d Hd), double_pos_grid in D.
  set (N := round_even (d / 2 ^ grid d)) in D.
  assert (E : (d == inject_Z (N * 2 ^ (grid d - p)) * 2 ^ p)%Q).
  { rewrite <- D at 1. rewrite inject_Z_mult, <- pow2_Z by lia.
    rewrite <- Qmult_assoc, <- pow2_plus.
    replace (grid d - p + p) with (grid d) by lia. reflexivity. }
  set (K := N * 2 ^ (grid d - p)) in E.
  pose proof (pow2_pos p) as Pp.
  assert (L' : (inject_Z m < inject_Z K)%Q).
  { apply (Qmult_lt_r _ _ (2 ^ p)%Q Pp). rewrite <- E. exact L. }
  assert (U' : (inject_Z K < inject_Z (m + 1))%Q).
  { apply (Qmult_lt_r _ _ (2 ^ p)%Q Pp). rewrite <- E. exact U. }
  rewrite <- Zlt_Qlt in L', U'. lia.
Qed.

End Doubles.

(** *** The rounded operations *)

Section Operations.

Lemma div_nonneg (x y : Q) : (0 <= x -> 0 < y -> 0 <= x / y)%Q.
Proof.
  intros Hx Hy. apply Qle_shift_div_l; [exact Hy |]. rewrite Qmult_0_l. exact Hx.
Qed.

Lemma JS_add_nonneg (x y : Q) : (0 <= x -> 0 <= y -> 0 <= JS.add x y)%Q.
Proof. intros Hx Hy. apply double_nonneg. lra. Qed.

Lemma JS_mul_nonneg (x y : Q) : (0 <= x -> 0 <= y -> 0 <= JS.mul x y)%Q.
Proof. intros Hx Hy. apply double_nonneg, Qmult_le_0_compat; assumption. Qed.

Lemma JS_div_nonneg (x y : Q) : (0 <= x -> 0 < y -> 0 <= JS.div x y)%Q.
Proof. intros Hx Hy. apply double_nonneg, div_nonneg; assumption. Qed.

(** A bound that is a double bounds the rounded result. *)
Lemma JS_div_le (x y a : Q) :
  JS.is_double a -> (0 < y)%Q -> (x <= a * y)%Q -> (JS.div x y <= a)%Q.
Proof.
  intros A Hy H. apply double_le; [exact A |].
  apply Qle_shift_div_r; assumption.
Qed.

Lemma JS_div_ge (x y a : Q) :
  JS.is_double a -> (0 < y)%Q -> (a * y <= x)%Q -> (a <= JS.div x y)%Q.
Proof.
  intros A Hy H. apply double_ge; [exact A |].
  apply Qle_shift_div_l; assumption.
Qed.

Lemma JS_add_le (x y a : Q) : JS.is_double a -> (x + y <= a)%Q -> (JS.add x y <= a)%Q.
Proof. intros A H. apply double_le; assumption. Qed.

Lemma JS_add_ge (x y a : Q) : JS.is_double a -> (a <= x + y)%Q -> (a <= JS.add x y)%Q.
Proof. intros A H. apply double_ge; assumption. Qed.

Lemma JS_sub_le (x y a : Q) : JS.is_double a -> (x - y <= a)%Q -> (JS.sub x y <= a)%Q.
Proof. intros A H. apply double_le; assumption. Qed.

Lemma JS_sub_ge (x y a : Q) : JS.is_double a -> (a <= x - y)%Q -> (a <= JS.sub x y)%Q.
Proof. intros A H. apply double_ge; assumption. Qed.

Lemma JS_mul_le (x y a : Q) : JS.is_double a -> (x * y <= a)%Q -> (JS.mul x y <= a)%Q.
Proof. intros A H. apply double_le; assumption. Qed.

Lemma JS_mul_ge (x y a : Q) : JS.is_double a -> (a <= x * y)%Q -> (a <= JS.mul x y)%Q.
Proof. intros A H. apply double_ge; assumption. Qed.

Global Instance JS_add_comp : Proper (Qeq ==> Qeq ==> Qeq) JS.add.
Proof. intros x x' Ex y y' Ey. unfold JS.add. rewrite Ex, Ey. reflexivity. Qed.

Global Instance JS_sub_comp : Proper (Qeq ==> Qeq ==> Qeq) JS.sub.
Proof. intros x x' Ex y y' Ey. unfold JS.sub. rewrite Ex, Ey. reflexivity. Qed.

Global Instance JS_mul_comp : Proper (Qeq ==> Qeq ==> Qeq) JS.mul.
Proof. intros x x' Ex y y' Ey. unfold JS.mul. rewrite Ex, Ey. reflexivity. Qed.

Global Instance JS_div_comp : Proper (Qeq ==> Qeq ==> Qeq) JS.div.
Proof. intros x x' Ex y y' Ey. unfold JS.div. rewrite Ex, Ey. reflexivity. Qed.

(** The results of the operations are doubles. *)
Lemma JS_add_is_double (x y : Q) : JS.is_double (JS.add x y).
Proof. apply double_is_double. Qed.

Lemma JS_sub_is_double (x y : Q) : JS.is_double (JS.sub x y).
Proof. apply double_is_double. Qed.

Lemma JS_mul_is_double (x y : Q) : JS.is_double (JS.mul x y).
Proof. apply double_is_double. Qed.

Lemma JS_div_is_double (x y : Q) : JS.is_double (JS.div x y).
Proof. apply double_is_double. Qed.

(** Up to 1024 in absolute value a number and its double differ by at most
    [2^-42]. *)
Lemma double_near (x : Q) :
  (-1024 <= x <= 1024)%Q ->
  (x - (1 # 4398046511104) <= JS.double x <= x + (1 # 4398046511104))%Q.
Proof.
  intros H. pose proof (double_error x) as [A B].
  assert (Ha : (Qabs x <= 1024)%Q) by (apply Qabs_Qle_condition; exact H).
  pose proof (Qabs_nonneg x) as Hn.
  assert (P : (Qabs x * 2 ^ (-53) <= 1024 * 2 ^ (-53))%Q).
  { apply Qmult_le_compat_r; [exact Ha | apply Qlt_le_weak, pow2_pos]. }
  pose proof (pow2_le (-1075) (-43) ltac:(lia)) as E1.
  assert (E2 : (1024 * 2 ^ (-53) == 1 # 8796093022208)%Q) by reflexivity.
  assert (E3 : (2 ^ (-43) == 1 # 8796093022208)%Q) by reflexivity.
  rewrite E2 in P. rewrite E3 in E1.
  set (e := (2 ^ (-1075))%Q) in *. set (p := (Qabs x * 2 ^ (-53))%Q) in *.
  lra.
Qed.

(** Dividing by a positive constant and multiplying by a non-negative one,
    as every percentage of the engine is scaled, is monotone. *)
Lemma scaled_mono (a b x y : Q) :
  (0 < a)%Q -> (0 <= b)%Q -> (x <= y)%Q ->
  (JS.mul (JS.div x a) b <= JS.mul (JS.div y a) b)%Q.
Proof.
  intros Ha Hb H. unfold JS.mul, JS.div.
  apply double_mono. apply Qmult_le_compat_r; [| exact Hb].
  apply double_mono. unfold Qdiv. apply Qmult_le_compat_r; [exact H |].
  apply Qinv_le_0_compat. lra.
Qed.

End Operations.

(** [is_double] of a literal integer. *)
Ltac dbl := apply is_double_Z; vm_compute; split; discriminate.

(** ** Rounding *)

Section Rounding.

Lemma Qfloor_unique (q : Q) (z : Z) :
  (inject_Z z <= q)%Q -> (q < inject_Z (z + 1))%Q -> Qfloor q = z.
Proof.
  intros L U.
  pose proof (Qfloor_le q) as F1. pose proof (Qlt_floor q) as F2.
  assert (A : (inject_Z z < inject_Z (Qfloor q + 1))%Q) by lra.
  assert (B : (inject_Z (Qfloor q) < inject_Z (z + 1))%Q) by lra.
  rewrite <- Zlt_Qlt in A, B. lia.
Qed.

Lemma Qfloor_plus_Z (q : Q) (k : Z) : Qfloor (q + inject_Z k) = Qfloor q + k.
Proof.
  apply Qfloor_unique.
  - rewrite inject_Z_plus. pose proof (Qfloor_le q). lra.
  - replace (Qfloor q + k + 1) with (Qfloor q + 1 + k) by lia.
    rewrite inject_Z_plus. pose proof (Qlt_floor q). lra.
Qed.

Lemma Qfloor_minus_Z (q : Q) (k : Z) : Qfloor (q - inject_Z k) = Qfloor q - k.
Proof.
  replace (Qfloor q - k) with (Qfloor q + - k) by lia.
  rewrite <- (Qfloor_plus_Z q (- k)). apply Qfloor_comp.
  rewrite inject_Z_opp. ring.
Qed.

Lemma floor_of_Z (q : Q) (z : Z) : q == inject_Z z -> JS.floor q = z.
Proof. intros E. unfold JS.floor. rewrite (Qfloor_comp _ _ E). apply Qfloor_Z. Qed.

Lemma floor_between (q : Q) (a b : Z) :
  (inject_Z a <= q <= inject_Z b)%Q -> a <= JS.floor q <= b.
Proof.
  intros [L U]. unfold JS.floor.
  pose proof (Qfloor_resp_le _ _ L) as A. pose proof (Qfloor_resp_le _ _ U) as B.
  rewrite Qfloor_Z in A, B. lia.
Qed.

(** [Math.round]: the nearest integer, a half going up. *)
Lemma Math_round_near (x : Q) :
  (x - 0.5 < inject_Z (Math_round x) <= x + 0.5)%Q.
Proof.
  unfold Math_round.
  pose proof (Qfloor_le (x + 0.5)) as F1. pose proof (Qlt_floor (x + 0.5)) as F2.
  rewrite inject_Z_plus in F2. change (inject_Z 1) with 1%Q in F2. lra.
Qed.

Lemma Math_round_between (x : Q) (a b : Z) :
  (inject_Z a <= x <= inject_Z b)%Q -> a <= Math_round x <= b.
Proof.
  intros [L U]. unfold Math_round.
  assert (A : (inject_Z a <= x + 0.5)%Q) by lra.
  apply Qfloor_resp_le in A. rewrite Qfloor_Z in A.
  split; [exact A |].
  assert (B : (x + 0.5 < inject_Z (b + 1))%Q).
  { rewrite inject_Z_plus. change (inject_Z 1) with 1%Q. lra. }
  pose proof (Qfloor_le (x + 0.5)) as F.
  assert (R : (inject_Z (Qfloor (x + 0.5)) < inject_Z (b + 1))%Q) by lra.
  rewrite <- Zlt_Qlt in R. lia.
Qed.

Lemma Math_round_Z (z : Z) : Math_round (inject_Z z) = z.
Proof.
  unfold Math_round. apply Qfloor_unique.
  - lra.
  - rewrite inject_Z_plus. change (inject_Z 1) with 1%Q. lra.
Qed.

End Rounding.
(** ** Lemmas on the 32-bit conversions *)

Section Wrap.
Import JS.

Lemma two32_pow : two32 = 2 ^ 32.
Proof. reflexivity. Qed.

Lemma wrapU_range z : 0 <= wrapU z < two32.
Proof. unfold wrapU. apply Z.mod_pos_bound. reflexivity. Qed.

Lemma wrapU_small z : 0 <= z < two32 -> wrapU z = z.
Proof. intros H. unfold wrapU. apply Z.mod_small. exact H. Qed.

Lemma wrapU_idem z : wrapU (wrapU z) = wrapU z.
Proof. apply wrapU_small, wrapU_range. Qed.

Lemma wrapU_wrapS z : wrapU (wrapS z) = wrapU z.
Proof.
  unfold wrapU, wrapS, two32.
  rewrite Zminus_mod, Zmod_mod, <- Zminus_mod.
  f_equal. lia.
Qed.

Lemma wrapU_land z : wrapU z = Z.land z (Z.ones 32).
Proof. unfold wrapU. rewrite two32_pow, Z.land_ones by lia. reflexivity. Qed.

Lemma wrapU_lxor a b : wrapU (Z.lxor a b) = Z.lxor (wrapU a) (wrapU b).
Proof.
  rewrite !wrapU_land. apply Z.bits_inj'. intros n Hn.
  rewrite !Z.lxor_spec, !Z.land_spec, !Z.lxor_spec.
  destruct (Z.testbit (Z.ones 32) n); rewrite ?andb_true_r, ?andb_false_r; reflexivity.
Qed.

Lemma wrapU_lor a b : wrapU (Z.lor a b) = Z.lor (wrapU a) (wrapU b).
Proof. rewrite !wrapU_land. apply Z.land_lor_distr_l. Qed.

Lemma wrapU_mul a b : wrapU (a * b) = wrapU (wrapU a * wrapU b).
Proof. unfold wrapU. rewrite <- Zmult_mod. reflexivity. Qed.

Lemma wrapU_add a b : wrapU (a + b) = wrapU (wrapU a + wrapU b).
Proof. unfold wrapU. rewrite <- Zplus_mod. reflexivity. Qed.

Lemma wrapU_add_r a b : wrapU (wrapU a + b) = wrapU (a + b).
Proof. unfold wrapU. rewrite Zplus_mod_idemp_l. reflexivity. Qed.

Lemma wrapU_add_l a b : wrapU (a + wrapU b) = wrapU (a + b).
Proof. unfold wrapU. rewrite Zplus_mod_idemp_r. reflexivity. Qed.

Lemma shiftr_range z k : 0 <= k -> 0 <= z < two32 -> 0 <= Z.shiftr z k < two32.
Proof.
  intros Hk [H0 H1]. rewrite Z.shiftr_div_pow2 by exact Hk.
  assert (0 < 2 ^ k) by (apply Z.pow_pos_nonneg; lia).
  split.
  - apply Z.div_pos; lia.
  - apply Z.le_lt_trans with z; [| exact H1].
    apply Z.div_le_upper_bound; nia.
Qed.

Lemma lxor_range a b :
  0 <= a < two32 -> 0 <= b < two32 -> 0 <= Z.lxor a b < two32.
Proof.
  intros Ha Hb.
  rewrite <- (wrapU_small a Ha), <- (wrapU_small b Hb), <- wrapU_lxor.
  apply wrapU_range.
Qed.

Global Instance trunc_comp : Proper (Qeq ==> eq) trunc.
Proof.
  intros x y E. unfold trunc.
  rewrite (Qfloor_comp _ _ E), (Qceiling_comp _ _ E).
  replace (Qle_bool 0 y) with (Qle_bool 0 x); [reflexivity |].
  destruct (Qle_bool 0 x) eqn:Hx, (Qle_bool 0 y) eqn:Hy; try reflexivity.
  - apply Qle_bool_iff in Hx. rewrite E in Hx. apply Qle_bool_iff in Hx. congruence.
  - apply Qle_bool_iff in Hy. rewrite <- E in Hy. apply Qle_bool_iff in Hy. congruence.
Qed.

Lemma trunc_Z z : trunc (inject_Z z) = z.
Proof. unfold trunc. rewrite Qfloor_Z, Qceiling_Z. destruct (Qle_bool _ _); reflexivity. Qed.

Lemma trunc_plus_Z a b : trunc (inject_Z a + inject_Z b) = a + b.
Proof. rewrite <- inject_Z_plus. apply trunc_Z. Qed.

Lemma ToUint32_Z z : ToUint32 (inject_Z z) = wrapU z.
Proof. unfold ToUint32. rewrite trunc_Z. reflexivity. Qed.

Lemma ToInt32_Z z : ToInt32 (inject_Z z) = wrapS z.
Proof. unfold ToInt32. rewrite trunc_Z. reflexivity. Qed.

Lemma ToUint32_bxor x y :
  ToUint32 (bxor x y) = Z.lxor (ToUint32 x) (ToUint32 y).
Proof.
  unfold bxor. rewrite ToUint32_Z, wrapU_lxor.
  unfold ToInt32, ToUint32. rewrite !wrapU_wrapS. reflexivity.
Qed.

Lemma ToUint32_bor x y :
  ToUint32 (bor x y) = Z.lor (ToUint32 x) (ToUint32 y).
Proof.
  unfold bor. rewrite ToUint32_Z, wrapU_lor.
  unfold ToInt32, ToUint32. rewrite !wrapU_wrapS. reflexivity.
Qed.

Lemma ToUint32_imul x y :
  ToUint32 (imul x y) = wrapU (ToUint32 x * ToUint32 y).
Proof.
  unfold imul. rewrite ToUint32_Z, wrapU_wrapS, wrapU_mul.
  unfold ToInt32, ToUint32. rewrite !wrapU_wrapS. reflexivity.
Qed.

Lemma ushr_Z x k :
  0 <= k < 32 -> ushr x (inject_Z k) = inject_Z (Z.shiftr (ToUint32 x) k).
Proof.
  intros Hk. unfold ushr. rewrite ToUint32_Z.
  rewrite (wrapU_small k) by (unfold two32; lia).
  rewrite Z.mod_small by lia. reflexivity.
Qed.

Lemma ToUint32_ushr x k :
  0 <= k < 32 -> ToUint32 (ushr x (inject_Z k)) = Z.shiftr (ToUint32 x) k.
Proof.
  intros Hk. rewrite ushr_Z by exact Hk. rewrite ToUint32_Z.
  apply wrapU_small, shiftr_range; [lia | apply wrapU_range].
Qed.

End Wrap.

(** ** The generator on known values *)

Example mulberry32_seed0 :
  map (fun n => Qred (rng_nth n (mulberry32 0) * inject_Z JS.two32)%Q) [0; 1; 2]%nat
  = [inject_Z 1144304738; inject_Z 1416247; inject_Z 958946056].
Proof. vm_compute. reflexivity. Qed.

Example mulberry32_seed12345 :
  Qred (rng_nth 3 (mulberry32 12345) * inject_Z JS.two32)%Q = inject_Z 3513001552.
Proof. vm_compute. reflexivity. Qed.

Example mulberry32_seed_neg :
  Qred (rng_nth 0 (mulberry32 (-7)) * inject_Z JS.two32)%Q = inject_Z 1860010037.
Proof. vm_compute. reflexivity. Qed.

(** ** The generator against its specification *)

Section Mulberry32.
Import JS.

Lemma ToUint32_imul_add p q x y :
  ToUint32 (imul p q + imul x y)
  = wrapU (ToUint32 (imul p q) + ToUint32 x * ToUint32 y).
Proof.
  unfold imul. unfold ToUint32 at 1 2. rewrite trunc_plus_Z, trunc_Z.
  set (A := wrapS (ToInt32 p * ToInt32 q)).
  assert (EB : wrapU (wrapS (ToInt32 x * ToInt32 y))
               = wrapU (ToUint32 x * ToUint32 y)).
  { rewrite wrapU_wrapS, wrapU_mul.
    unfold ToInt32, ToUint32. rewrite !wrapU_wrapS. reflexivity. }
  rewrite <- (wrapU_add_r A), <- (wrapU_add_l (wrapU A) (wrapS _)), EB.
  apply wrapU_add_l.
Qed.

(** The sample of one call only depends on the 32-bit reduction of the
    advanced state, through the mixing function of the specification. *)
Lemma rng_call_mix (g : Rng) :
  fst (rng_call g)
  = (inject_Z (Mulberry32Spec.mix (ToUint32 (JS.add g (inject_Z 0x6D2B79F5))))
     / inject_Z 4294967296)%Q.
Proof.
  unfold rng_call, Mulberry32Spec.mix. cbn [fst].
  f_equal.
  change 0%Q with (inject_Z 0). change 14%Q with (inject_Z 14).
  change 7%Q with (inject_Z 7). change 15%Q with (inject_Z 15).
  change 1%Q with (inject_Z 1). change 61%Q with (inject_Z 61).
  rewrite (ushr_Z _ 0) by lia. rewrite Z.shiftr_0_r.
  f_equal.
  set (a := JS.add g (inject_Z 0x6D2B79F5)).
  rewrite ToUint32_bxor, ToUint32_ushr by lia.
  set (t1 := imul (bxor a (ushr a (inject_Z 15))) (bor a (inject_Z 1))).
  assert (E1 : ToUint32 t1
               = (Z.lxor (ToUint32 a) (Z.shiftr (ToUint32 a) 15)
                  * Z.lor (ToUint32 a) 1) mod 2 ^ 32).
  { unfold t1. rewrite ToUint32_imul, ToUint32_bxor, ToUint32_bor.
    rewrite ToUint32_ushr by lia. rewrite ToUint32_Z. reflexivity. }
  set (t2 := bxor t1 _).
  assert (E2 : ToUint32 t2
               = Z.lxor (ToUint32 t1)
                   ((ToUint32 t1
                     + Z.lxor (ToUint32 t1) (Z.shiftr (ToUint32 t1) 7)
                       * Z.lor (ToUint32 t1) 61) mod 2 ^ 32)).
  { unfold t2. rewrite ToUint32_bxor. f_equal.
    unfold t1 at 1. rewrite ToUint32_imul_add. fold t1.
    rewrite ToUint32_bxor, ToUint32_bor, ToUint32_ushr by lia.
    rewrite ToUint32_Z. reflexivity. }
  rewrite E2, E1. reflexivity.
Qed.

Lemma mix_range s : 0 <= s < two32 -> 0 <= Mulberry32Spec.mix s < two32.
Proof.
  intros Hs. unfold Mulberry32Spec.mix.
  assert (M : forall z, 0 <= z mod 2 ^ 32 < two32) by (intros z; apply wrapU_range).
  apply lxor_range; [| apply shiftr_range; [lia |]]; apply lxor_range; auto.
Qed.

Lemma unit_interval_of_u32 m :
  0 <= m < two32 -> (0 <= inject_Z m / inject_Z 4294967296 < 1)%Q.
Proof.
  intros [H0 H1]. split.
  - apply Qle_shift_div_l; [reflexivity |].
    rewrite Qmult_0_l. change 0%Q with (inject_Z 0).
    rewrite <- Zle_Qle. exact H0.
  - apply Qlt_shift_div_r; [reflexivity |].
    rewrite Qmult_1_l. rewrite <- Zlt_Qlt. exact H1.
Qed.

(** Every sample lies in the unit interval, whatever the generator. *)
Lemma rng_call_range (g : Rng) : (0 <= fst (rng_call g) < 1)%Q.
Proof.
  rewrite rng_call_mix. apply unit_interval_of_u32, mix_range, wrapU_range.
Qed.

Lemma rng_nth_range n : forall g : Rng, (0 <= rng_nth n g < 1)%Q.
Proof.
  induction n as [| n IH]; intros g; cbn [rng_nth].
  - apply rng_call_range.
  - apply IH.
Qed.

Lemma rng_call_state (g : Rng) : snd (rng_call g) = JS.add g (inject_Z 0x6D2B79F5).
Proof. reflexivity. Qed.

(** While the variable [a] holds an integer of at most 53 bits the sum
    [a += 0x6D2B79F5] is exact. *)
Lemma rng_advance_exact (g : Rng) (z : Z) :
  g == inject_Z z -> - 2 ^ 53 <= z + 0x6D2B79F5 <= 2 ^ 53 ->
  JS.add g (inject_Z 0x6D2B79F5) == inject_Z (z + 0x6D2B79F5).
Proof.
  intros E R. unfold JS.add.
  assert (S : (g + inject_Z 0x6D2B79F5 == inject_Z (z + 0x6D2B79F5))%Q)
    by (rewrite E, inject_Z_plus; reflexivity).
  rewrite S. apply double_Z, R.
Qed.

(** Simulation: a generator whose variable [a] holds the integer [z] runs
    in step with the 32-bit generator in state [z mod 2^32], as long as [a]
    stays an integer of at most 53 bits. *)
Lemma rng_nth_sample n :
  forall (g : Rng) (z : Z),
    g == inject_Z z ->
    - 2 ^ 53 <= z -> z + (Z.of_nat n + 1) * 0x6D2B79F5 <= 2 ^ 53 ->
    rng_nth n g = Mulberry32Spec.sample n (wrapU z).
Proof.
  induction n as [| n IH]; intros g z E L U; cbn [rng_nth Mulberry32Spec.sample].
  - rewrite rng_call_mix. do 3 f_equal.
    unfold ToUint32. rewrite (rng_advance_exact g z E) by lia. rewrite trunc_Z.
    unfold Mulberry32Spec.advance. symmetry. apply wrapU_add_r.
  - rewrite rng_call_state.
    rewrite (IH _ (z + 0x6D2B79F5)).
    + f_equal. unfold Mulberry32Spec.advance. symmetry. apply wrapU_add_r.
    + apply rng_advance_exact; [exact E | lia].
    + lia.
    + lia.
Qed.

Lemma noise_range x y seed : (-1 <= noise x y seed < 1)%Q.
Proof.
  unfold noise.
  pose proof (rng_call_range
                (mulberry32 (JS.add (JS.add seed (JS.mul x 1341)) (JS.mul y 7231))))
    as [H0 H1].
  split; lra.
Qed.

End Mulberry32.

(** C9 (amended).  For an integer seed [s] with [-2^53 <= s] the outputs of
    [mulberry32] are those of the specified 32-bit mixing generator (state
    and products taken modulo 2^32, the result divided by 2^32) as long as
    the variable [a] stays within 53 bits, [s + (n+1) * 0x6D2B79F5 <= 2^53];
    every output lies in [0,1), whatever the seed; [noise x y seed] is one
    sample of the generator re-seeded with [seed + x*1341 + y*7231], computed
    in doubles, mapped to [-1,1). *)
Theorem mulberry32_meets_spec :
  (forall (seed : Z) (n : nat),
      - 2 ^ 53 <= seed ->
      seed + (Z.of_nat n + 1) * 0x6D2B79F5 <= 2 ^ 53 ->
      rng_nth n (mulberry32 (inject_Z seed))
      = Mulberry32Spec.sample n (Mulberry32Spec.seeded seed))
  /\ (forall (seed : Q) (n : nat), (0 <= rng_nth n (mulberry32 seed) < 1)%Q)
  /\ (forall x y seed : Q,
         noise x y seed
         = (fst (rng_call
                   (mulberry32
                      (JS.add (JS.add seed (JS.mul x 1341)) (JS.mul y 7231))))
            * 2 - 1)%Q
         /\ (-1 <= noise x y seed < 1)%Q).
Proof.
  split; [| split].
  - intros seed n L U. apply rng_nth_sample; [reflexivity | exact L | exact U].
  - intros seed n. apply rng_nth_range.
  - intros x y seed. split.
    + reflexivity.
    + apply noise_range.
Qed.

Lemma mulberry32_meets_spec_witness :
  rng_nth 3 (mulberry32 (inject_Z 12345))
  = Mulberry32Spec.sample 3 (Mulberry32Spec.seeded 12345).
Proof.
  apply (proj1 mulberry32_meets_spec 12345 3%nat); vm_compute; discriminate.
Defined.

(** C9 as stated fails: at the seed [2^53] the sum [a += 0x6D2B79F5] is
    rounded to an even number; the 32 low bits of the state are [1831565812]
    where the 32-bit generator is in state [1831565813], and the first
    outputs differ. *)
Lemma mulberry32_meets_spec_counterexample :
  snd (rng_call (mulberry32 (inject_Z (2 ^ 53)))) == inject_Z 9007201086306804
  /\ JS.ToUint32 (snd (rng_call (mulberry32 (inject_Z (2 ^ 53))))) = 1831565812
  /\ Mulberry32Spec.advance (Mulberry32Spec.seeded (2 ^ 53)) = 1831565813
  /\ Qeq_bool (rng_nth 0 (mulberry32 (inject_Z (2 ^ 53))))
       (Mulberry32Spec.sample 0 (Mulberry32Spec.seeded (2 ^ 53))) = false.
Proof. vm_compute. repeat split. Qed.

(** ** Counted loops and byte arrays *)

Section Loops.

Lemma for_loop_nat {St : Type} (n : Z) (body : Z -> St -> St) (s : St) :
  for_loop n body s
  = fold_left (fun acc i => body (Z.of_nat i) acc) (seq 0 (Z.to_nat n)) s.
Proof. reflexivity. Qed.

(** Invariant rule: [Inv i] holds before iteration [i]. *)
Lemma for_loop_ind {St : Type} (Inv : Z -> St -> Prop) (n : Z) (body : Z -> St -> St) (s : St) :
  Inv 0 s ->
  (forall i acc, 0 <= i < n -> Inv i acc -> Inv (i + 1) (body i acc)) ->
  Inv (Z.max 0 n) (for_loop n body s).
Proof.
  intros H0 Hstep. unfold for_loop.
  assert (G : forall k : nat, (k <= Z.to_nat n)%nat ->
              Inv (Z.of_nat k)
                (fold_left (fun acc i => body (Z.of_nat i) acc) (seq 0 k) s)).
  { induction k as [| k IH]; intros Hk.
    - exact H0.
    - rewrite seq_S, fold_left_app. cbn [fold_left Nat.add].
      replace (Z.of_nat (S k)) with (Z.of_nat k + 1) by lia.
      apply Hstep; [lia | apply IH; lia]. }
  replace (Z.max 0 n) with (Z.of_nat (Z.to_nat n)) by lia.
  apply G. lia.
Qed.

(** Bodies that agree on the range of the loop give the same result. *)
Lemma for_loop_ext {St : Type} (n : Z) (f g : Z -> St -> St) (s : St) :
  (forall i acc, 0 <= i < n -> f i acc = g i acc) ->
  for_loop n f s = for_loop n g s.
Proof.
  intros E.
  unfold for_loop.
  assert (G : forall k : nat, (k <= Z.to_nat n)%nat ->
              fold_left (fun acc i => f (Z.of_nat i) acc) (seq 0 k) s
              = fold_left (fun acc i => g (Z.of_nat i) acc) (seq 0 k) s).
  { induction k as [| k IH]; intros Hk; [reflexivity |].
    rewrite !seq_S, !fold_left_app. cbn [fold_left Nat.add].
    rewrite IH by lia. apply E. lia. }
  apply G. lia.
Qed.

Lemma for_loop_nonpos {St : Type} (n : Z) (body : Z -> St -> St) (s : St) :
  n <= 0 -> for_loop n body s = s.
Proof.
  intros Hn. unfold for_loop. replace (Z.to_nat n) with 0%nat by lia. reflexivity.
Qed.

End Loops.

Section Arrays.

Lemma length_aset (a : list Z) (i v : Z) : length (aset a i v) = length a.
Proof. unfold aset. destruct (i <? 0); [reflexivity | apply length_insert]. Qed.

Lemma aget_aset_eq (a : list Z) (i v : Z) :
  0 <= i < Z.of_nat (length a) -> aget (aset a i v) i = v.
Proof.
  intros Hi. unfold aget, aset.
  destruct (i <? 0) eqn:E; [lia |].
  rewrite list_lookup_insert_eq by lia. reflexivity.
Qed.

Lemma aget_aset_ne (a : list Z) (i j v : Z) :
  i <> j -> aget (aset a i v) j = aget a j.
Proof.
  intros Hij. unfold aget, aset.
  destruct (j <? 0) eqn:Ej; [reflexivity |].
  destruct (i <? 0) eqn:Ei; [reflexivity |].
  rewrite list_lookup_insert_ne by lia. reflexivity.
Qed.

(** Reads of an array after writes: one rewriting step. *)
Ltac aget_aset :=
  match goal with
  | |- context [aget (aset ?a ?i ?v) ?j] =>
      first [ rewrite (aget_aset_ne a i j v) by lia
            | rewrite (aget_aset_eq a i v) by (rewrite ?length_aset; lia) ]
  end.

Lemma length_write_pixel o idx p : length (write_pixel o idx p) = length o.
Proof. destruct p as [[[r g] b] a]. cbn. rewrite !length_aset. reflexivity. Qed.

Lemma pixel_at_write_same o idx p :
  0 <= idx -> idx + 3 < Z.of_nat (length o) ->
  pixel_at (write_pixel o idx p) idx = p.
Proof.
  intros H0 H1. destruct p as [[[r g] b] a]. unfold pixel_at, write_pixel.
  repeat aget_aset. reflexivity.
Qed.

Lemma pixel_at_write_other o idx idx' p :
  idx' + 3 < idx \/ idx + 3 < idx' ->
  pixel_at (write_pixel o idx p) idx' = pixel_at o idx'.
Proof.
  intros H. destruct p as [[[r g] b] a]. unfold pixel_at, write_pixel.
  repeat aget_aset. reflexivity.
Qed.

Lemma filled_step width f len o x y :
  0 <= x < width -> 0 <= y ->
  (y * width + x) * 4 + 3 < Z.of_nat len ->
  filled width f (y * width + x) len o ->
  filled width f (y * width + x + 1) len
    (write_pixel o ((y * width + x) * 4) (f x y)).
Proof.
  intros Hx Hy Hlen [Hl Hf]. split.
  - rewrite length_write_pixel. exact Hl.
  - intros x' y' Hx' Hy' Hlt.
    destruct (Z.eq_dec (y' * width + x') (y * width + x)) as [E | NE].
    + assert (y' = y) by nia. subst y'. assert (x' = x) by lia. subst x'.
      apply pixel_at_write_same; [nia | lia].
    + rewrite pixel_at_write_other by lia.
      apply Hf; [exact Hx' | exact Hy' | lia].
Qed.

Lemma pixel_loops_filled width height f o :
  0 <= width -> 0 <= height ->
  length o = Z.to_nat (width * height * 4) ->
  filled width f (height * width) (length o) (pixel_loops width height f o).
Proof.
  intros Hw Hh Hlen. unfold pixel_loops.
  pose proof (for_loop_ind
    (fun y acc => filled width f (y * width) (length o) acc) height) as L.
  rewrite Z.max_r in L by exact Hh. apply L; clear L.
  - split; [reflexivity |]. intros x y Hx Hy Hlt. nia.
  - intros y acc Hy Hacc.
    pose proof (for_loop_ind
      (fun x acc' => filled width f (y * width + x) (length o) acc') width) as L.
    rewrite Z.max_r in L by exact Hw.
    replace ((y + 1) * width) with (y * width + width) by lia.
    apply L; clear L.
    + rewrite Z.add_0_r. exact Hacc.
    + intros x acc' Hx Hacc'.
      rewrite Z.add_assoc. apply filled_step; try lia; [| exact Hacc'].
      rewrite Hlen. nia.
Qed.

(** The loops write every pixel, once, with the value [f] gives it. *)
Lemma pixel_loops_spec width height f o x y :
  length o = Z.to_nat (width * height * 4) ->
  0 <= x < width -> 0 <= y < height ->
  pixel_at (pixel_loops width height f o) ((y * width + x) * 4) = f x y.
Proof.
  intros Hlen Hx Hy.
  destruct (pixel_loops_filled width height f o) as [_ Hf]; [lia | lia | exact Hlen |].
  apply Hf; [exact Hx | lia | nia].
Qed.

Lemma length_pixel_loops width height f o :
  length (pixel_loops width height f o) = length o.
Proof.
  unfold pixel_loops.
  pose proof (for_loop_ind (fun _ (acc : list Z) => length acc = length o) height) as L.
  apply L; clear L; [reflexivity |].
  intros y acc _ Hacc.
  pose proof (for_loop_ind (fun _ (acc' : list Z) => length acc' = length o) width) as L.
  apply L; clear L; [exact Hacc |].
  intros x acc' _ Hacc'. rewrite length_write_pixel. exact Hacc'.
Qed.

Lemma length_createImageData width height :
  length (data (createImageData width height)) = Z.to_nat (width * height * 4).
Proof. cbn. apply length_replicate. Qed.

End Arrays.

(** ** The per-pixel transforms as pixel maps *)

Section Transforms.
Context {M : MathHost}.

Lemma renderLiquidWave_output_loops width height distortion scale seed d :
  renderLiquidWave_output width height distortion scale seed d
  = pixel_loops width height
      (wave_pixel width height distortion scale seed d)
      (data (createImageData width height)).
Proof. reflexivity. Qed.

Lemma renderFluidDisplacement_output_loops width height distortion scale seed d :
  renderFluidDisplacement_output width height distortion scale seed d
  = pixel_loops width height
      (fun x y => clamped_pixel width height d
                    (turbulence_source distortion scale seed x y))
      (data (createImageData width height)).
Proof. reflexivity. Qed.

Lemma renderGlassRefraction_output_loops width height distortion scale seed d :
  renderGlassRefraction_output width height distortion scale seed d
  = pixel_loops width height
      (fun x y => clamped_pixel width height d
                    (ripple_source distortion scale seed x y))
      (data (createImageData width height)).
Proof. reflexivity. Qed.

Lemma renderVortex_output_loops width height distortion scale d :
  renderVortex_output width height distortion scale d
  = pixel_loops width height
      (vortex_pixel width height distortion scale d)
      (data (createImageData width height)).
Proof.
  unfold renderVortex_output, pixel_loops.
  apply for_loop_ext. intros y o _.
  apply for_loop_ext. intros x o' _.
  unfold vortex_pixel, vortex_source. cbv zeta.
  match goal with
  | |- context [if ?c then _ else _] => destruct c
  end; reflexivity.
Qed.

End Transforms.

(** ** Edge policies *)

Section Edges.

Lemma getIdx_mirror width height xx yy :
  getIdx width height xx yy = (mirror height yy * width + mirror width xx) * 4.
Proof. reflexivity. Qed.

Lemma mirror_range n v : 1 <= n -> 0 <= mirror n v < n.
Proof.
  intros Hn. unfold mirror.
  destruct (v <? 0) eqn:Ev.
  - apply Z.ltb_lt in Ev.
    destruct (- v >=? n) eqn:E; [| lia].
    pose proof (Z.rem_bound_pos (- v) n ltac:(lia) ltac:(lia)). lia.
  - apply Z.ltb_ge in Ev.
    destruct (v >=? n) eqn:E; [| lia].
    pose proof (Z.rem_bound_pos v n ltac:(lia) ltac:(lia)). lia.
Qed.

Lemma mirror_inside n v : 0 <= v < n -> mirror n v = v.
Proof.
  intros H. unfold mirror.
  destruct (v <? 0) eqn:Ev; [lia |].
  destruct (v >=? n) eqn:E; lia.
Qed.

(** Just left of the buffer: the mirror image about coordinate 0. *)
Lemma mirror_below n v : - n < v < 0 -> mirror n v = - v.
Proof.
  intros H. unfold mirror.
  destruct (v <? 0) eqn:Ev; [| lia].
  destruct (- v >=? n) eqn:E; lia.
Qed.

(** Just right of the buffer: the mirror image about the far edge. *)
Lemma mirror_above n v : 1 <= n -> n <= v < 2 * n -> mirror n v = 2 * n - 1 - v.
Proof.
  intros Hn H. unfold mirror.
  destruct (v <? 0) eqn:Ev; [lia |].
  destruct (v >=? n) eqn:E; [| lia].
  assert (R : Z.rem v n = v - n).
  { symmetry. apply (Z.rem_unique v n 1); lia. }
  lia.
Qed.

(** From one buffer length on, on either side: the coordinate is counted
    back from the far edge, over and over. *)
Lemma mirror_wrap n v :
  1 <= n -> n <= Z.abs v -> mirror n v = n - 1 - Z.abs v mod n.
Proof.
  intros Hn H. unfold mirror.
  assert (E : (if v <? 0 then - v else v) = Z.abs v).
  { destruct (v <? 0) eqn:Ev; [apply Z.ltb_lt in Ev | apply Z.ltb_ge in Ev]; lia. }
  rewrite E.
  destruct (Z.abs v >=? n) eqn:G; [| lia].
  rewrite Z.rem_mod_nonneg by lia. lia.
Qed.

(** The reflection stays inside and does not see the two mirrors. *)
Lemma reflect_range n v : 1 <= n -> 0 <= reflect n v < n.
Proof.
  intros Hn. unfold reflect.
  pose proof (Z.mod_pos_bound v (2 * n - 1) ltac:(lia)) as B.
  destruct (v mod (2 * n - 1) <? n) eqn:E;
    [apply Z.ltb_lt in E | apply Z.ltb_ge in E]; lia.
Qed.

Lemma reflect_about_0 n v : 1 <= n -> reflect n (- v) = reflect n v.
Proof.
  intros Hn. unfold reflect.
  set (p := 2 * n - 1).
  pose proof (Z.mod_pos_bound v p ltac:(lia)) as B.
  destruct (Z.eq_dec (v mod p) 0) as [Z0 | N0].
  - assert (E : (- v) mod p = 0) by (apply Z.mod_opp_l_z; lia).
    rewrite E, Z0. reflexivity.
  - assert (E : (- v) mod p = p - v mod p) by (apply Z.mod_opp_l_nz; lia).
    rewrite E.
    destruct (p - v mod p <? n) eqn:E1, (v mod p <? n) eqn:E2;
      try apply Z.ltb_lt in E1; try apply Z.ltb_ge in E1;
      try apply Z.ltb_lt in E2; try apply Z.ltb_ge in E2; lia.
Qed.

Lemma reflect_about_far_edge n v :
  1 <= n -> reflect n (2 * n - 1 - v) = reflect n v.
Proof.
  intros Hn. rewrite <- (reflect_about_0 n v Hn). unfold reflect.
  replace (2 * n - 1 - v) with (- v + 1 * (2 * n - 1)) by lia.
  rewrite Z.mod_add by lia. reflexivity.
Qed.

(** Within one buffer length of the buffer [getIdx] reflects. *)
Lemma mirror_reflect n v : 1 <= n -> - n < v < 2 * n -> mirror n v = reflect n v.
Proof.
  intros Hn H.
  destruct (Z.lt_ge_cases v 0) as [Neg | Pos].
  - rewrite mirror_below by lia.
    rewrite <- (reflect_about_0 n v Hn). unfold reflect.
    rewrite Z.mod_small by lia.
    destruct (- v <? n) eqn:E; [reflexivity | apply Z.ltb_ge in E; lia].
  - destruct (Z.lt_ge_cases v n) as [In | Out].
    + rewrite mirror_inside by lia. unfold reflect.
      rewrite Z.mod_small by lia.
      destruct (v <? n) eqn:E; [reflexivity | apply Z.ltb_ge in E; lia].
    + rewrite mirror_above by lia.
      rewrite <- (reflect_about_far_edge n v Hn). unfold reflect.
      rewrite Z.mod_small by lia.
      destruct (2 * n - 1 - v <? n) eqn:E; [reflexivity | apply Z.ltb_ge in E; lia].
Qed.

Lemma clamp_range n v : 1 <= n -> 0 <= clamp n v < n.
Proof.
  intros Hn. unfold clamp.
  destruct (v <? 0) eqn:Ev.
  - destruct (0 >=? n) eqn:E; lia.
  - destruct (v >=? n) eqn:E; lia.
Qed.

Lemma clamp_spec n v :
  1 <= n ->
  (v < 0 -> clamp n v = 0)
  /\ (0 <= v < n -> clamp n v = v)
  /\ (n <= v -> clamp n v = n - 1).
Proof.
  intros Hn. unfold clamp.
  destruct (v <? 0) eqn:Ev.
  - destruct (0 >=? n) eqn:E; lia.
  - destruct (v >=? n) eqn:E; lia.
Qed.

Lemma pixel_index_of_coords width height x y (c : Z) :
  0 <= x < width -> 0 <= y < height -> 0 <= c <= 3 ->
  0 <= (y * width + x) * 4 + c < width * height * 4.
Proof. intros Hx Hy Hc. nia. Qed.

Lemma getIdx_in_bounds width height xx yy (c : Z) :
  1 <= width -> 1 <= height -> 0 <= c <= 3 ->
  0 <= getIdx width height xx yy + c < width * height * 4.
Proof.
  intros Hw Hh Hc. rewrite getIdx_mirror.
  apply pixel_index_of_coords; [apply mirror_range | apply mirror_range |]; assumption.
Qed.

End Edges.

(** C6 (amended).  On a buffer with at least one pixel, for every
    destination pixel: Wave reads its three channels at the indices [getIdx]
    gives, which takes each sampling coordinate [v] into the buffer: it is
    kept inside, mirrored about coordinate 0 for [-n < v < 0] and about the
    far edge for [n <= v < 2n], which is the reflection of every [v] within
    one buffer length of the buffer, and from one buffer length on, on
    either side, counted back from the far edge, [n - 1 - |v| mod n];
    Turbulence and Ripple read at the coordinates clamped to the nearest
    edge, and each index read lies inside the [width * height * 4] bytes of
    the buffer. *)
Theorem sampling_stays_inside_buffer {M : MathHost}
    (width height : Z) (distortion scale seed : Q) (d : list Z) (x y : Z) :
  1 <= width -> 1 <= height -> 0 <= x < width -> 0 <= y < height ->
  (* Wave: reflection *)
  (let '((rx, ry), (gx, gy), (bx, by_)) :=
     wave_sources width height distortion scale seed x y in
   let ri := getIdx width height rx ry in
   let gi := getIdx width height gx gy + 1 in
   let bi := getIdx width height bx by_ + 2 in
   pixel_at (renderLiquidWave_output width height distortion scale seed d)
     ((y * width + x) * 4)
   = (aget d ri, aget d gi, aget d bi, 255)
   /\ 0 <= ri < width * height * 4
   /\ 0 <= gi < width * height * 4
   /\ 0 <= bi < width * height * 4)
  /\ (forall xx yy,
        getIdx width height xx yy
        = (mirror height yy * width + mirror width xx) * 4)
  /\ (forall n v, 1 <= n ->
        0 <= mirror n v < n
        /\ (0 <= v < n -> mirror n v = v)
        /\ (- n < v < 0 -> mirror n v = - v)
        /\ (n <= v < 2 * n -> mirror n v = 2 * n - 1 - v)
        /\ (- n < v < 2 * n -> mirror n v = reflect n v)
        /\ (n <= Z.abs v -> mirror n v = n - 1 - Z.abs v mod n))
  (* Turbulence and Ripple: clamping *)
  /\ (let '(sx, sy) := turbulence_source distortion scale seed x y in
      let si := (clamp height sy * width + clamp width sx) * 4 in
      pixel_at (renderFluidDisplacement_output width height distortion scale seed d)
        ((y * width + x) * 4)
      = (aget d si, aget d (si + 1), aget d (si + 2), 255)
      /\ 0 <= si /\ si + 2 < width * height * 4)
  /\ (let '(sx, sy) := ripple_source distortion scale seed x y in
      let si := (clamp height sy * width + clamp width sx) * 4 in
      pixel_at (renderGlassRefraction_output width height distortion scale seed d)
        ((y * width + x) * 4)
      = (aget d si, aget d (si + 1), aget d (si + 2), 255)
      /\ 0 <= si /\ si + 2 < width * height * 4)
  /\ (forall n v, 1 <= n ->
        0 <= clamp n v < n
        /\ (v < 0 -> clamp n v = 0)
        /\ (0 <= v < n -> clamp n v = v)
        /\ (n <= v -> clamp n v = n - 1)).
Proof.
  intros Hw Hh Hx Hy.
  assert (Hlen : length (data (createImageData width height))
                 = Z.to_nat (width * height * 4))
    by apply length_createImageData.
  split; [| split; [| split; [| split; [| split]]]].
  - unfold wave_sources. cbv zeta.
    split; [| split; [| split]].
    + rewrite renderLiquidWave_output_loops.
      rewrite pixel_loops_spec by assumption. reflexivity.
    + pose proof (getIdx_in_bounds width height) as G.
      match goal with
      | |- 0 <= getIdx _ _ ?a ?b < _ => specialize (G a b 0); lia
      end.
    + apply getIdx_in_bounds; lia.
    + apply getIdx_in_bounds; lia.
  - intros xx yy. apply getIdx_mirror.
  - intros n v Hn. split; [apply mirror_range; exact Hn |].
    split; [apply mirror_inside |].
    split; [apply mirror_below |].
    split; [apply mirror_above; exact Hn |].
    split; [apply mirror_reflect; exact Hn | apply mirror_wrap; exact Hn].
  - unfold turbulence_source. cbv zeta.
    split.
    + rewrite renderFluidDisplacement_output_loops.
      rewrite pixel_loops_spec by assumption. reflexivity.
    + match goal with
      | |- context [clamp height ?a * width + clamp width ?b] =>
          pose proof (clamp_range height a Hh);
          pose proof (clamp_range width b Hw)
      end. nia.
  - unfold ripple_source. cbv zeta.
    split.
    + rewrite renderGlassRefraction_output_loops.
      rewrite pixel_loops_spec by assumption. reflexivity.
    + match goal with
      | |- context [clamp height ?a * width + clamp width ?b] =>
          pose proof (clamp_range height a Hh);
          pose proof (clamp_range width b Hw)
      end. nia.
  - intros n v Hn. split; [apply clamp_range; exact Hn |].
    apply clamp_spec. exact Hn.
Qed.

(** C6 as stated fails: beyond one buffer length [getIdx] does not reflect.
    On a buffer 5 wide the neighbouring coordinates 9 and 10 are read at the
    opposite edges, 0 and 4, and so are -9 and -10, where the reflection
    moves on by one pixel, to 0 and 1.  Wave reaches such coordinates: at
    distortion 30 the first pixel of the 2 by 2 image takes its red from
    column 3, its green from column 12 and its blue from column 21, all in
    row -6, and the green is read from column 1 where the reflection of
    column 12 is column 0. *)
Lemma sampling_stays_inside_buffer_counterexample :
  map (mirror 5) [8; 9; 10; 11] = [1; 0; 4; 3]
  /\ map (reflect 5) [8; 9; 10; 11] = [1; 0; 1; 2]
  /\ map (mirror 5) [-8; -9; -10; -11] = [1; 0; 4; 3]
  /\ map (reflect 5) [-8; -9; -10; -11] = [1; 0; 1; 2]
  /\ wave_sources (M := Demo.math) 2 2 30 60 12345 0 0
     = ((3, -6), (12, -6), (21, -6))
  /\ map (mirror 2) [3; 12; 21; -6] = [0; 1; 0; 1]
  /\ map (reflect 2) [3; 12; 21; -6] = [0; 0; 0; 0].
Proof. repeat split; vm_compute; reflexivity. Qed.

(** ** Comparisons of numbers *)

Section Comparisons.

Lemma JS_lt_true x y : JS.lt x y = true <-> (x < y)%Q.
Proof.
  unfold JS.lt. rewrite negb_true_iff.
  split.
  - intros E. apply Qnot_le_lt. intros L. apply Qle_bool_iff in L. congruence.
  - intros L. destruct (Qle_bool y x) eqn:E; [| reflexivity].
    apply Qle_bool_iff in E. exfalso. apply (Qlt_not_le _ _ L E).
Qed.

Lemma JS_lt_false x y : JS.lt x y = false <-> (y <= x)%Q.
Proof.
  unfold JS.lt. rewrite negb_false_iff. apply Qle_bool_iff.
Qed.

Lemma JS_gt_true x y : JS.gt x y = true <-> (y < x)%Q.
Proof. apply JS_lt_true. Qed.

Lemma JS_gt_false x y : JS.gt x y = false <-> (x <= y)%Q.
Proof. apply JS_lt_false. Qed.

Lemma JS_neq_false x y : JS.neq x y = false <-> x == y.
Proof. unfold JS.neq. rewrite negb_false_iff. apply Qeq_bool_iff. Qed.

Lemma JS_neq_true x y : JS.neq x y = true <-> ~ x == y.
Proof.
  unfold JS.neq. rewrite negb_true_iff. split.
  - intros E H. apply Qeq_bool_iff in H. congruence.
  - intros H. destruct (Qeq_bool x y) eqn:E; [| reflexivity].
    apply Qeq_bool_iff in E. contradiction.
Qed.

End Comparisons.

(** ** Opacity of the displaced images *)

Section Opaque.
Context {M : MathHost}.

Lemma pixel_loops_opaque width height f :
  (forall x y, snd (f x y) = 255) ->
  opaque (mkImageData width height
            (pixel_loops width height f (data (createImageData width height)))).
Proof.
  intros Hf. split; cbn [data img_width img_height].
  - rewrite length_pixel_loops. apply length_createImageData.
  - intros x y Hx Hy.
    pose proof (pixel_loops_spec width height f
                  (data (createImageData width height)) x y
                  (length_createImageData width height) Hx Hy) as P.
    apply (f_equal snd) in P. rewrite Hf in P. exact P.
Qed.

Lemma wave_output_opaque width height distortion scale seed d :
  opaque (mkImageData width height
            (renderLiquidWave_output width height distortion scale seed d)).
Proof.
  rewrite renderLiquidWave_output_loops. apply pixel_loops_opaque.
  intros x y. reflexivity.
Qed.

Lemma turbulence_output_opaque width height distortion scale seed d :
  opaque (mkImageData width height
            (renderFluidDisplacement_output width height distortion scale seed d)).
Proof.
  rewrite renderFluidDisplacement_output_loops. apply pixel_loops_opaque.
  intros x y. reflexivity.
Qed.

Lemma ripple_output_opaque width height distortion scale seed d :
  opaque (mkImageData width height
            (renderGlassRefraction_output width height distortion scale seed d)).
Proof.
  rewrite renderGlassRefraction_output_loops. apply pixel_loops_opaque.
  intros x y. reflexivity.
Qed.

Lemma vortex_output_opaque width height distortion scale d :
  opaque (mkImageData width height
            (renderVortex_output width height distortion scale d)).
Proof.
  rewrite renderVortex_output_loops. apply pixel_loops_opaque.
  intros x y. unfold vortex_pixel, vortex_source. cbv zeta.
  match goal with |- context [if ?c then _ else _] => destruct c end; reflexivity.
Qed.

End Opaque.

(** C10.  On a canvas with at least one pixel, Wave, Turbulence, Ripple,
    and Vortex when it is not skipped, replace the canvas by an image
    computed from the pixels read back, and that image has alpha 255 at every
    pixel whatever the bytes read. *)
Theorem displacement_transforms_write_opaque_pixels
    {M : MathHost} {C : CanvasHost}
    (ctx : Ctx) (width height : Z) (distortion scale seed : Q) :
  1 <= width -> 1 <= height ->
  let d := data (getImageData (canvas ctx) 0 0 width height) in
  (renderLiquidWave ctx width height distortion scale seed
   = Ctx2D.putImageData
       (mkImageData width height
          (renderLiquidWave_output width height distortion scale seed d)) 0 0 ctx
   /\ forall d', opaque (mkImageData width height
                   (renderLiquidWave_output width height distortion scale seed d')))
  /\ (renderFluidDisplacement ctx width height distortion scale seed
      = Ctx2D.putImageData
          (mkImageData width height
             (renderFluidDisplacement_output width height distortion scale seed d))
          0 0 ctx
      /\ forall d', opaque (mkImageData width height
                      (renderFluidDisplacement_output width height distortion scale seed d')))
  /\ (renderGlassRefraction ctx width height distortion scale seed
      = Ctx2D.putImageData
          (mkImageData width height
             (renderGlassRefraction_output width height distortion scale seed d))
          0 0 ctx
      /\ forall d', opaque (mkImageData width height
                      (renderGlassRefraction_output width height distortion scale seed d')))
  /\ ((5 <= distortion)%Q ->
      renderVortex ctx width height distortion scale
      = Ctx2D.putImageData
          (mkImageData width height
             (renderVortex_output width height distortion scale d)) 0 0 ctx)
  /\ (forall d', opaque (mkImageData width height
                   (renderVortex_output width height distortion scale d'))).
Proof.
  intros Hw Hh d.
  split; [split; [reflexivity | intros; apply wave_output_opaque] |].
  split; [split; [reflexivity | intros; apply turbulence_output_opaque] |].
  split; [split; [reflexivity | intros; apply ripple_output_opaque] |].
  split.
  - intros Hd. unfold renderVortex.
    apply JS_lt_false in Hd. rewrite Hd. reflexivity.
  - intros; apply vortex_output_opaque.
Qed.


(** ** Streams of samples *)

Section Streams.

Lemma rng_after_S n g : rng_after (S n) g = snd (rng_call (rng_after n g)).
Proof. reflexivity. Qed.

Lemma rng_nth_after n : forall g, rng_nth n g = fst (rng_call (rng_after n g)).
Proof.
  induction n as [| n IH]; intros g; [reflexivity |].
  cbn [rng_nth]. rewrite IH. f_equal. f_equal.
  clear IH. induction n as [| n IH]; [reflexivity |].
  rewrite rng_after_S, IH. reflexivity.
Qed.

(** Destructuring one call of a generator that has already been called [n]
    times. *)
Lemma rng_call_after n g :
  rng_call (rng_after n g) = (rng_nth n g, rng_after (S n) g).
Proof.
  rewrite rng_nth_after, rng_after_S. apply surjective_pairing.
Qed.

Lemma floor_times_range (u : Q) (k : Z) :
  0 < k -> (0 <= u < 1)%Q -> 0 <= JS.floor (u * k) <= k - 1.
Proof.
  intros Hk [H0 H1]. unfold JS.floor.
  assert (Kpos : (0 < inject_Z k)%Q).
  { change 0%Q with (inject_Z 0). rewrite <- Zlt_Qlt. exact Hk. }
  split.
  - change 0 with (Qfloor (inject_Z 0)) at 1. apply Qfloor_resp_le.
    change (inject_Z 0) with 0%Q. apply Qmult_le_0_compat; [exact H0 | apply Qlt_le_weak, Kpos].
  - assert (L : (u * k < k)%Q).
    { nra. }
    pose proof (Qfloor_le (u * k)) as F.
    assert (F' : (inject_Z (Qfloor (u * k)) < inject_Z k)%Q)
      by (eapply Qle_lt_trans; eassumption).
    rewrite <- Zlt_Qlt in F'. lia.
Qed.

End Streams.

(** ** The base field *)

Section BaseField.
Context {M : MathHost} {C : CanvasHost}.

(** The blob loop, unrolled [k] times from the state reached after the ramp. *)
Lemma orb_loop_unrolled (width height : Z) (hue seed : Q) (s0 : DrawState)
    (stk : list DrawState) (k : nat) :
  forall (c0 : Canvas) (fs0 : FillStyle) (p0 : Path),
  exists (fs : FillStyle) (p : Path),
    fold_left
      (fun acc i => drawPsychedelicField_orb width height hue (Z.of_nat i) acc)
      (seq 0 k)
      (mkCtx c0
         (mkDrawState fs0 hard_light (filter s0) (imageSmoothingEnabled s0)
            (transform s0) (clipping s0))
         p0 stk,
       rng_after 2 (mulberry32 seed))
    = (mkCtx
         (fold_left
            (fun c i => paint_blob s0 hue (field_blob width height seed i) c)
            (seq 0 k) c0)
         (mkDrawState fs hard_light (filter s0) (imageSmoothingEnabled s0)
            (transform s0) (clipping s0))
         p stk,
       rng_after (2 + 4 * k) (mulberry32 seed)).
Proof.
  induction k as [| k IH]; intros c0 fs0 p0.
  - exists fs0, p0. reflexivity.
  - destruct (IH c0 fs0 p0) as (fs & p & E).
    rewrite !seq_S, !fold_left_app, E. cbn [fold_left]. rewrite !Nat.add_0_l.
    unfold drawPsychedelicField_orb.
    rewrite !rng_call_after.
    set (b := field_blob width height seed k).
    exists (RadialGradient (blob_x b) (blob_y b) 0 (blob_x b) (blob_y b) (blob_r b)
              [ (0%Q, hsla (JS.rem (hue + blob_hueOffset b) 360) 100 60 0.4);
                (1%Q, css "transparent") ]),
           [Arc (transform s0) (blob_x b) (blob_y b) (blob_r b) 0 (Math_PI * 2)%Q].
    unfold paint_blob. subst b. unfold field_blob.
    cbn [blob_x blob_y blob_r blob_hueOffset].
    replace (2 + 4 * k + 0)%nat with (2 + 4 * k)%nat by lia.
    replace (2 + 4 * k + 1)%nat with (S (2 + 4 * k)) by lia.
    replace (2 + 4 * k + 2)%nat with (S (S (2 + 4 * k))) by lia.
    replace (2 + 4 * k + 3)%nat with (S (S (S (2 + 4 * k)))) by lia.
    replace (2 + 4 * S k)%nat with (S (S (S (S (2 + 4 * k))))) by lia.
    reflexivity.
Qed.

(** The canvas after [drawPsychedelicField]: the ramp, then
    [field_numOrbs seed] blobs painted with hard-light. *)
Lemma drawPsychedelicField_canvas (ctx : Ctx) (width height : Z) (hue spectra seed : Q) :
  canvas (drawPsychedelicField ctx width height hue spectra seed)
  = fold_left
      (fun c i => paint_blob (state ctx) hue (field_blob width height seed i) c)
      (seq 0 (Z.to_nat (field_numOrbs seed)))
      (Paint (canvas ctx)
         (mkDrawState (field_ramp width height hue spectra seed)
            (globalCompositeOperation (state ctx)) (filter (state ctx))
            (imageSmoothingEnabled (state ctx)) (transform (state ctx))
            (clipping (state ctx)))
         (FillRect 0 0 width height)).
Proof.
  unfold drawPsychedelicField.
  change (rng_call (mulberry32 seed))
    with (rng_call (rng_after 0 (mulberry32 seed))).
  rewrite rng_call_after. cbv zeta.
  rewrite rng_call_after. cbv zeta.
  unfold for_loop.
  unfold Ctx2D.set_globalCompositeOperation, Ctx2D.fillRect,
    Ctx2D.set_fillStyle, Ctx2D.paint, Ctx2D.with_state.
  cbn [canvas state path stack fillStyle globalCompositeOperation filter
       imageSmoothingEnabled transform clipping].
  match goal with
  | |- context [fold_left _ (seq 0 ?k) (mkCtx ?c0 (mkDrawState ?fs0 _ _ _ _ _) ?p0 ?stk, _)] =>
      destruct (orb_loop_unrolled width height hue seed (state ctx) stk k c0 fs0 p0)
        as (fs & p & E)
  end.
  rewrite E. cbv beta iota. cbn [canvas].
  unfold field_numOrbs, field_ramp. reflexivity.
Qed.

Lemma field_numOrbs_range (seed : Q) : 6 <= field_numOrbs seed <= 9.
Proof.
  unfold field_numOrbs.
  pose proof (floor_times_range (rng_nth 1 (mulberry32 seed)) 4
                ltac:(lia) (rng_nth_range 1 _)) as R.
  change (inject_Z 4) with 4%Q in R.
  lia.
Qed.

Lemma field_blob_hueOffset_range (width height : Z) (seed : Q) (i : nat) :
  (0 <= blob_hueOffset (field_blob width height seed i) < 180)%Q.
Proof.
  unfold field_blob. cbn [blob_hueOffset].
  pose proof (rng_nth_range (2 + 4 * i + 3) (mulberry32 seed)) as [H0 H1].
  split; lra.
Qed.

End BaseField.

(** ** The Glitch transform *)

(** Linear arithmetic over numbers divided by constants. *)

Section Glitch.
Context {C : CanvasHost}.

Lemma slice_loop_unrolled (width height : Z) (distortion seed : Q) (k : nat) :
  forall ctx : Ctx,
    fold_left
      (fun acc i => dataMosh_slice width height distortion (Z.of_nat i) acc)
      (seq 0 k) (ctx, mulberry32 seed)
    = (glitch_slices width height distortion seed k ctx,
       rng_after (5 * k) (mulberry32 seed)).
Proof.
  induction k as [| k IH]; intros ctx.
  - reflexivity.
  - unfold glitch_slices in *.
    rewrite !seq_S, !fold_left_app, IH. cbn [fold_left]. rewrite !Nat.add_0_l.
    unfold dataMosh_slice.
    rewrite !rng_call_after.
    unfold displace_slice, glitch_slice.
    cbn [slice_h slice_y slice_xOff slice_black slice_flash].
    replace (5 * k + 0)%nat with (5 * k)%nat by lia.
    replace (5 * k + 1)%nat with (S (5 * k)) by lia.
    replace (5 * k + 2)%nat with (S (S (5 * k))) by lia.
    replace (5 * k + 3)%nat with (S (S (S (5 * k)))) by lia.
    replace (5 * k + 4)%nat with (S (S (S (S (5 * k))))) by lia.
    replace (5 * S k)%nat with (S (S (S (S (S (5 * k)))))) by lia.
    reflexivity.
Qed.

Lemma slice_draws_displace (width : Z) (s : Slice) (ctx : Ctx) :
  slice_draws (canvas (displace_slice width s ctx)) = S (slice_draws (canvas ctx)).
Proof.
  unfold displace_slice.
  destruct (slice_black s), (slice_flash s); cbn; lia.
Qed.

Lemma slice_draws_slices (width height : Z) (distortion seed : Q) (n : nat) :
  forall ctx : Ctx,
    slice_draws (canvas (glitch_slices width height distortion seed n ctx))
    = (slice_draws (canvas ctx) + n)%nat.
Proof.
  unfold glitch_slices.
  induction n as [| n IH]; intros ctx; [cbn; lia |].
  rewrite seq_S, fold_left_app. cbn [fold_left].
  rewrite slice_draws_displace, IH. lia.
Qed.

Lemma slice_draws_channels (ctx : Ctx) (width height channelShift : Z) :
  slice_draws (canvas (dataMosh_channels ctx width height channelShift))
  = slice_draws (canvas ctx).
Proof. cbn. lia. Qed.

(** The channel shift and the number of slices grow with the distortion. *)
Lemma channelShift_mono (x y : Q) :
  (x <= y)%Q ->
  JS.floor (JS.mul (JS.div x 100) 40) <= JS.floor (JS.mul (JS.div y 100) 40).
Proof.
  intros H. apply Qfloor_resp_le. apply scaled_mono; [reflexivity | discriminate | exact H].
Qed.

Lemma slice_count_mono (x y : Q) :
  (x <= y)%Q ->
  JS.floor (JS.mul (JS.div x 100) 30) <= JS.floor (JS.mul (JS.div y 100) 30).
Proof.
  intros H. apply Qfloor_resp_le. apply scaled_mono; [reflexivity | discriminate | exact H].
Qed.

(** The double just below 2.5. *)
Lemma below_2_5 (d : Q) :
  JS.is_double d -> (d < 2.5)%Q -> (d <= 5629499534213119 # 2251799813685248)%Q.
Proof.
  intros D H. apply Qnot_lt_le. intros L.
  apply (no_double_between d 5629499534213119 (-51) D); [lia | lia | exact L |].
  eapply Qlt_le_trans; [exact H |]. vm_compute. discriminate.
Qed.

(** The channel stage runs from distortion 2.5 on. *)
Lemma channelShift_positive (distortion : Q) :
  JS.is_double distortion ->
  (JS.floor (JS.mul (JS.div distortion 100) 40) >? 0) = Qle_bool 2.5 distortion.
Proof.
  intros D.
  destruct (Qle_bool 2.5 distortion) eqn:E.
  - apply Qle_bool_iff in E. apply Z.gtb_lt.
    pose proof (channelShift_mono 2.5 distortion E) as M.
    assert (V : JS.floor (JS.mul (JS.div 2.5 100) 40) = 1) by (vm_compute; reflexivity).
    lia.
  - assert (L : (distortion < 2.5)%Q).
    { apply Qnot_le_lt. intros L. apply Qle_bool_iff in L. congruence. }
    apply below_2_5 in L; [| exact D].
    pose proof (channelShift_mono _ _ L) as M.
    assert (V : JS.floor
                  (JS.mul (JS.div (5629499534213119 # 2251799813685248) 100) 40) = 0)
      by (vm_compute; reflexivity).
    destruct (_ >? 0) eqn:G; [| reflexivity].
    apply Z.gtb_lt in G. lia.
Qed.

Lemma slice_count_range (distortion : Q) :
  (5 < distortion <= 100)%Q ->
  6 <= 5 + JS.floor (JS.mul (JS.div distortion 100) 30) <= 35.
Proof.
  intros [H0 H1].
  pose proof (slice_count_mono 5 distortion (Qlt_le_weak _ _ H0)) as L.
  pose proof (slice_count_mono distortion 100 H1) as U.
  assert (V5 : JS.floor (JS.mul (JS.div 5 100) 30) = 1) by (vm_compute; reflexivity).
  assert (V100 : JS.floor (JS.mul (JS.div 100 100) 30) = 30) by (vm_compute; reflexivity).
  lia.
Qed.

End Glitch.

(** ** The exposure stage *)

Section Exposure.

Lemma Qcompare_Eq_neq x y : (x ?= y)%Q = Eq -> JS.neq x y = false.
Proof. intros E. apply JS_neq_false. apply Qeq_alt. exact E. Qed.

Lemma Qcompare_Gt_js x y :
  (x ?= y)%Q = Gt -> JS.neq x y = true /\ JS.gt x y = true.
Proof.
  intros E. apply Qgt_alt in E. split.
  - apply JS_neq_true. intros H. rewrite H in E. apply (Qlt_irrefl _ E).
  - apply JS_gt_true. exact E.
Qed.

Lemma Qcompare_Lt_js x y :
  (x ?= y)%Q = Lt -> JS.neq x y = true /\ JS.gt x y = false.
Proof.
  intros E. apply Qlt_alt in E. split.
  - apply JS_neq_true. intros H. rewrite H in E. apply (Qlt_irrefl _ E).
  - apply JS_gt_false. apply Qlt_le_weak. exact E.
Qed.

End Exposure.

(** C4.  The exposure stage that ends [renderFluxToCanvas] returns the
    context unchanged when [exposure] equals 50; above 50 it paints one
    uniform white layer of opacity [(exposure - 50) / 150] with soft-light,
    below 50 one uniform black layer of opacity [(50 - exposure) / 100] with
    multiply, and leaves the composite operation back at source-over. *)
Theorem exposure_stage {M : MathHost} {C : CanvasHost}
    (ctx : Ctx) (width height : Z)
    (hue spectra exposure distortion scale seed : Q)
    (pattern : FluxPattern) (smudgeActive : bool) (smudgeFactor : Q) :
  renderFluxToCanvas ctx width height hue spectra exposure distortion scale
    seed pattern smudgeActive smudgeFactor
  = applyExposure
      (applySmudge
         (applyPattern
            (drawPsychedelicField ctx width height hue spectra seed)
            width height hue spectra distortion scale seed pattern)
         width height smudgeActive smudgeFactor)
      width height exposure
  /\ forall before : Ctx,
       match (exposure ?= 50)%Q with
       | Eq => applyExposure before width height exposure = before
       | Gt =>
           canvas (applyExposure before width height exposure)
           = uniform_layer (rgba 255 255 255 ((exposure - 50) / 150))
               soft_light width height before
           /\ globalCompositeOperation
                (state (applyExposure before width height exposure))
              = source_over
       | Lt =>
           canvas (applyExposure before width height exposure)
           = uniform_layer (rgba 0 0 0 ((50 - exposure) / 100))
               multiply width height before
           /\ globalCompositeOperation
                (state (applyExposure before width height exposure))
              = source_over
       end.
Proof.
  split; [reflexivity |].
  intros before. unfold applyExposure.
  destruct (exposure ?= 50)%Q eqn:E.
  - rewrite (Qcompare_Eq_neq _ _ E). reflexivity.
  - destruct (Qcompare_Lt_js _ _ E) as [N G]. rewrite N, G.
    split; reflexivity.
  - destruct (Qcompare_Gt_js _ _ E) as [N G]. rewrite N, G.
    split; reflexivity.
Qed.

(** ** The remainder of non-negative numbers *)

Section Remainder.

(** On a non-negative dividend [%] is the mathematical [mod]. *)
Lemma rem_nonneg (x y : Q) :
  (0 <= x)%Q -> (0 < y)%Q ->
  JS.rem x y = (x - y * inject_Z (Qfloor (x / y)))%Q
  /\ (0 <= JS.rem x y < y)%Q.
Proof.
  intros Hx Hy.
  assert (E : JS.rem x y = (x - y * inject_Z (Qfloor (x / y)))%Q).
  { unfold JS.rem, JS.trunc.
    pose proof (div_nonneg x y Hx Hy) as D. apply Qle_bool_iff in D.
    rewrite D. reflexivity. }
  split; [exact E |]. rewrite E.
  pose proof (Qfloor_le (x / y)) as F1.
  pose proof (Qlt_floor (x / y)) as F2.
  rewrite inject_Z_plus in F2. change (inject_Z 1) with 1%Q in F2.
  assert (X : x == y * (x / y)).
  { field. intros Z. rewrite Z in Hy. apply (Qlt_irrefl _ Hy). }
  set (q := (x / y)%Q) in *. set (f := inject_Z (Qfloor q)) in *.
  split; nra.
Qed.



End Remainder.

(** ** The audio loop *)

Section AudioLoop.
Import App.

Lemma slice_sum_nonneg (data : list Byte.byte) (from to : nat) :
  0 <= slice_sum data from to.
Proof.
  unfold slice_sum.
  assert (G : forall (l : list Byte.byte) (a : Z),
             0 <= a -> 0 <= fold_left (fun a b => a + Z.of_N (Byte.to_N b)) l a).
  { induction l as [| b l IH]; intros a Ha; cbn [fold_left]; [exact Ha |].
    apply IH. lia. }
  apply G. lia.
Qed.

Lemma band_nonneg (s k : Z) :
  0 <= s -> 0 < k -> (0 <= JS.div (JS.div s k) 255)%Q.
Proof.
  intros Hs Hk.
  apply JS_div_nonneg; [| reflexivity].
  apply JS_div_nonneg.
  - change 0%Q with (inject_Z 0). rewrite <- Zle_Qle. exact Hs.
  - change 0%Q with (inject_Z 0). rewrite <- Zlt_Qlt. exact Hk.
Qed.

Lemma vol_nonneg (data : list Byte.byte) : (0 <= vol (analyse data))%Q.
Proof.
  unfold analyse. cbn [vol].
  pose proof (band_nonneg _ 10 (slice_sum_nonneg data 0 10) ltac:(lia)).
  pose proof (band_nonneg _ 80 (slice_sum_nonneg data 20 100) ltac:(lia)).
  pose proof (band_nonneg _ 200 (slice_sum_nonneg data 100 300) ltac:(lia)).
  apply JS_div_nonneg; [| reflexivity].
  repeat apply JS_add_nonneg; assumption.
Qed.

Lemma loop_hueOffset (frame : Frame) (app : App) :
  hueOffset (audioAccumulatorRef (fst (loop frame app))) = tick_offset frame app.
Proof.
  unfold loop, tick_offset.
  destruct (audioSync (state app)), (analyserRef app);
    repeat match goal with
      | |- context [let '(_, _) := ?p in _] => destruct p eqn:?
      | |- context [match ?x with _ => _ end] => destruct x eqn:?
      end; cbn; try reflexivity.
Qed.

Lemma loop_state (frame : Frame) (app : App) :
  state (fst (loop frame app)) = state app.
Proof.
  unfold loop.
  repeat match goal with
    | |- context [let '(_, _) := ?p in _] => destruct p eqn:?
    end.
  reflexivity.
Qed.

(** What a run of the loop passes to [renderFluxToCanvas]. *)
Lemma loop_call (frame : Frame) (app : App) (c : FluxCall) :
  snd (loop frame app) = Some c ->
  audioSync (state app) = true
  /\ systemMode (state app) = flux
  /\ call_hue c = JS.rem (fluxHue (state app) + tick_offset frame app) 360
  /\ call_spectra c = (fluxSpectra (state app) + high (heard frame app) * 100)%Q
  /\ call_exposure c = fluxExposure (state app)
  /\ call_distortion c = (fluxDistortion (state app) + bass (heard frame app) * 80)%Q
  /\ call_scale c = (fluxIso (state app) + bass (heard frame app) * 50)%Q
  /\ call_seed c = fluxSeed (state app)
  /\ call_pattern c = fluxPattern (state app)
  /\ call_smudgeActive c = fluxSmudgeActive (state app)
  /\ call_smudgeFactor c = fluxSmudgeFactor (state app).
Proof.
  unfold loop, tick_offset, heard.
  generalize (JS.double 0.02). intros threshold.
  destruct (systemMode (state app)), (fluxCanvasRef app),
    (activeCanvasDims (state app)) as [[w h] |],
    (audioSync (state app)), (hasContext2d frame), (analyserRef app);
    cbv zeta beta iota; cbn [snd fst]; try discriminate;
    try (destruct (chromaRef app); discriminate);
    try match goal with
      | |- context [JS.gt ?v threshold] => destruct (JS.gt v threshold)
      end;
    intros H;
    apply (f_equal (fun o => match o with Some x => x | None => c end)) in H;
    subst c;
    cbn [call_hue call_spectra call_exposure call_distortion call_scale
         call_seed call_pattern call_smudgeActive call_smudgeFactor
         hueOffset bass high silent];
    repeat split; reflexivity.
Qed.


Lemma tick_offset_monotone (frame : Frame) (app : App) :
  (hueOffset (audioAccumulatorRef app) <= tick_offset frame app)%Q.
Proof.
  unfold tick_offset.
  destruct (audioSync (state app)); [| apply Qle_refl].
  destruct (analyserRef app); [| apply Qle_refl].
  cbv zeta. pose proof (vol_nonneg (frequencyData frame)) as V.
  match goal with |- context [JS.gt ?v ?t] => destruct (JS.gt v t) end;
    [| apply Qle_refl].
  lra.
Qed.

Lemma run_monotone (frames : list Frame) :
  forall app : App,
    (hueOffset (audioAccumulatorRef app)
     <= hueOffset (audioAccumulatorRef (run frames app)))%Q.
Proof.
  induction frames as [| f frames IH]; intros app; cbn [run fold_left].
  - apply Qle_refl.
  - eapply Qle_trans; [| apply IH].
    rewrite loop_hueOffset. apply tick_offset_monotone.
Qed.

(** The accumulator starts at 0 and never becomes negative, whatever the
    frames and the presses of the audio button. *)
Lemma accumulator_never_negative (events : list Event) :
  forall app : App,
    (0 <= hueOffset (audioAccumulatorRef app))%Q ->
    (0 <= hueOffset (audioAccumulatorRef (fold_left step events app)))%Q.
Proof.
  induction events as [| e events IH]; intros app H; cbn [fold_left]; [exact H |].
  apply IH. destruct e as [frame | media]; cbn [step].
  - rewrite loop_hueOffset.
    eapply Qle_trans; [exact H | apply tick_offset_monotone].
  - unfold toggleAudioSync.
    destruct (audioSync (state app)); [apply Qle_refl |].
    destruct media; exact H.
Qed.

End AudioLoop.

(** The frame on which the three band sums are 1, 352 and 2160: the exact
    mean of the three band energies is 0.02, the volume the program computes
    is the second double above it, 0.020000000000000004, which is above the
    threshold, the double 0.02; the accumulator advances. *)
Example volume_at_the_threshold :
  let data := App.frequencyData Demo.faint in
  let v := App.vol (App.analyse data) in
  (App.slice_sum data 0 10, App.slice_sum data 20 100, App.slice_sum data 100 300)
  = (1, 352, 2160)
  /\ ((1 / 10 / 255 + 352 / 80 / 255 + 2160 / 200 / 255) / 3 == 0.02)%Q
  /\ v == 5764607523034236 # 288230376151711744
  /\ JS.double 0.02 == 5764607523034235 # 288230376151711744
  /\ App.hueOffset (App.audioAccumulatorRef (fst (App.loop Demo.faint Demo.listening)))
     == 725 + v * 4.
Proof. vm_compute. repeat split. Qed.

(** C3.  On a tick with audio sync active the accumulator grows by
    [volume * 4] when [volume > 0.02] and is unchanged otherwise, the volume
    and the threshold being the doubles the program compares; a run of the
    loop never decreases it, so over any sequence of frames it is
    non-decreasing and a positive offset stays positive through silence. *)
Theorem accumulator_only_advances (frame : App.Frame) (app : App.App) :
  let v := App.vol (App.analyse (App.frequencyData frame)) in
  let threshold := JS.double 0.02 in
  let before := App.hueOffset (App.audioAccumulatorRef app) in
  let after := App.hueOffset (App.audioAccumulatorRef (fst (App.loop frame app))) in
  (App.audioSync (App.state app) = true ->
   App.analyserRef app <> None ->
   ((threshold < v)%Q -> after = (before + v * 4)%Q)
   /\ ((v <= threshold)%Q -> after = before))
  /\ (before <= after)%Q
  /\ (forall frames : list App.Frame,
        (before <= App.hueOffset (App.audioAccumulatorRef (App.run frames app)))%Q)
  /\ (forall frames : list App.Frame,
        (0 < before)%Q ->
        (0 < App.hueOffset (App.audioAccumulatorRef (App.run frames app)))%Q).
Proof.
  intros v threshold before after. subst after. rewrite loop_hueOffset.
  split; [| split; [| split]].
  - intros Hs Ha. unfold tick_offset. rewrite Hs.
    destruct (App.analyserRef app); [| congruence].
    cbv zeta. fold v. fold before. fold threshold. split.
    + intros Hv. apply JS_gt_true in Hv. rewrite Hv. reflexivity.
    + intros Hv. apply JS_gt_false in Hv. rewrite Hv. reflexivity.
  - apply tick_offset_monotone.
  - intros frames. apply run_monotone.
  - intros frames Hpos. eapply Qlt_le_trans; [exact Hpos | apply run_monotone].
Qed.

Lemma accumulator_only_advances_witness :
  App.hueOffset
    (App.audioAccumulatorRef (fst (App.loop Demo.loud Demo.listening)))
  = (725 + App.vol (App.analyse (App.frequencyData Demo.loud)) * 4)%Q
  /\ App.hueOffset
       (App.audioAccumulatorRef (fst (App.loop Demo.quiet Demo.listening)))
     = 725%Q.
Proof.
  split.
  - apply (proj1 (accumulator_only_advances Demo.loud Demo.listening));
      [reflexivity | discriminate | vm_compute; reflexivity].
  - apply (proj1 (accumulator_only_advances Demo.quiet Demo.listening));
      [reflexivity | discriminate | vm_compute; discriminate].
Defined.



(** A stop in chroma mode: after a loud frame with 725 degrees accumulated
    the element is turned by [(725 + 4 vol) % 360] degrees over the hues 280
    and 240; the audio button stores the hues turned by that angle and
    removes the filter. *)
Example disabling_sync_in_chroma_mode :
  let app0 :=
    App.mkApp
      (App.mkState App.chroma 280 240 210 50 50 30 60 12345 wave false 50
         (Some (4%Q, 4%Q)) true)
      (Some App.an_AudioContext) (Some App.an_AnalyserNode)
      (App.mkAccumulator 725) None (Some (App.mkStyle 1 App.css_none)) in
  let app := fst (App.loop Demo.loud app0) in
  let app' := App.toggleAudioSync None app in
  let turn := JS.rem (725 + App.vol (App.analyse (App.frequencyData Demo.loud)) * 4) 360 in
  option_map hue_rotation (App.chromaRef app) = Some turn
  /\ App.hue (App.state app') == JS.rem (280 + turn) 360
  /\ App.hueB (App.state app') == JS.rem (240 + turn) 360
  /\ App.fluxHue (App.state app') = 210%Q
  /\ App.chromaRef app' = Some (App.mkStyle 1 App.css_none)
  /\ App.hueOffset (App.audioAccumulatorRef app') = 0%Q.
Proof. vm_compute. repeat split. Qed.


(** C7 (amended).  The base field is the ramp with [field_numOrbs seed]
    blobs painted over it with hard-light; there are between 6 and 9 blobs;
    the hue of a blob is the base hue plus an offset in [0, 180), reduced
    modulo 360; the ramp angle, the number of blobs and the position, radius
    and hue offset of each blob are samples of the generator of the seed. *)
Theorem base_field_blobs {M : MathHost} {C : CanvasHost}
    (ctx : Ctx) (width height : Z) (hue spectra seed : Q) :
  canvas (drawPsychedelicField ctx width height hue spectra seed)
  = fold_left
      (fun c i => paint_blob (state ctx) hue (field_blob width height seed i) c)
      (seq 0 (Z.to_nat (field_numOrbs seed)))
      (Paint (canvas ctx)
         (mkDrawState (field_ramp width height hue spectra seed)
            (globalCompositeOperation (state ctx)) (filter (state ctx))
            (imageSmoothingEnabled (state ctx)) (transform (state ctx))
            (clipping (state ctx)))
         (FillRect 0 0 width height))
  /\ 6 <= field_numOrbs seed <= 9
  /\ forall i : nat,
       (0 <= blob_hueOffset (field_blob width height seed i) < 180)%Q.
Proof.
  split; [apply drawPsychedelicField_canvas |].
  split; [apply field_numOrbs_range |].
  intros i. apply field_blob_hueOffset_range.
Qed.

(** C7 as stated fails: no seed gives 10 blobs and no blob has a hue offset
    below the base hue; with seed 12345 there are 7 blobs, whose offsets
    (rounded down) all lie in the upper half of the window. *)
Lemma base_field_blobs_counterexample :
  (forall seed : Q, field_numOrbs seed <> 10)
  /\ (forall (width height : Z) (seed : Q) (i : nat),
        ~ (blob_hueOffset (field_blob width height seed i) < 0)%Q)
  /\ field_numOrbs 12345 = 7
  /\ map (fun i => Qfloor (blob_hueOffset (field_blob 100 100 12345 i))) (seq 0 7)
     = [62; 148; 174; 54; 140; 13; 18].
Proof.
  split; [| split; [| split]].
  - intros seed. pose proof (field_numOrbs_range seed). lia.
  - intros width height seed i H.
    pose proof (field_blob_hueOffset_range width height seed i) as [H0 _].
    apply (Qlt_not_le _ _ H H0).
  - vm_compute. reflexivity.
  - vm_compute. reflexivity.
Qed.

(** The distortion 13.333333333333332, the double that a bass energy of
    [(425 / 10) / 255] times 80 is: the program computes [(distortion/100)*30] as
    the double 4, where the exact product is below 4; Glitch displaces 9
    slices and shifts the channels by 5 pixels. *)
Example glitch_at_a_rounded_product :
  let distortion' := JS.mul (JS.div (JS.div 425 10) 255) 80 in
  distortion' == 7505999378950826 # 562949953421312
  /\ (distortion' / 100 * 30 < 4)%Q
  /\ JS.mul (JS.div distortion' 100) 30 == 4
  /\ 5 + JS.floor (JS.mul (JS.div distortion' 100) 30) = 9
  /\ JS.floor (JS.mul (JS.div distortion' 100) 40) = 5
  /\ slice_draws
       (canvas (renderDataMosh (C := Demo.host) Demo.ctx 2 2 distortion' 12345))
     = 9%nat.
Proof. vm_compute. repeat split. Qed.

(** C8 (amended).  On a canvas at least one pixel wide, Glitch redraws the
    colour channels, shifted by [floor((distortion / 100) * 40)] pixels,
    exactly when that shift is positive, which for a distortion that is a
    double is from 2.5 on; it displaces slices only when distortion exceeds
    5, and then [5 + floor((distortion / 100) * 30)] of them (6 to 35 for a
    distortion up to 100), the quotient and the products being the doubles
    the program computes; slice [i] takes its height, row, offset and its
    two coin flips from the samples [5i .. 5i+4] of the generator of the
    seed; the history of the canvas gains exactly that many slice
    drawings. *)
Theorem glitch_stages {C : CanvasHost}
    (ctx : Ctx) (width height : Z) (distortion seed : Q) :
  1 <= width ->
  let channelShift := JS.floor (JS.mul (JS.div distortion 100) 40) in
  let num := 5 + JS.floor (JS.mul (JS.div distortion 100) 30) in
  let recombined :=
    if channelShift >? 0
    then dataMosh_channels ctx width height channelShift
    else ctx in
  renderDataMosh ctx width height distortion seed
  = (if JS.gt distortion 5
     then glitch_slices width height distortion seed (Z.to_nat num) recombined
     else recombined)
  /\ slice_draws (canvas (renderDataMosh ctx width height distortion seed))
     = (slice_draws (canvas ctx)
        + (if JS.gt distortion 5 then Z.to_nat num else 0))%nat
  /\ (JS.is_double distortion ->
      (channelShift >? 0) = Qle_bool 2.5 distortion)
  /\ ((2.5 <= distortion)%Q -> 1 <= channelShift)
  /\ ((distortion <= 5629499534213119 # 2251799813685248)%Q -> channelShift <= 0)
  /\ ((5 < distortion <= 100)%Q -> 6 <= num <= 35).
Proof.
  intros Hw channelShift num recombined.
  assert (E : renderDataMosh ctx width height distortion seed
              = (if JS.gt distortion 5
                 then glitch_slices width height distortion seed
                        (Z.to_nat num) recombined
                 else recombined)).
  { subst recombined num.
    unfold renderDataMosh. cbv zeta. fold channelShift.
    destruct (JS.gt distortion 5); [| reflexivity].
    unfold for_loop. rewrite slice_loop_unrolled. reflexivity. }
  assert (R : slice_draws (canvas recombined) = slice_draws (canvas ctx)).
  { subst recombined.
    destruct (channelShift >? 0); [apply slice_draws_channels | reflexivity]. }
  split; [exact E |]. split; [| split; [| split; [| split]]].
  - rewrite E. destruct (JS.gt distortion 5).
    + rewrite slice_draws_slices, R. reflexivity.
    + rewrite R. lia.
  - intros Hd. apply channelShift_positive. exact Hd.
  - intros H. pose proof (channelShift_mono 2.5 distortion H) as M.
    assert (V : JS.floor (JS.mul (JS.div 2.5 100) 40) = 1) by (vm_compute; reflexivity).
    subst channelShift. lia.
  - intros H. pose proof (channelShift_mono _ _ H) as M.
    assert (V : JS.floor
                  (JS.mul (JS.div (5629499534213119 # 2251799813685248) 100) 40) = 0)
      by (vm_compute; reflexivity).
    subst channelShift. lia.
  - apply slice_count_range.
Qed.

(** C8 as stated fails: at distortion 1 (above 0) Glitch draws nothing at
    all, neither the channel stage nor any slice. *)
Lemma glitch_stages_counterexample :
  (0 < 1)%Q
  /\ renderDataMosh (C := Demo.host) Demo.ctx 2 2 1 12345 = Demo.ctx.
Proof. split; reflexivity. Qed.

(** ** Worked instances *)

Lemma glitch_stages_witness :
  1 <= 2
  /\ (5 < 50 <= 100)%Q
  /\ 6 <= 5 + JS.floor (JS.mul (JS.div 50 100) 30) <= 35.
Proof.
  split; [lia |].
  split; [split; [reflexivity | discriminate] |].
  apply (glitch_stages (C := Demo.host) Demo.ctx 2 2 50 12345 ltac:(lia)).
  split; [reflexivity | discriminate].
Defined.


Lemma sampling_stays_inside_buffer_witness :
  1 <= 2 /\ 0 <= 1 < 2
  /\ (let '(sx, sy) := turbulence_source 30 60 12345 1 1 in
      let si := (clamp 2 sy * 2 + clamp 2 sx) * 4 in
      0 <= si /\ si + 2 < 2 * 2 * 4).
Proof.
  split; [lia |]. split; [lia |].
  pose proof (sampling_stays_inside_buffer (M := Demo.math)
                2 2 30 60 12345 (data Demo.image) 1 1
                ltac:(lia) ltac:(lia) ltac:(lia) ltac:(lia))
    as (_ & _ & _ & T & _).
  unfold turbulence_source in *. cbv zeta in *.
  destruct T as (_ & T0 & T1). split; [exact T0 | exact T1].
Defined.


Lemma displacement_transforms_write_opaque_pixels_witness :
  aget (data Demo.image) 15 = 128
  /\ opaque (mkImageData 2 2
               (renderVortex_output (M := Demo.math) 2 2 30 50
                  (data Demo.image))).
Proof.
  split; [reflexivity |].
  apply (displacement_transforms_write_opaque_pixels
           (M := Demo.math) (C := Demo.host) Demo.ctx 2 2 30 50 12345
           ltac:(lia) ltac:(lia)).
Defined.

Example exposure_neutral :
  applyExposure Demo.ctx 2 2 50 = Demo.ctx.
Proof. reflexivity. Qed.

Example exposure_80 :
  canvas (applyExposure Demo.ctx 2 2 80)
  = uniform_layer (rgba 255 255 255 ((80 - 50) / 150)) soft_light 2 2 Demo.ctx.
Proof. reflexivity. Qed.

(** Vortex at full distortion on the 2 by 2 image: three pixels fall
    outside and become opaque black; the fourth copies the half-transparent
    white pixel and makes it opaque. *)
Example vortex_full_distortion :
  map (fun p => vortex_source (M := Demo.math) 2 2 100 0 (fst p) (snd p))
    [(0, 0); (1, 0); (0, 1); (1, 1)]
  = [(2, 0); (2, 0); (2, 0); (1, 1)]
  /\ renderVortex_output (M := Demo.math) 2 2 100 0 (data Demo.image)
     = [0; 0; 0; 255;  0; 0; 0; 255;  0; 0; 0; 255;  255; 255; 255; 255].
Proof. split; vm_compute; reflexivity. Qed.

(** Wave at the four corners of the 2 by 2 image: every sampling coordinate
    is outside the buffer and is brought back inside. *)
Example wave_corners :
  map (fun p => wave_sources (M := Demo.math) 2 2 30 60 12345 (fst p) (snd p))
    [(0, 0); (1, 0); (0, 1); (1, 1)]
  = [((3, -6), (12, -6), (21, -6)); ((4, -7), (13, -7), (22, -7));
     ((3, -5), (12, -5), (21, -5)); ((4, -6), (13, -6), (22, -6))]
  /\ map (fun p => getIdx 2 2 (fst p) (snd p)) [(3, -6); (12, -6); (21, -6); (4, -7)]
     = [8; 12; 8; 4].
Proof. split; vm_compute; reflexivity. Qed.

(** Turbulence and Ripple at the four corners: the displaced coordinates
    leave the buffer and are clamped to its edges. *)
Example clamped_corners :
  map (fun p => turbulence_source 30 60 12345 (fst p) (snd p))
    [(0, 0); (1, 0); (0, 1); (1, 1)]
  = [(43, 3); (-25, 41); (2, -29); (34, -1)]
  /\ map (fun p => ripple_source 30 60 12345 (fst p) (snd p))
       [(0, 0); (1, 0); (0, 1); (1, 1)]
     = [(-13, -10); (-6, 9); (12, -3); (12, 6)]
  /\ map (clamp 2) [43; -25; 2; -1; 0; 1] = [1; 0; 1; 0; 0; 1].
Proof. repeat split; vm_compute; reflexivity. Qed.

(** ** The drawing state across the engine *)

(** Evaluating the operations of the context, and nothing else, by need:
    a projection of a long sequence of operations is computed without
    spelling out the contexts in between. *)
Ltac ctx_ops :=
  lazy beta iota zeta delta
    [Ctx2D.fill Ctx2D.arc Ctx2D.moveTo Ctx2D.closePath Ctx2D.beginPath
     Ctx2D.clip Ctx2D.fillRect Ctx2D.drawImage Ctx2D.drawImageScaled
     Ctx2D.putImageData Ctx2D.translate Ctx2D.rotate Ctx2D.scale
     Ctx2D.add_transform Ctx2D.set_fillStyle
     Ctx2D.set_globalCompositeOperation Ctx2D.set_filter
     Ctx2D.set_imageSmoothingEnabled Ctx2D.save Ctx2D.restore Ctx2D.paint
     Ctx2D.with_path Ctx2D.with_state
     canvas state path stack fillStyle globalCompositeOperation filter
     imageSmoothingEnabled transform clipping fst snd].

(** The same, down to the strokes on the canvas. *)
Ltac ctx_strokes :=
  lazy beta iota zeta delta
    [Ctx2D.fill Ctx2D.arc Ctx2D.moveTo Ctx2D.closePath Ctx2D.beginPath
     Ctx2D.clip Ctx2D.fillRect Ctx2D.drawImage Ctx2D.drawImageScaled
     Ctx2D.putImageData Ctx2D.translate Ctx2D.rotate Ctx2D.scale
     Ctx2D.add_transform Ctx2D.set_fillStyle
     Ctx2D.set_globalCompositeOperation Ctx2D.set_filter
     Ctx2D.set_imageSmoothingEnabled Ctx2D.save Ctx2D.restore Ctx2D.paint
     Ctx2D.with_path Ctx2D.with_state
     canvas state path stack fillStyle globalCompositeOperation filter
     imageSmoothingEnabled transform clipping fst snd
     with_fill with_filter with_smoothing createCanvas initial_state snapshot
     scanline_tile history].

(** Naming the results of the calls of a generator. *)
Ltac rng_calls :=
  repeat match goal with
    | |- context [rng_call ?x] => destruct (rng_call x)
    end.

Section Frame.
Context {M : MathHost} {C : CanvasHost}.

Lemma keeps_for_loop (n : Z) (body : Z -> Ctx -> Ctx) :
  (forall i, keeps (body i)) -> keeps (for_loop n body).
Proof.
  intros Hb ctx.
  apply (for_loop_ind
           (fun _ acc =>
              frame acc = frame ctx
              /\ imageSmoothingEnabled (state acc) = imageSmoothingEnabled (state ctx))
           n body ctx).
  - auto.
  - intros i acc _ (A1 & A2). destruct (Hb i acc) as (B1 & B2).
    split; congruence.
Qed.

Lemma settles_for_loop (n : Z) (body : Z -> Ctx -> Ctx) :
  (forall i, settles (body i)) -> settles (for_loop n body).
Proof.
  intros Hb ctx H0.
  apply (for_loop_ind
           (fun _ acc => globalCompositeOperation (state acc) = source_over)
           n body ctx).
  - exact H0.
  - intros i acc _ A. apply Hb. exact A.
Qed.

(** The same for a loop that threads a generator beside the context. *)
Lemma keeps_for_loop_rng (n : Z) (body : Z -> Ctx * Rng -> Ctx * Rng) (g : Rng) :
  (forall i g', keeps (fun ctx => fst (body i (ctx, g')))) ->
  keeps (fun ctx => fst (for_loop n body (ctx, g))).
Proof.
  intros Hb ctx.
  apply (for_loop_ind
           (fun _ (acc : Ctx * Rng) =>
              frame (fst acc) = frame ctx
              /\ imageSmoothingEnabled (state (fst acc))
                 = imageSmoothingEnabled (state ctx))
           n body (ctx, g)).
  - cbn [fst]. auto.
  - intros i [acc g'] _ (A1 & A2). cbn [fst] in *.
    destruct (Hb i g' acc) as (B1 & B2). split; congruence.
Qed.

Lemma settles_for_loop_rng (n : Z) (body : Z -> Ctx * Rng -> Ctx * Rng) (g : Rng) :
  (forall i g', settles (fun ctx => fst (body i (ctx, g')))) ->
  settles (fun ctx => fst (for_loop n body (ctx, g))).
Proof.
  intros Hb ctx H0.
  apply (for_loop_ind
           (fun _ (acc : Ctx * Rng) =>
              globalCompositeOperation (state (fst acc)) = source_over)
           n body (ctx, g)).
  - exact H0.
  - intros i [acc g'] _ A. cbn [fst] in *. apply (Hb i g' acc). exact A.
Qed.

Ltac straight := intros ctx; unfold frame; ctx_ops; repeat split; auto.

(** *** The base field *)

Lemma keeps_orb width height hue i g :
  keeps (fun ctx => fst (drawPsychedelicField_orb width height hue i (ctx, g))).
Proof.
  intros ctx. unfold drawPsychedelicField_orb. rng_calls.
  cbn [fst]. unfold frame. ctx_ops. auto.
Qed.

Lemma drawPsychedelicField_frame (ctx : Ctx) width height hue spectra seed :
  let ctx' := drawPsychedelicField ctx width height hue spectra seed in
  frame ctx' = frame ctx
  /\ imageSmoothingEnabled (state ctx') = imageSmoothingEnabled (state ctx)
  /\ globalCompositeOperation (state ctx') = source_over.
Proof.
  unfold drawPsychedelicField. rng_calls.
  match goal with
  | |- context [for_loop ?n ?body (?c0, ?g)] =>
      pose proof (keeps_for_loop_rng n body g
                    (keeps_orb width height hue) c0) as K;
      cbv beta in K;
      destruct (for_loop n body (c0, g)) as [c1 g1] eqn:E
  end.
  cbn [fst] in K. cbv zeta. destruct K as (K1 & K2).
  assert (G : globalCompositeOperation
                (state (Ctx2D.set_globalCompositeOperation source_over c1))
              = source_over) by reflexivity.
  revert K1 K2 G. unfold frame. ctx_ops. intros K1 K2 G.
  injection K1 as -> -> -> ->. rewrite <- K2. auto.
Qed.

(** *** The ten patterns *)

Lemma tidy_wave width height distortion scale seed :
  tidy (fun ctx => renderLiquidWave ctx width height distortion scale seed).
Proof. split; unfold renderLiquidWave; straight. Qed.

Lemma tidy_turbulence width height distortion scale seed :
  tidy (fun ctx => renderFluidDisplacement ctx width height distortion scale seed).
Proof. split; unfold renderFluidDisplacement; straight. Qed.

Lemma tidy_ripple width height distortion scale seed :
  tidy (fun ctx => renderGlassRefraction ctx width height distortion scale seed).
Proof. split; unfold renderGlassRefraction; straight. Qed.

Lemma tidy_vortex width height distortion scale :
  tidy (fun ctx => renderVortex ctx width height distortion scale).
Proof.
  split; unfold renderVortex; intros ctx; destruct (JS.lt distortion 5);
    unfold frame; ctx_ops; auto.
Qed.

Lemma tidy_prism width height distortion spectra seed :
  tidy (fun ctx => renderLinearPrism ctx width height distortion spectra seed).
Proof. split; unfold renderLinearPrism; straight. Qed.

Lemma tidy_interference width height hue distortion scale seed :
  tidy (fun ctx => renderLinearMoire ctx width height hue distortion scale seed).
Proof. split; unfold renderLinearMoire; straight. Qed.

Lemma tidy_scanline width height distortion scale :
  tidy (fun ctx => renderScanline ctx width height distortion scale).
Proof.
  split; unfold renderScanline; intros ctx; destruct (JS.gt distortion 10);
    unfold frame; ctx_ops; auto.
Qed.

Lemma tidy_kaleido width height distortion scale :
  tidy (fun ctx => renderKaleidoscope ctx width height distortion scale).
Proof.
  split; intros ctx; unfold renderKaleidoscope; cbv zeta.
  - match goal with
    | |- context [for_loop ?n ?body ?c0] =>
        assert (K : keeps (for_loop n body))
    end.
    { apply keeps_for_loop. intros i c.
      destruct (Z.rem i 2 =? 1); unfold frame; ctx_ops; auto. }
    match goal with
    | |- context [for_loop ?n ?body ?c0] => destruct (K c0) as (K1 & K2)
    end.
    rewrite K1, K2. unfold frame. ctx_ops. auto.
  - intros H0.
    match goal with
    | |- context [for_loop ?n ?body ?c0] =>
        assert (K : settles (for_loop n body))
    end.
    { apply settles_for_loop. intros i c Hc.
      destruct (Z.rem i 2 =? 1); ctx_ops; exact Hc. }
    apply K. ctx_ops. exact H0.
Qed.

Lemma tidy_slice width height distortion i g :
  tidy (fun ctx => fst (dataMosh_slice width height distortion i (ctx, g))).
Proof.
  split; intros ctx; unfold dataMosh_slice; rng_calls;
    repeat match goal with
      | |- context [if JS.gt ?a ?b then _ else _] => destruct (JS.gt a b)
      end;
    cbn [fst]; unfold frame; ctx_ops; auto.
Qed.

Lemma tidy_glitch width height distortion seed :
  tidy (fun ctx => renderDataMosh ctx width height distortion seed).
Proof.
  assert (Ch : forall s, tidy (fun ctx => dataMosh_channels ctx width height s)).
  { intros s. split; unfold dataMosh_channels; straight. }
  split; intros ctx; unfold renderDataMosh; cbv zeta.
  - set (ctx1 := if _ >? 0 then _ else ctx).
    assert (K1 : frame ctx1 = frame ctx
                 /\ imageSmoothingEnabled (state ctx1)
                    = imageSmoothingEnabled (state ctx)).
    { subst ctx1. destruct (_ >? 0); [apply Ch | auto]. }
    destruct (JS.gt distortion 5); [| exact K1].
    match goal with
    | |- context [for_loop ?n ?body (ctx1, ?g)] =>
        destruct (keeps_for_loop_rng n body g
                    (fun i g' => proj1 (tidy_slice width height distortion i g'))
                    ctx1) as (L1 & L2)
    end.
    destruct K1 as (K1 & K2). split; congruence.
  - intros H0.
    set (ctx1 := if _ >? 0 then _ else ctx).
    assert (K1 : globalCompositeOperation (state ctx1) = source_over).
    { subst ctx1. destruct (_ >? 0); [apply Ch; exact H0 | exact H0]. }
    destruct (JS.gt distortion 5); [| exact K1].
    match goal with
    | |- context [for_loop ?n ?body (ctx1, ?g)] =>
        apply (settles_for_loop_rng n body g
                 (fun i g' => proj2 (tidy_slice width height distortion i g'))
                 ctx1 K1)
    end.
Qed.

(** Pixelate keeps the frame and settles, but always leaves smoothing on. *)
Lemma pixelate_frame (ctx : Ctx) width height distortion scale :
  let ctx' := renderPixelate ctx width height distortion scale in
  frame ctx' = frame ctx
  /\ imageSmoothingEnabled (state ctx') = true
  /\ globalCompositeOperation (state ctx') = globalCompositeOperation (state ctx).
Proof. unfold renderPixelate, frame. ctx_ops. auto. Qed.

Lemma tidy_smudge width height smudgeActive smudgeFactor :
  tidy (fun ctx => applySmudge ctx width height smudgeActive smudgeFactor).
Proof.
  split; intros ctx; unfold applySmudge;
    destruct (smudgeActive && JS.gt smudgeFactor 0);
    unfold frame; ctx_ops; auto.
Qed.

Lemma tidy_exposure width height exposure :
  tidy (fun ctx => applyExposure ctx width height exposure).
Proof.
  split; intros ctx; unfold applyExposure;
    destruct (JS.neq exposure 50); unfold frame; ctx_ops; auto.
Qed.

End Frame.

(** X1.  Whatever the pattern and the parameters, [renderFluxToCanvas]
    returns the context with the stack of saved states, the transformation,
    the clipping region and the filter it was given, and in source-over;
    image smoothing is as it was, except that Pixelate leaves it on. *)
Theorem renderFluxToCanvas_restores_context {M : MathHost} {C : CanvasHost}
    (ctx : Ctx) (width height : Z)
    (hue spectra exposure distortion scale seed : Q)
    (pattern : FluxPattern) (smudgeActive : bool) (smudgeFactor : Q) :
  let ctx' :=
    renderFluxToCanvas ctx width height hue spectra exposure distortion scale
      seed pattern smudgeActive smudgeFactor in
  stack ctx' = stack ctx
  /\ transform (state ctx') = transform (state ctx)
  /\ clipping (state ctx') = clipping (state ctx)
  /\ filter (state ctx') = filter (state ctx)
  /\ globalCompositeOperation (state ctx') = source_over
  /\ imageSmoothingEnabled (state ctx')
     = match pattern with
       | pixelate => true
       | _ => imageSmoothingEnabled (state ctx)
       end.
Proof.
  intros ctx'. subst ctx'. unfold renderFluxToCanvas. cbv zeta.
  destruct (drawPsychedelicField_frame ctx width height hue spectra seed)
    as (F1 & F2 & F3).
  set (c1 := drawPsychedelicField ctx width height hue spectra seed) in *.
  assert (P : frame (applyPattern c1 width height hue spectra distortion scale
                       seed pattern) = frame ctx
              /\ globalCompositeOperation
                   (state (applyPattern c1 width height hue spectra distortion
                             scale seed pattern)) = source_over
              /\ imageSmoothingEnabled
                   (state (applyPattern c1 width height hue spectra distortion
                             scale seed pattern))
                 = match pattern with
                   | pixelate => true
                   | _ => imageSmoothingEnabled (state ctx)
                   end).
  { destruct pattern; cbn [applyPattern];
      try (match goal with
           | |- context [?f c1 width height] => idtac
           end);
      first
        [ destruct (pixelate_frame c1 width height distortion scale)
            as (A & B & D); split; [congruence | split; congruence]
        | match goal with
          | |- frame ?x = _ /\ _ =>
              match x with
              | renderLiquidWave _ _ _ _ _ _ =>
                  destruct (tidy_wave width height distortion scale seed) as (K & S)
              | renderFluidDisplacement _ _ _ _ _ _ =>
                  destruct (tidy_turbulence width height distortion scale seed) as (K & S)
              | renderGlassRefraction _ _ _ _ _ _ =>
                  destruct (tidy_ripple width height distortion scale seed) as (K & S)
              | renderVortex _ _ _ _ _ =>
                  destruct (tidy_vortex width height distortion scale) as (K & S)
              | renderLinearPrism _ _ _ _ _ _ =>
                  destruct (tidy_prism width height distortion spectra seed) as (K & S)
              | renderLinearMoire _ _ _ _ _ _ _ =>
                  destruct (tidy_interference width height hue distortion scale seed) as (K & S)
              | renderScanline _ _ _ _ _ =>
                  destruct (tidy_scanline width height distortion scale) as (K & S)
              | renderKaleidoscope _ _ _ _ _ =>
                  destruct (tidy_kaleido width height distortion scale) as (K & S)
              | renderDataMosh _ _ _ _ _ =>
                  destruct (tidy_glitch width height distortion seed) as (K & S)
              end;
              destruct (K c1) as (K1 & K2); specialize (S c1 F3);
              split; [congruence | split; [exact S | congruence]]
          end ]. }
  set (c2 := applyPattern c1 width height hue spectra distortion scale seed pattern) in *.
  destruct P as (P1 & P2 & P3).
  destruct (tidy_smudge width height smudgeActive smudgeFactor) as (Ks & Ss).
  destruct (Ks c2) as (S1 & S2). specialize (Ss c2 P2).
  set (c3 := applySmudge c2 width height smudgeActive smudgeFactor) in *.
  destruct (tidy_exposure width height exposure) as (Ke & Se).
  destruct (Ke c3) as (E1 & E2). specialize (Se c3 Ss).
  set (c4 := applyExposure c3 width height exposure) in *.
  assert (Fr : frame c4 = frame ctx) by congruence.
  unfold frame in Fr. injection Fr as Fa Fb Fc Fd.
  repeat split; try assumption. congruence.
Qed.

(** ** Smudge, Pixelate, Scanline and Kaleidoscope *)

(** X2.  The smudge stage does nothing unless it is active with a positive
    factor; then it is one redraw of a copy of the canvas through
    [blur(factor / 100 * 40 px)], and the drawing state, the path and the
    stack of saved states are afterwards exactly what they were. *)
Theorem smudge_is_one_blurred_redraw
    (ctx : Ctx) (width height : Z) (smudgeActive : bool) (smudgeFactor : Q) :
  (smudgeActive = false \/ (smudgeFactor <= 0)%Q ->
   applySmudge ctx width height smudgeActive smudgeFactor = ctx)
  /\ (smudgeActive = true /\ (0 < smudgeFactor)%Q ->
      applySmudge ctx width height smudgeActive smudgeFactor
      = mkCtx
          (Paint (canvas ctx)
             (with_filter (blur ((smudgeFactor / 100) * 40)) (state ctx))
             (DrawImage (snapshot ctx width height) 0 0))
          (state ctx) (path ctx) (stack ctx)).
Proof.
  unfold applySmudge. split.
  - intros [-> | H]; [reflexivity |].
    apply JS_gt_false in H. rewrite H, andb_false_r. destruct ctx; reflexivity.
  - intros [-> H]. apply JS_gt_true in H. rewrite H. reflexivity.
Qed.

Section Pixelate.

Lemma pixelate_blockSize_min distortion scale :
  (4 <= pixelate_blockSize distortion scale)%Q.
Proof.
  unfold pixelate_blockSize, JS.max.
  destruct (Qle_bool 4 _) eqn:E.
  - apply Qle_bool_iff in E. exact E.
  - lra.
Qed.

Lemma pixelate_blockSize_max distortion scale :
  (0 <= scale)%Q -> (distortion <= 100)%Q ->
  (pixelate_blockSize distortion scale <= 64)%Q.
Proof.
  intros Hs Hd. unfold pixelate_blockSize.
  assert (S1 : (JS.sub 100 scale <= 100)%Q) by (apply JS_sub_le; [dbl | lra]).
  assert (D1 : (JS.div (JS.sub 100 scale) 100 <= 1)%Q)
    by (apply JS_div_le; [dbl | reflexivity | lra]).
  assert (M1 : (JS.mul (JS.div (JS.sub 100 scale) 100) 40 <= 40)%Q)
    by (apply JS_mul_le; [dbl | lra]).
  assert (A1 : (JS.add 4 (JS.mul (JS.div (JS.sub 100 scale) 100) 40) <= 44)%Q)
    by (apply JS_add_le; [dbl | lra]).
  assert (D2 : (JS.div distortion 100 <= 1)%Q)
    by (apply JS_div_le; [dbl | reflexivity | lra]).
  assert (M2 : (JS.mul (JS.div distortion 100) 20 <= 20)%Q)
    by (apply JS_mul_le; [dbl | lra]).
  assert (A2 : (JS.add (JS.add 4 (JS.mul (JS.div (JS.sub 100 scale) 100) 40))
                  (JS.mul (JS.div distortion 100) 20) <= 64)%Q)
    by (apply JS_add_le; [dbl | lra]).
  unfold JS.max. destruct (Qle_bool 4 _); lra.
Qed.

Lemma ceil_div_range (n : Z) (b : Q) :
  1 <= n < 2 ^ 53 -> (4 <= b <= 64)%Q ->
  1 <= JS.ceil (JS.div n b) /\ 4 * JS.ceil (JS.div n b) < n + 4.
Proof.
  intros [Hn Hm] [Hb Hc]. unfold JS.ceil.
  assert (Hn' := Hn). rewrite Zle_Qle in Hn'.
  change (inject_Z 1) with 1%Q in Hn'.
  assert (L : ((1 # 64) <= JS.div n b)%Q).
  { apply JS_div_ge; [| lra |].
    - assert (E : ((1 # 64) == inject_Z 1 * 2 ^ (-6))%Q) by reflexivity.
      rewrite E. apply is_double_dyadic; lia.
    - lra. }
  assert (U : (JS.div n b <= inject_Z n * 2 ^ (-2))%Q).
  { apply JS_div_le; [apply is_double_dyadic; lia | lra |].
    change (2 ^ (-2))%Q with (1 # 4). nra. }
  change (2 ^ (-2))%Q with (1 # 4) in U.
  pose proof (Qle_ceiling (JS.div n b)) as C1.
  pose proof (Qceiling_lt (JS.div n b)) as C2.
  replace (Qceiling (JS.div n b) - 1)
    with (Qceiling (JS.div n b) + -1) in C2 by lia.
  rewrite inject_Z_plus in C2. change (inject_Z (-1)) with (-1)%Q in C2.
  set (q := JS.div n b) in *.
  split.
  - assert (0 < Qceiling q); [| lia].
    rewrite Zlt_Qlt. change (inject_Z 0) with 0%Q. lra.
  - rewrite Zlt_Qlt, inject_Z_mult, inject_Z_plus.
    change (inject_Z 4) with 4%Q. lra.
Qed.

End Pixelate.

(** A 1920 by 1080 canvas at distortion 32 and scale 6: the exact block size
    is 48, the program computes 47.99999999999999 and reduces the canvas to
    41 by 23 pixels. *)
Example pixelate_1080p :
  (4 + (100 - 6) / 100 * 40 + 32 / 100 * 20 == 48)%Q
  /\ pixelate_blockSize 32 6 == 6755399441055743 # 140737488355328
  /\ JS.ceil (JS.div 1920 (pixelate_blockSize 32 6)) = 41
  /\ JS.ceil (JS.div 1080 (pixelate_blockSize 32 6)) = 23.
Proof. vm_compute. repeat split. Qed.

(** X3.  Pixelate redraws the canvas from a copy reduced to one pixel per
    block, both drawings with image smoothing off, the block size and the
    size of the copy being the doubles the program computes.  The block is
    never smaller than 4 pixels and, for the ranges of the controls, never
    larger than 64; then the reduced copy of a canvas that is not empty is
    not empty, and is at most a quarter (rounded up) of the canvas in each
    direction. *)
Theorem pixelate_blocks
    (ctx : Ctx) (width height : Z) (distortion scale : Q) :
  let blockSize := pixelate_blockSize distortion scale in
  let w := JS.ceil (JS.div width blockSize) in
  let h := JS.ceil (JS.div height blockSize) in
  canvas (renderPixelate ctx width height distortion scale)
  = Paint (canvas ctx) (with_smoothing false (state ctx))
      (DrawImageScaled
         (Paint (Blank w h) (with_smoothing false initial_state)
            (DrawImageScaled (canvas ctx) 0 0 w h))
         0 0 width height)
  /\ (4 <= blockSize)%Q
  /\ ((0 <= scale)%Q /\ (distortion <= 100)%Q ->
      (blockSize <= 64)%Q
      /\ (1 <= width < 2 ^ 53 -> 1 <= w /\ 4 * w < width + 4)
      /\ (1 <= height < 2 ^ 53 -> 1 <= h /\ 4 * h < height + 4)).
Proof.
  intros blockSize w h.
  pose proof (pixelate_blockSize_min distortion scale) as Hb.
  split.
  { subst w h blockSize. unfold renderPixelate, pixelate_blockSize.
    ctx_strokes. reflexivity. }
  split; [exact Hb |].
  intros [H1 H2].
  pose proof (pixelate_blockSize_max distortion scale H1 H2) as Hc.
  split; [exact Hc |].
  split; intros H; apply ceil_div_range; auto.
Qed.

Section Scanline.


End Scanline.


Section Kaleidoscope.
Context {M : MathHost}.

Lemma kaleido_segments_range scale :
  (0 <= scale <= 100)%Q -> 4 <= kaleido_segments scale <= 16.
Proof.
  intros [H0 H1]. unfold kaleido_segments.
  assert (0 <= JS.floor (JS.mul (JS.div scale 100) 12) <= 12); [| lia].
  unfold JS.floor.
  assert (D0 : (0 <= JS.div scale 100)%Q) by (apply JS_div_nonneg; [exact H0 | reflexivity]).
  assert (D1 : (JS.div scale 100 <= 1)%Q) by (apply JS_div_le; [dbl | reflexivity | lra]).
  assert (L : (0 <= JS.mul (JS.div scale 100) 12)%Q) by (apply JS_mul_nonneg; lra).
  assert (U : (JS.mul (JS.div scale 100) 12 <= 12)%Q) by (apply JS_mul_le; [dbl | lra]).
  apply Qfloor_resp_le in L, U.
  change (Qfloor 0) with 0 in L. change (Qfloor 12) with 12 in U. lia.
Qed.

(** A loop each of whose iterations adds one stroke and returns to the
    drawing state and the stack it started from. *)
Lemma for_loop_strokes (n : Z) (body : Z -> Ctx -> Ctx) (s1 : DrawState)
    (stk : list DrawState) (stroke : Z -> Stroke) :
  (forall i c p, exists c' p',
      body i (mkCtx c s1 p stk) = mkCtx c' s1 p' stk
      /\ history c' = history c ++ [stroke i]) ->
  forall c0 p0, exists cK pK,
    for_loop n body (mkCtx c0 s1 p0 stk) = mkCtx cK s1 pK stk
    /\ history cK
       = history c0 ++ map (fun i => stroke (Z.of_nat i)) (seq 0 (Z.to_nat n)).
Proof.
  intros Hb c0 p0. unfold for_loop.
  induction (Z.to_nat n) as [| k IH].
  - exists c0, p0. cbn. rewrite app_nil_r. auto.
  - destruct IH as (cK & pK & E & H).
    rewrite seq_S, fold_left_app, E. cbn [fold_left Nat.add].
    destruct (Hb (Z.of_nat k) cK pK) as (c' & p' & E' & H').
    exists c', p'. split; [exact E' |].
    rewrite H', H, map_app, <- app_assoc. reflexivity.
Qed.

End Kaleidoscope.

(** The scale 41.666666666666664: the exact product [(scale/100)*12] is
    below 5, the program computes the double 5 and draws 9 wedges. *)
Example kaleidoscope_at_a_rounded_product :
  let scale := JS.add 1 (JS.mul (JS.div (JS.div 2074 10) 255) 50) in
  scale == 5864062014805333 # 140737488355328
  /\ (scale / 100 * 12 < 5)%Q
  /\ JS.mul (JS.div scale 100) 12 == 5
  /\ kaleido_segments scale = 9.
Proof. vm_compute. repeat split. Qed.

(** X5.  Kaleidoscope blacks the canvas out and then draws a copy of what
    was there once per wedge, [4 + floor((scale / 100) * 12)] times, the
    quotient and the product being the doubles the program computes (4 to 16
    wedges for a scale between 0 and 100): wedge [i] through its own sector
    and nothing else of the earlier wedges' clips or turns, mirrored when [i]
    is odd.  Afterwards only the fill colour of the drawing state has
    changed. *)
Theorem kaleidoscope_wedges {M : MathHost}
    (ctx : Ctx) (width height : Z) (distortion scale : Q) :
  let ctx' := renderKaleidoscope ctx width height distortion scale in
  history (canvas ctx')
  = history (canvas ctx)
    ++ painted (with_fill (Colour (css "#000")) (state ctx))
         (FillRect 0 0 width height)
       :: map (fun i => kaleido_wedge (state ctx) width height distortion scale
                          (snapshot ctx width height) (Z.of_nat i))
            (seq 0 (Z.to_nat (kaleido_segments scale)))
  /\ state ctx' = with_fill (Colour (css "#000")) (state ctx)
  /\ stack ctx' = stack ctx
  /\ ((0 <= scale <= 100)%Q -> 4 <= kaleido_segments scale <= 16).
Proof.
  intros ctx'. subst ctx'. unfold renderKaleidoscope. cbv zeta.
  fold (kaleido_segments scale).
  set (s1 := with_fill (Colour (css "#000")) (state ctx)).
  change (Ctx2D.fillRect 0 0 width height
            (Ctx2D.set_fillStyle (Colour (css "#000")) ctx))
    with (mkCtx (Paint (canvas ctx) s1 (FillRect 0 0 width height))
            s1 (path ctx) (stack ctx)).
  match goal with
  | |- context [for_loop ?n ?body ?start] =>
      assert (Hb : forall i c p, exists c' p',
                 body i (mkCtx c s1 p (stack ctx)) = mkCtx c' s1 p' (stack ctx)
                 /\ history c'
                    = history c
                      ++ [kaleido_wedge (state ctx) width height distortion
                            scale (snapshot ctx width height) i]);
      [| destruct (for_loop_strokes n body s1 (stack ctx) _ Hb
                     (Paint (canvas ctx) s1 (FillRect 0 0 width height))
                     (path ctx))
           as (cK & pK & E & H) ]
  end.
  - intros i c p. unfold kaleido_wedge. fold (kaleido_segments scale).
    subst s1.
    destruct (Z.rem i 2 =? 1); do 2 eexists;
      (split; [ctx_strokes; reflexivity |]);
      ctx_strokes; rewrite <- ?app_assoc; reflexivity.
  - rewrite E. cbn [canvas state stack].
    split; [| split; [reflexivity | split; [reflexivity |]]].
    + rewrite H. cbn [history]. rewrite <- app_assoc. reflexivity.
    + apply kaleido_segments_range.
Qed.

(** ** The per-pixel transforms at work *)

Section Pixels.
Context {M : MathHost}.



Lemma output_pixel width height f x y :
  0 <= x < width -> 0 <= y < height ->
  pixel_at
    (pixel_loops width height f (data (createImageData width height)))
    ((y * width + x) * 4)
  = f x y.
Proof.
  intros Hx Hy. apply pixel_loops_spec; try assumption.
  apply length_createImageData.
Qed.

End Pixels.

Section Split.


End Split.



(** X7.  At distortion 0 the three displacement transforms move nothing:
    every pixel keeps its red, green and blue, and its alpha becomes 255. *)
Theorem zero_distortion_keeps_colours {M : MathHost}
    (width height : Z) (distortion scale seed : Q) (d : list Z) (x y : Z) :
  distortion == 0 -> 0 <= x < width -> 0 <= y < height ->
  let idx := (y * width + x) * 4 in
  let kept := (aget d idx, aget d (idx + 1), aget d (idx + 2), 255) in
  pixel_at (renderLiquidWave_output width height distortion scale seed d) idx
  = kept
  /\ pixel_at (renderFluidDisplacement_output width height distortion scale seed d) idx
     = kept
  /\ pixel_at (renderGlassRefraction_output width height distortion scale seed d) idx
     = kept.
Proof.
  intros H0 Hx Hy idx kept.
  assert (Cx : clamp width x = x).
  { apply (clamp_spec width x); lia. }
  assert (Cy : clamp height y = y).
  { apply (clamp_spec height y); lia. }
  assert (Fx : forall s k : Q, JS.floor (x + s * ((distortion / 100) * k)) = x).
  { intros s k. apply floor_of_Z. rewrite H0. unfold Qdiv. ring. }
  assert (Fy : forall s k : Q, JS.floor (y + s * ((distortion / 100) * k)) = y).
  { intros s k. apply floor_of_Z. rewrite H0. unfold Qdiv. ring. }
  split; [| split]; subst idx.
  - rewrite renderLiquidWave_output_loops, output_pixel by assumption.
    unfold wave_pixel, wave_sources. cbv zeta.
    assert (S0 : JS.floor (JS.mul (JS.div distortion 100) 30) = 0).
    { apply floor_of_Z. unfold JS.mul, JS.div. rewrite H0. reflexivity. }
    rewrite S0. unfold JS.floor at 1 3.
    rewrite Qfloor_minus_Z, Qfloor_plus_Z.
    fold (JS.floor (x + Math_sin (y * (0.005 + scale / 100 * 0.03) + seed * 0.1)
                        * (distortion / 100 * 80))).
    rewrite Fx, Fy, Z.sub_0_r, Z.add_0_r, getIdx_mirror.
    rewrite !mirror_inside by lia. reflexivity.
  - rewrite renderFluidDisplacement_output_loops, output_pixel by assumption.
    unfold clamped_pixel, turbulence_source. cbv zeta. cbn [fst snd].
    rewrite Fx, Fy, Cx, Cy. reflexivity.
  - rewrite renderGlassRefraction_output_loops, output_pixel by assumption.
    unfold clamped_pixel, ripple_source. cbv zeta. cbn [fst snd].
    rewrite Fx, Fy, Cx, Cy. reflexivity.
Qed.

Lemma zero_distortion_keeps_colours_witness :
  0 == 0 /\ 0 <= 1 < 2
  /\ pixel_at (renderFluidDisplacement_output 2 2 0 60 12345 (data Demo.image))
       ((1 * 2 + 1) * 4)
     = (aget (data Demo.image) 12, aget (data Demo.image) 13,
        aget (data Demo.image) 14, 255).
Proof.
  split; [reflexivity |]. split; [lia |].
  exact (proj1 (proj2 (zero_distortion_keeps_colours (M := Demo.math) 2 2 0 60
                         12345 (data Demo.image) 1 1 ltac:(reflexivity)
                         ltac:(lia) ltac:(lia)))).
Defined.


(** ** Seeds that are not integers *)

Section FractionalSeeds.
Import JS.

Lemma trunc_nonneg (q : Q) : (0 <= q)%Q -> trunc q = Qfloor q.
Proof.
  intros H. unfold trunc.
  apply Qle_bool_iff in H. rewrite H. reflexivity.
Qed.

(** A seed with 20 binary digits after the point: while it stays below
    [2^33] the sum [a += 0x6D2B79F5] fits 53 bits and is exact. *)
Lemma rng_advance_dyadic (g : Rng) (m : Z) :
  g == inject_Z m * 2 ^ (-20) ->
  0 <= m -> m + 0x6D2B79F5 * 2 ^ 20 < 2 ^ 53 ->
  JS.add g (inject_Z 0x6D2B79F5) == g + inject_Z 0x6D2B79F5
  /\ g + inject_Z 0x6D2B79F5 == inject_Z (m + 0x6D2B79F5 * 2 ^ 20) * 2 ^ (-20).
Proof.
  intros E L U.
  assert (S : g + inject_Z 0x6D2B79F5
              == inject_Z (m + 0x6D2B79F5 * 2 ^ 20) * 2 ^ (-20)).
  { rewrite E, inject_Z_plus, inject_Z_mult.
    assert (P : (inject_Z (2 ^ 20) * 2 ^ (-20) == 1)%Q) by reflexivity.
    rewrite Qmult_plus_distr_l, <- Qmult_assoc, P. ring. }
  split; [| exact S].
  unfold JS.add. rewrite S. apply is_double_dyadic; lia.
Qed.

Lemma rng_nth_dyadic n :
  forall (g : Rng) (m : Z),
    g == inject_Z m * 2 ^ (-20) ->
    0 <= m -> m + (Z.of_nat n + 1) * (0x6D2B79F5 * 2 ^ 20) < 2 ^ 53 ->
    rng_nth n g = Mulberry32Spec.sample n (wrapU (Qfloor g)).
Proof.
  induction n as [| n IH]; intros g m E L U;
    cbn [rng_nth Mulberry32Spec.sample];
    destruct (rng_advance_dyadic g m E L ltac:(lia)) as [A S];
    assert (G0 : (0 <= g)%Q)
      by (rewrite E; apply Qmult_le_0_compat;
          [change 0%Q with (inject_Z 0); rewrite <- Zle_Qle; exact L
          | apply Qlt_le_weak, pow2_pos]);
    assert (F : Qfloor (JS.add g (inject_Z 0x6D2B79F5)) = Qfloor g + 0x6D2B79F5)
      by (rewrite (Qfloor_comp _ _ A); apply Qfloor_plus_Z).
  - rewrite rng_call_mix. do 3 f_equal.
    unfold ToUint32. rewrite trunc_nonneg, F.
    + unfold Mulberry32Spec.advance. symmetry. apply wrapU_add_r.
    + rewrite A. change (inject_Z 0x6D2B79F5) with 1831565813%Q. lra.
  - rewrite rng_call_state.
    rewrite (IH _ (m + 0x6D2B79F5 * 2 ^ 20)).
    + rewrite F. f_equal.
      unfold Mulberry32Spec.advance. symmetry. apply wrapU_add_r.
    + rewrite A. exact S.
    + lia.
    + lia.
Qed.

End FractionalSeeds.

(** The seed 0.9999999999: the first sum [a += 0x6D2B79F5] is rounded up to
    the integer 1831565814, and the stream is that of the seed 1, not that
    of the seed 0. *)
Example generator_rounds_fine_fractions :
  snd (rng_call (mulberry32 (JS.double 0.9999999999))) == 1831565814
  /\ Qeq_bool (rng_nth 0 (mulberry32 (JS.double 0.9999999999)))
       (rng_nth 0 (mulberry32 1)) = true
  /\ Qeq_bool (rng_nth 0 (mulberry32 (JS.double 0.9999999999)))
       (rng_nth 0 (mulberry32 0)) = false.
Proof. vm_compute. repeat split. Qed.

(** X9.  Of a seed that is not negative and has at most 20 binary digits
    after the point [mulberry32] uses only the integer part, reduced to 32
    bits, as long as its variable stays within 53 bits: output [n] is that
    of the 32-bit generator seeded with [floor(seed) mod 2^32], and two such
    seeds with the same integer part modulo 2^32 give the same output. *)
Theorem generator_ignores_fraction (a b : Q) (ma mb : Z) (n : nat) :
  a == inject_Z ma * 2 ^ (-20) -> b == inject_Z mb * 2 ^ (-20) ->
  0 <= ma -> 0 <= mb ->
  ma + (Z.of_nat n + 1) * (0x6D2B79F5 * 2 ^ 20) < 2 ^ 53 ->
  mb + (Z.of_nat n + 1) * (0x6D2B79F5 * 2 ^ 20) < 2 ^ 53 ->
  rng_nth n (mulberry32 a)
  = Mulberry32Spec.sample n (Mulberry32Spec.seeded (Qfloor a))
  /\ (Qfloor a mod 2 ^ 32 = Qfloor b mod 2 ^ 32 ->
      rng_nth n (mulberry32 a) = rng_nth n (mulberry32 b)).
Proof.
  intros Ea Eb La Lb Ua Ub.
  assert (S : forall (g : Q) (m : Z),
             g == inject_Z m * 2 ^ (-20) -> 0 <= m ->
             m + (Z.of_nat n + 1) * (0x6D2B79F5 * 2 ^ 20) < 2 ^ 53 ->
             rng_nth n (mulberry32 g)
             = Mulberry32Spec.sample n (Mulberry32Spec.seeded (Qfloor g))).
  { intros g m E L U. unfold mulberry32. rewrite (rng_nth_dyadic n g m E L U).
    unfold Mulberry32Spec.seeded, JS.wrapU. rewrite two32_pow. reflexivity. }
  split; [apply (S a ma); assumption |].
  intros E. rewrite (S a ma), (S b mb) by assumption.
  unfold Mulberry32Spec.seeded. rewrite E. reflexivity.
Qed.

Lemma generator_ignores_fraction_witness :
  rng_nth 3 (mulberry32 12345.75) = rng_nth 3 (mulberry32 12345.25).
Proof.
  apply (proj2 (generator_ignores_fraction 12345.75 12345.25
                  12945457152 12944932864 3%nat
                  ltac:(reflexivity) ltac:(reflexivity)
                  ltac:(lia) ltac:(lia) ltac:(lia) ltac:(lia))).
  reflexivity.
Defined.

(** ** The animation loop at work *)

Section Bands.
Import App.

Lemma slice_sum_bound (data : list Byte.byte) (from to : nat) :
  slice_sum data from to <= 255 * Z.of_nat (to - from).
Proof.
  unfold slice_sum.
  assert (G : forall (l : list Byte.byte) (a : Z),
             fold_left (fun a b => a + Z.of_N (Byte.to_N b)) l a
             <= a + 255 * Z.of_nat (length l)).
  { induction l as [| b l IH]; intros a; cbn [fold_left length]; [lia |].
    specialize (IH (a + Z.of_N (Byte.to_N b))).
    pose proof (Byte.to_N_bounded b). lia. }
  specialize (G (take (to - from) (drop from data)) 0).
  pose proof (length_take_le (drop from data) (to - from)%nat) as L.
  assert (length (take (to - from) (drop from data)) <= to - from)%nat.
  { rewrite length_take. lia. }
  lia.
Qed.

Lemma band_range (s k : Z) :
  0 <= s <= 255 * k -> 0 < k -> (0 <= JS.div (JS.div s k) 255 <= 1)%Q.
Proof.
  intros [L U] K. split; [apply band_nonneg; assumption |].
  assert (K' : (0 < inject_Z k)%Q)
    by (change 0%Q with (inject_Z 0); rewrite <- Zlt_Qlt; exact K).
  assert (I : (JS.div s k <= 255)%Q).
  { apply JS_div_le; [dbl | exact K' |].
    change 255%Q with (inject_Z 255). rewrite <- inject_Z_mult, <- Zle_Qle. exact U. }
  apply JS_div_le; [dbl | reflexivity | lra].
Qed.

Lemma analyse_range (data : list Byte.byte) :
  (0 <= bass (analyse data) <= 1)%Q
  /\ (0 <= mid (analyse data) <= 1)%Q
  /\ (0 <= high (analyse data) <= 1)%Q
  /\ (0 <= vol (analyse data) <= 1)%Q.
Proof.
  pose proof (vol_nonneg data) as V0. revert V0.
  unfold analyse. cbn [bass mid high vol].
  pose proof (band_range _ 10
                (conj (slice_sum_nonneg data 0 10) (slice_sum_bound data 0 10))
                ltac:(lia)) as B.
  pose proof (band_range _ 80
                (conj (slice_sum_nonneg data 20 100) (slice_sum_bound data 20 100))
                ltac:(lia)) as Mi.
  pose proof (band_range _ 200
                (conj (slice_sum_nonneg data 100 300) (slice_sum_bound data 100 300))
                ltac:(lia)) as H.
  change (inject_Z 10) with 10%Q in *. change (inject_Z 80) with 80%Q in *.
  change (inject_Z 200) with 200%Q in *.
  set (b := JS.div (JS.div (slice_sum data 0 10) 10) 255) in *.
  set (m := JS.div (JS.div (slice_sum data 20 100) 80) 255) in *.
  set (h := JS.div (JS.div (slice_sum data 100 300) 200) 255) in *.
  intros V0.
  assert (S1 : (JS.add b m <= 2)%Q) by (apply JS_add_le; [dbl | lra]).
  assert (S2 : (JS.add (JS.add b m) h <= 3)%Q) by (apply JS_add_le; [dbl | lra]).
  assert (V1 : (JS.div (JS.add (JS.add b m) h) 3 <= 1)%Q)
    by (apply JS_div_le; [dbl | reflexivity | lra]).
  repeat split; try lra.
Qed.

Lemma heard_range (frame : Frame) (app : App) :
  (0 <= bass (heard frame app) <= 1)%Q
  /\ (0 <= mid (heard frame app) <= 1)%Q
  /\ (0 <= high (heard frame app) <= 1)%Q.
Proof.
  unfold heard.
  destruct (audioSync (state app)), (analyserRef app);
    try (cbn [silent bass mid high]; repeat split; lra).
  pose proof (analyse_range (frequencyData frame)) as (B & Mi & H & _).
  auto.
Qed.


End Bands.

(** X10.  Whatever the analyser delivers, the three band energies and the
    volume computed from them are fractions between 0 and 1: missing bins
    count as silence, and 255 in every bin gives 1. *)
Theorem band_energies_are_fractions (data : list Byte.byte) :
  let b := App.analyse data in
  (0 <= App.bass b <= 1)%Q /\ (0 <= App.mid b <= 1)%Q
  /\ (0 <= App.high b <= 1)%Q /\ (0 <= App.vol b <= 1)%Q
  /\ App.vol (App.analyse []) == 0
  /\ App.vol (App.analyse (replicate 300 Byte.xff)) == 1.
Proof.
  intros b. pose proof (analyse_range data) as (B & Mi & H & V).
  repeat split; try tauto; vm_compute; reflexivity.
Qed.


(** X12.  The parameters a synchronised frame renders with never fall
    below the settings and exceed them by at most 80 (distortion), 50 (iso)
    and 100 (spectra). *)
Theorem audio_boost_is_bounded
    (frame : App.Frame) (app : App.App) (c : App.FluxCall) :
  snd (App.loop frame app) = Some c ->
  let s := App.state app in
  (App.fluxDistortion s <= App.call_distortion c <= App.fluxDistortion s + 80)%Q
  /\ (App.fluxIso s <= App.call_scale c <= App.fluxIso s + 50)%Q
  /\ (App.fluxSpectra s <= App.call_spectra c <= App.fluxSpectra s + 100)%Q
  /\ App.call_exposure c = App.fluxExposure s
  /\ App.call_seed c = App.fluxSeed s
  /\ App.call_pattern c = App.fluxPattern s.
Proof.
  intros H s.
  destruct (loop_call frame app c H)
    as (_ & _ & _ & Sp & Ex & Di & Sc & Se & Pa & _).
  pose proof (heard_range frame app) as (B & _ & Hi).
  rewrite Di, Sc, Sp. subst s.
  set (b := App.bass (heard frame app)) in *.
  set (h := App.high (heard frame app)) in *.
  repeat split; try assumption; lra.
Qed.

Lemma audio_boost_is_bounded_witness :
  exists c : App.FluxCall,
    snd (App.loop Demo.loud Demo.listening) = Some c
    /\ (30 <= App.call_distortion c <= 30 + 80)%Q
    /\ (60 <= App.call_scale c <= 60 + 50)%Q.
Proof.
  eexists. split; [reflexivity |].
  pose proof (audio_boost_is_bounded Demo.loud Demo.listening _ eq_refl) as H.
  split; [exact (proj1 H) | exact (proj1 (proj2 H))].
Defined.

(** X13.  In chroma mode a synchronised frame restyles the element within
    fixed bounds: a scale between 1 and 1.25, a saturation between 100% and
    250%, a brightness between 1 and 1.5 and, the accumulator not being
    negative, a hue rotation in [0, 360); it never calls the Flux engine. *)
Theorem chroma_pulse_is_bounded
    (frame : App.Frame) (app : App.App) (style : App.Style) :
  App.systemMode (App.state app) = App.chroma ->
  App.audioSync (App.state app) = true ->
  App.chromaRef app = Some style ->
  (0 <= App.hueOffset (App.audioAccumulatorRef app))%Q ->
  snd (App.loop frame app) = None
  /\ exists scale hueRot saturate brightness : Q,
       App.chromaRef (fst (App.loop frame app))
       = Some (App.mkStyle scale
                 (App.css_hue_saturate_brightness hueRot saturate brightness))
       /\ (1 <= scale <= 1.25)%Q
       /\ (0 <= hueRot < 360)%Q
       /\ (100 <= saturate <= 250)%Q
       /\ (1 <= brightness <= 1.5)%Q.
Proof.
  intros Hm Hs Hc Ha.
  pose proof (heard_range frame app) as (B & Mi & Hi).
  pose proof (tick_offset_monotone frame app) as T.
  assert (R : (0 <= JS.rem (tick_offset frame app) 360 < 360)%Q).
  { apply rem_nonneg; lra. }
  revert B Mi Hi R. unfold heard, tick_offset, App.loop.
  rewrite Hm, Hs, Hc.
  destruct (App.analyserRef app); cbv zeta.
  - match goal with |- context [JS.gt ?v ?t] => destruct (JS.gt v t) end;
      cbn [fst snd App.chromaRef App.hueOffset];
      intros B Mi Hi R; (split; [reflexivity |]);
      do 4 eexists; (split; [reflexivity |]);
      repeat split; try lra; apply R.
  - cbn [fst snd App.chromaRef App.hueOffset App.bass App.mid App.high App.silent];
      intros B Mi Hi R; (split; [reflexivity |]);
      do 4 eexists; (split; [reflexivity |]);
      repeat split; try lra; apply R.
Qed.

Lemma chroma_pulse_is_bounded_witness :
  let app :=
    App.mkApp
      (App.mkState App.chroma 280 240 210 50 50 30 60 12345 wave false 50
         (Some (4%Q, 4%Q)) true)
      (Some App.an_AudioContext) (Some App.an_AnalyserNode)
      (App.mkAccumulator 725) None (Some (App.mkStyle 1 App.css_none)) in
  (0 <= 725)%Q /\ snd (App.loop Demo.loud app) = None.
Proof.
  intros app. split; [lra |].
  exact (proj1 (chroma_pulse_is_bounded Demo.loud app (App.mkStyle 1 App.css_none)
                  eq_refl eq_refl eq_refl ltac:(cbn; lra))).
Defined.

(** X14.  While audio sync is off the animation loop is inert: a frame
    renders nothing and leaves the component, its accumulator and its refs
    as they are, however many frames pass. *)
Theorem loop_is_inert_without_sync
    (app : App.App) (frames : list App.Frame) :
  App.audioSync (App.state app) = false ->
  (forall frame : App.Frame, App.loop frame app = (app, None))
  /\ App.run frames app = app.
Proof.
  intros H.
  assert (L : forall frame, App.loop frame app = (app, None)).
  { intros frame. unfold App.loop. rewrite H.
    destruct app as [st actx an acc cv ch]. cbn [App.state] in *.
    cbn [App.audioContextRef App.analyserRef App.audioAccumulatorRef
           App.fluxCanvasRef App.chromaRef].
    destruct (App.systemMode st), cv, ch, (App.activeCanvasDims st) as [[w h] |];
      reflexivity. }
  split; [exact L |].
  unfold App.run. induction frames as [| f fs IH]; [reflexivity |].
  cbn [fold_left]. rewrite L. exact IH.
Qed.

Lemma loop_is_inert_without_sync_witness :
  let app :=
    App.mkApp
      (App.mkState App.flux 280 240 210 50 50 30 60 12345 wave false 50
         (Some (4%Q, 4%Q)) false)
      None None (App.mkAccumulator 0) (Some (App.mkCanvasElement 1 1)) None in
  App.run [Demo.loud; Demo.quiet] app = app.
Proof.
  intros app.
  exact (proj2 (loop_is_inert_without_sync app [Demo.loud; Demo.quiet] eq_refl)).
Defined.

Section Reachable.
Import App.

Lemma step_keeps_analyser (app : App) (e : Event) :
  (audioSync (state app) = true ->
   analyserRef app <> None /\ audioContextRef app <> None) ->
  audioSync (state (step app e)) = true ->
  analyserRef (step app e) <> None /\ audioContextRef (step app e) <> None.
Proof.
  intros Inv. destruct e as [frame | media]; cbn [step].
  - rewrite loop_state. intros H. specialize (Inv H).
    unfold loop.
    destruct (audioSync (state app)), (analyserRef app);
      destruct (systemMode (state app)), (fluxCanvasRef app),
        (activeCanvasDims (state app)) as [[w h] |], (chromaRef app),
        (hasContext2d frame);
      cbv zeta beta iota; cbn [fst analyserRef audioContextRef]; exact Inv.
  - unfold toggleAudioSync.
    destruct (audioSync (state app)) eqn:S.
    + destruct (systemMode (state app)); cbn; discriminate.
    + destruct media; cbn; [split; discriminate | discriminate].
Qed.

End Reachable.

(** X15.  From a component whose audio sync is off, whatever frames and
    presses of the audio button follow, audio sync is only ever on with an
    analyser and an audio context in place: a synchronised frame never skips
    the analysis for want of an analyser. *)
Theorem sync_always_has_analyser
    (app : App.App) (events : list App.Event) :
  App.audioSync (App.state app) = false ->
  let app' := fold_left App.step events app in
  App.audioSync (App.state app') = true ->
  App.analyserRef app' <> None /\ App.audioContextRef app' <> None.
Proof.
  intros H app'. subst app'.
  assert (G : forall (evs : list App.Event) (a : App.App),
             (App.audioSync (App.state a) = true ->
              App.analyserRef a <> None /\ App.audioContextRef a <> None) ->
             App.audioSync (App.state (fold_left App.step evs a)) = true ->
             App.analyserRef (fold_left App.step evs a) <> None
             /\ App.audioContextRef (fold_left App.step evs a) <> None).
  { induction evs as [| e evs IH]; intros a Inv; cbn [fold_left]; [exact Inv |].
    apply IH. apply step_keeps_analyser. exact Inv. }
  apply G. rewrite H. discriminate.
Qed.

Lemma sync_always_has_analyser_witness :
  let app :=
    App.mkApp
      (App.mkState App.flux 280 240 210 50 50 30 60 12345 wave false 50
         (Some (4%Q, 4%Q)) false)
      None None (App.mkAccumulator 0) (Some (App.mkCanvasElement 1 1)) None in
  let events :=
    [App.Tick Demo.quiet; App.Toggle (Some App.a_MediaStream);
     App.Tick Demo.loud] in
  App.audioSync (App.state (fold_left App.step events app)) = true
  /\ App.analyserRef (fold_left App.step events app) = Some App.an_AnalyserNode.
Proof.
  intros app events. split; [reflexivity |].
  pose proof (sync_always_has_analyser app events eq_refl eq_refl) as [A _].
  destruct (App.analyserRef (fold_left App.step events app)) as [[] |];
    [reflexivity | exact (match A eq_refl with end)].
Defined.

(** A viewport 1000 pixels wide at a device pixel ratio of 1.2, and one
    666.6666666666666 wide at 1.5: the exact products are below 1200 and
    below 1000, the program computes the doubles 1200 and 1000. *)
Example canvas_at_fractional_ratios :
  (1000 * JS.double 1.2 < 1200)%Q
  /\ JS.floor (JS.mul 1000 (JS.double 1.2)) = 1200
  /\ (JS.double 666.6666666666666 * 1.5 < 1000)%Q
  /\ JS.floor (JS.mul (JS.double 666.6666666666666) 1.5) = 1000.
Proof. vm_compute. repeat split. Qed.

(** X16.  A synchronised frame in flux mode leaves the canvas with the
    backing store [floor(w * dpr)] by [floor(h * dpr)], the products being
    the doubles the program computes (a device pixel ratio of 0 counting as
    1), resizing it when it has to, and the engine is called for exactly
    that size. *)
Theorem canvas_follows_device_pixels
    (frame : App.Frame) (app : App.App) (cv : App.CanvasElement) (w h : Q) :
  App.systemMode (App.state app) = App.flux ->
  App.audioSync (App.state app) = true ->
  App.fluxCanvasRef app = Some cv ->
  App.activeCanvasDims (App.state app) = Some (w, h) ->
  let dpr :=
    if Qeq_bool (App.devicePixelRatio frame) 0 then 1%Q
    else App.devicePixelRatio frame in
  let sized :=
    App.mkCanvasElement (JS.floor (JS.mul w dpr)) (JS.floor (JS.mul h dpr)) in
  App.fluxCanvasRef (fst (App.loop frame app)) = Some sized
  /\ (forall c : App.FluxCall,
         snd (App.loop frame app) = Some c ->
         App.call_width c = JS.floor (JS.mul w dpr)
         /\ App.call_height c = JS.floor (JS.mul h dpr))
  /\ (snd (App.loop frame app) = None <-> App.hasContext2d frame = false).
Proof.
  intros Hm Hs Hc Hd dpr sized. subst sized.
  set (tw := JS.floor (JS.mul w dpr)). set (th := JS.floor (JS.mul h dpr)).
  assert (E : (if negb (App.canvas_width cv =? tw)
                  || negb (App.canvas_height cv =? th)
               then App.mkCanvasElement tw th
               else cv)
              = App.mkCanvasElement tw th).
  { destruct (App.canvas_width cv =? _) eqn:E1; [| reflexivity].
    destruct (App.canvas_height cv =? _) eqn:E2; [| reflexivity].
    apply Z.eqb_eq in E1, E2. destruct cv as [cw ch].
    cbn [App.canvas_width App.canvas_height negb orb] in *. congruence. }
  unfold App.loop. rewrite Hm, Hs, Hc, Hd.
  destruct (App.analyserRef app); cbv zeta;
    try match goal with |- context [JS.gt ?v ?t] => destruct (JS.gt v t) end;
    fold dpr; fold tw; fold th; rewrite E;
    destruct (App.hasContext2d frame);
    cbn [fst snd App.fluxCanvasRef];
    (split; [reflexivity |]);
    (split;
     [intros c H; try discriminate;
      apply (f_equal (fun o => match o with Some x => x | None => c end)) in H;
      subst c; split; reflexivity |]);
    split; intros H; try discriminate; reflexivity.
Qed.

Lemma canvas_follows_device_pixels_witness :
  App.fluxCanvasRef
    (fst (App.loop (App.mkFrame [] 2 true) Demo.listening))
  = Some (App.mkCanvasElement 8 8).
Proof.
  pose proof (canvas_follows_device_pixels (App.mkFrame [] 2 true)
                Demo.listening (App.mkCanvasElement 4 4) 4 4
                eq_refl eq_refl eq_refl eq_refl) as [H _].
  vm_compute in H. vm_compute. exact H.
Defined.

(** ** The handlers of the component *)

(** X17.  The pattern button steps through the ten patterns in the order of
    [FLUX_PATTERNS] and starts again after the last: it always yields a
    pattern, never the one it was given, reaches every pattern within nine
    presses, and is back where it started after exactly ten. *)
Theorem pattern_button_cycles (p : FluxPattern) :
  (exists q, Handlers.cycleFluxPattern p = Some q /\ q <> p)
  /\ Handlers.cycleFluxPattern vortex = Some wave
  /\ pattern_after 10 p = Some p
  /\ (forall k : nat, (0 < k < 10)%nat -> pattern_after k p <> Some p)
  /\ (forall q : FluxPattern, exists k : nat, (k < 10)%nat /\ pattern_after k p = Some q).
Proof.
  split; [| split; [reflexivity | split; [| split]]].
  - destruct p; eexists; (split; [reflexivity | discriminate]).
  - destruct p; reflexivity.
  - intros k [L U].
    do 10 (destruct k as [| k]; [destruct p; first [lia | discriminate] |]).
    lia.
  - intros q.
    exists (Z.to_nat
              ((Handlers.indexOf Handlers.FluxPattern_eqb Handlers.FLUX_PATTERNS q
                - Handlers.indexOf Handlers.FluxPattern_eqb Handlers.FLUX_PATTERNS p)
               mod 10)).
    destruct p, q; (split; [vm_compute; lia | reflexivity]).
Qed.

Section BlendModes.
Import Handlers.

Lemma blend_cases (m : string) :
  m = "overlay"%string \/ m = "soft-light"%string \/ m = "multiply"%string
  \/ m = "screen"%string \/ m = "difference"%string
  \/ (~ In m BLEND_MODES
      /\ indexOf String.eqb BLEND_MODES m = -1).
Proof.
  unfold BLEND_MODES, indexOf. cbn [indexOf_from In].
  destruct (String.eqb_spec "overlay" m) as [<- | N1]; [tauto |].
  destruct (String.eqb_spec "soft-light" m) as [<- | N2]; [tauto |].
  destruct (String.eqb_spec "multiply" m) as [<- | N3]; [tauto |].
  destruct (String.eqb_spec "screen" m) as [<- | N4]; [tauto |].
  destruct (String.eqb_spec "difference" m) as [<- | N5]; [tauto |].
  do 5 right. split; [| reflexivity]. tauto.
Qed.

End BlendModes.

(** X18.  The blend button always yields one of the five blend modes: from
    a known mode the next one (and the same mode again after five presses),
    from any other string, which [indexOf] does not find, the first mode,
    [overlay]. *)
Theorem blend_button_recovers (blendMode : string) :
  (exists m, Handlers.cycleBlendMode blendMode = Some m /\ In m Handlers.BLEND_MODES)
  /\ (~ In blendMode Handlers.BLEND_MODES ->
      Handlers.cycleBlendMode blendMode = Some "overlay"%string)
  /\ (In blendMode Handlers.BLEND_MODES ->
      Handlers.cycleBlendMode blendMode <> Some blendMode
      /\ blend_after 5 blendMode = Some blendMode).
Proof.
  destruct (blend_cases blendMode)
    as [-> | [-> | [-> | [-> | [-> | [N E]]]]]].
  1-5: split; [eexists; split; [reflexivity | cbn; tauto] |];
       split; [intros H; exfalso; apply H; cbn; tauto |];
       intros _; split; [discriminate | reflexivity].
  assert (C : Handlers.cycleBlendMode blendMode = Some "overlay"%string).
  { unfold Handlers.cycleBlendMode. rewrite E. reflexivity. }
  split; [exists "overlay"%string; split; [exact C | cbn; tauto] |].
  split; [intros _; exact C | intros H; contradiction].
Qed.

Section Randomize.
Import Handlers.

Lemma floor_random (u : Q) (k : Z) :
  0 < k -> (0 <= u < 1)%Q -> 0 <= JS.floor (u * inject_Z k) <= k - 1.
Proof. apply floor_times_range. Qed.

Lemma item_in_range {A : Type} (arr : list A) (i : Z) :
  0 <= i < Z.of_nat (length arr) -> exists x, item arr i = Some x.
Proof.
  intros H. unfold item.
  destruct (i <? 0) eqn:E; [apply Z.ltb_lt in E; lia |].
  apply lookup_lt_is_Some. lia.
Qed.

End Randomize.

(** The ranges of the values drawn by [handleRandomize]. *)
Ltac ranges :=
  repeat match goal with
    | F : forall n k, 0 < k -> _ |- _ <= JS.floor (?random ?n * ?q) + _ <= _ =>
        let k := eval vm_compute in (Qfloor q) in
        pose proof (F n k ltac:(lia)); change q with (inject_Z k); lia
    | F : forall n k, 0 < k -> _ |- _ <= JS.floor (?random ?n * ?q) <= _ =>
        let k := eval vm_compute in (Qfloor q) in
        pose proof (F n k ltac:(lia)); change q with (inject_Z k); lia
    | R : forall n, (0 <= ?random n < 1)%Q |- (_ <= 0.3 + ?random ?n * _ < _)%Q =>
        pose proof (R n); lra
    | |- _ /\ _ => split
    end.

(** X19.  Whatever [Math.random] returns (in [0, 1)), Randomize sets whole
    numbers inside the ranges of the controls: hues from 0 to 359; in flux
    mode spectra, exposure, distortion and iso from 0 to 99, grain from 10 to
    69, fine grain from 0 to 29, a seed from 0 to 99999 and always one of
    the ten patterns; in chroma mode saturations from 10 to 89, luminances
    from 20 to 79, an angle from 0 to 359, noise and fine grain from 0 to 19,
    a vignette from 0 to 39 and a noise frequency in [0.3, 1.8). *)
Theorem randomize_stays_in_range
    (random : nat -> Q) (systemMode : App.SystemMode) :
  (forall n : nat, (0 <= random n < 1)%Q) ->
  match Handlers.handleRandomize random systemMode with
  | inr f =>
      systemMode = App.flux
      /\ 0 <= Handlers.set_fluxHue f <= 359
      /\ 0 <= Handlers.set_fluxSpectra f <= 99
      /\ 0 <= Handlers.set_fluxExposure f <= 99
      /\ 0 <= Handlers.set_fluxDistortion f <= 99
      /\ 10 <= Handlers.set_fluxGrain f <= 69
      /\ 0 <= Handlers.set_fluxFineGrain f <= 29
      /\ 0 <= Handlers.set_fluxIso f <= 99
      /\ 0 <= Handlers.set_fluxSeed f <= 99999
      /\ exists p : FluxPattern, Handlers.set_fluxPattern f = Some p
  | inl c =>
      systemMode = App.chroma
      /\ 0 <= Handlers.set_hue c <= 359
      /\ 10 <= Handlers.set_sat c <= 89
      /\ 20 <= Handlers.set_lum c <= 79
      /\ 0 <= Handlers.set_hueB c <= 359
      /\ 10 <= Handlers.set_satB c <= 89
      /\ 20 <= Handlers.set_lumB c <= 79
      /\ 0 <= Handlers.set_gradientAngle c <= 359
      /\ 0 <= Handlers.set_noise c <= 19
      /\ 0 <= Handlers.set_fineGrain c <= 19
      /\ 0 <= Handlers.set_vignette c <= 39
      /\ (0.3 <= Handlers.set_noiseFreq c < 1.8)%Q
  end.
Proof.
  intros R.
  assert (F : forall n k, 0 < k -> 0 <= JS.floor (random n * inject_Z k) <= k - 1).
  { intros n k K. apply floor_random; [exact K | apply R]. }
  destruct systemMode; unfold Handlers.handleRandomize.
  - destruct (JS.gt (random 6%nat) 0.6); [destruct (JS.gt (random 7%nat) 0.5) |];
      cbv beta iota zeta;
      cbn [Handlers.set_hue Handlers.set_sat Handlers.set_lum Handlers.set_hueB
             Handlers.set_satB Handlers.set_lumB Handlers.set_gradientAngle
             Handlers.set_noise Handlers.set_fineGrain Handlers.set_vignette
             Handlers.set_noiseFreq];
      (split; [reflexivity |]); ranges.
  - cbv beta iota zeta;
      cbn [Handlers.set_fluxHue Handlers.set_fluxSpectra Handlers.set_fluxExposure
             Handlers.set_fluxDistortion Handlers.set_fluxGrain
             Handlers.set_fluxFineGrain Handlers.set_fluxIso
             Handlers.set_fluxSeed Handlers.set_fluxPattern].
    split; [reflexivity |]. ranges.
    apply item_in_range. pose proof (F 8%nat 10 ltac:(lia)) as H.
    cbn [length Handlers.FLUX_PATTERNS]. cbn in H |- *. lia.
Qed.

Lemma randomize_stays_in_range_witness :
  match Handlers.handleRandomize (fun _ => 0.5%Q) App.flux with
  | inr f => 0 <= Handlers.set_fluxSeed f <= 99999
             /\ Handlers.set_fluxPattern f = Some glitch
  | inl _ => False
  end.
Proof.
  pose proof (randomize_stays_in_range (fun _ => 0.5%Q) App.flux
                ltac:(intros; cbv beta; lra)) as H.
  cbv beta iota zeta delta [Handlers.handleRandomize] in H |- *.
  split; [apply H | reflexivity].
Defined.

Section Fit.




End Fit.



Section Static.
Import App.

Lemma slice_sum_silent (data : list Byte.byte) (from to : nat) :
  Forall (fun b => b = Byte.x00) data -> slice_sum data from to = 0.
Proof.
  intros H. unfold slice_sum.
  assert (G : forall l : list Byte.byte,
             Forall (fun b => b = Byte.x00) l ->
             forall a, fold_left (fun a b => a + Z.of_N (Byte.to_N b)) l a = a).
  { induction 1 as [| b l -> _ IH]; intros a; cbn [fold_left]; [reflexivity |].
    rewrite IH. cbn. lia. }
  apply G. apply Forall_take, Forall_drop, H.
Qed.

Lemma analyse_silent (data : list Byte.byte) :
  Forall (fun b => b = Byte.x00) data ->
  bass (analyse data) == 0 /\ high (analyse data) == 0 /\ vol (analyse data) == 0.
Proof.
  intros H. unfold analyse. cbn [bass high vol].
  rewrite !slice_sum_silent by exact H. repeat split; reflexivity.
Qed.

Lemma rem_small (x y : Q) : (0 <= x < y)%Q -> JS.rem x y == x.
Proof.
  intros [L U].
  destruct (rem_nonneg x y L ltac:(lra)) as [E _]. rewrite E.
  assert (F : Qfloor (x / y) = 0).
  { apply Qfloor_unique.
    - change (inject_Z 0) with 0%Q. apply Qle_shift_div_l; lra.
    - change (inject_Z (0 + 1)) with 1%Q. apply Qlt_shift_div_r; lra. }
  rewrite F. change (inject_Z 0) with 0%Q. ring.
Qed.

End Static.

(** X21.  Switching audio sync on changes nothing while there is silence:
    a synchronised frame that hears nothing, with nothing accumulated yet,
    calls the engine for the same picture as the static rendering of the
    settings, and leaves the accumulator alone. *)
Theorem silent_frame_renders_the_static_picture
    (frame : App.Frame) (app : App.App) (c : App.FluxCall) :
  Forall (fun b => b = Byte.x00) (App.frequencyData frame) ->
  App.hueOffset (App.audioAccumulatorRef app) == 0 ->
  (0 <= App.fluxHue (App.state app) < 360)%Q ->
  snd (App.loop frame app) = Some c ->
  (exists c0 : App.FluxCall,
      snd (Handlers.renderStaticFlux frame app) = Some c0 /\ same_picture c c0)
  /\ App.fluxCanvasRef (fst (App.loop frame app))
     = App.fluxCanvasRef (fst (Handlers.renderStaticFlux frame app))
  /\ App.audioAccumulatorRef (fst (App.loop frame app))
     = App.audioAccumulatorRef app.
Proof.
  intros Hq H0 Hh.
  destruct (analyse_silent _ Hq) as (B & Hi & V).
  assert (G : JS.gt (App.vol (App.analyse (App.frequencyData frame)))
                (JS.double 0.02) = false).
  { apply JS_gt_false. rewrite V. apply double_nonneg. lra. }
  assert (R : forall o : Q, o == 0 ->
                JS.rem (App.fluxHue (App.state app) + o) 360
                == App.fluxHue (App.state app)).
  { intros o E. rewrite rem_small; [rewrite E; ring |]. rewrite E.
    split; [lra |]. lra. }
  unfold App.loop, Handlers.renderStaticFlux.
  destruct (App.systemMode (App.state app));
    [destruct (App.audioSync (App.state app)), (App.analyserRef app),
       (App.chromaRef app); cbv zeta; try rewrite G; discriminate |].
  destruct (App.fluxCanvasRef app) as [cv |];
    [| destruct (App.audioSync (App.state app)), (App.analyserRef app);
       cbv zeta; try rewrite G; discriminate].
  destruct (App.activeCanvasDims (App.state app)) as [[w h] |];
    [| destruct (App.audioSync (App.state app)), (App.analyserRef app);
       cbv zeta; try rewrite G; discriminate].
  destruct (App.audioSync (App.state app));
    [| destruct (App.analyserRef app); cbv zeta; discriminate].
  destruct (App.hasContext2d frame);
    [| destruct (App.analyserRef app); cbv zeta; try rewrite G; discriminate].
  destruct (App.analyserRef app); cbv zeta; try rewrite G;
    cbn [fst snd App.fluxCanvasRef App.audioAccumulatorRef];
    intros E;
    apply (f_equal (fun o => match o with Some x => x | None => c end)) in E;
    subst c;
    (split; [eexists; split; [reflexivity |] | split; reflexivity]);
    unfold same_picture;
    cbn [App.call_width App.call_height App.call_hue App.call_spectra
           App.call_exposure App.call_distortion App.call_scale App.call_seed
           App.call_pattern App.call_smudgeActive App.call_smudgeFactor
           App.bass App.high App.silent App.hueOffset];
    repeat split; try reflexivity;
    try (apply R; exact H0); try (rewrite ?B, ?Hi; ring).
Qed.

Lemma silent_frame_renders_the_static_picture_witness :
  let app :=
    App.mkApp Demo.state (Some App.an_AudioContext) (Some App.an_AnalyserNode)
      (App.mkAccumulator 0) (Some (App.mkCanvasElement 4 4)) None in
  exists c c0 : App.FluxCall,
    snd (App.loop Demo.quiet app) = Some c
    /\ snd (Handlers.renderStaticFlux Demo.quiet app) = Some c0
    /\ same_picture c c0.
Proof.
  intros app.
  assert (Q0 : Forall (fun b => b = Byte.x00) (App.frequencyData Demo.quiet)).
  { apply Forall_forall. intros b Hb. apply elem_of_replicate in Hb. tauto. }
  destruct (silent_frame_renders_the_static_picture Demo.quiet app _ Q0
              ltac:(reflexivity) ltac:(cbn; lra) eq_refl)
    as ((c0 & E & S) & _).
  eexists. exists c0. split; [reflexivity |]. split; [exact E | exact S].
Defined.

(** ** The slider and the knob *)

Section Clamping.

Lemma JS_max_spec (a b : Q) :
  (a <= JS.max a b)%Q /\ (b <= JS.max a b)%Q
  /\ (JS.max a b == a \/ JS.max a b == b).
Proof.
  unfold JS.max. destruct (Qle_bool a b) eqn:E.
  - apply Qle_bool_iff in E. repeat split; lra.
  - assert (~ (a <= b)%Q) by (rewrite <- Qle_bool_iff; congruence).
    repeat split; lra.
Qed.

Lemma JS_min_spec (a b : Q) :
  (JS.min a b <= a)%Q /\ (JS.min a b <= b)%Q
  /\ (JS.min a b == a \/ JS.min a b == b).
Proof.
  unfold JS.min. destruct (Qle_bool a b) eqn:E.
  - apply Qle_bool_iff in E. repeat split; lra.
  - assert (~ (a <= b)%Q) by (rewrite <- Qle_bool_iff; congruence).
    repeat split; lra.
Qed.

(** [Math.max(lo, Math.min(hi, q))]. *)
Lemma clamped (lo hi q : Q) :
  (lo <= hi)%Q ->
  let p := JS.max lo (JS.min hi q) in
  (lo <= p <= hi)%Q
  /\ ((lo <= q <= hi)%Q -> p == q)
  /\ ((q <= lo)%Q -> p == lo)
  /\ ((hi <= q)%Q -> p == hi).
Proof.
  intros H p. subst p.
  destruct (JS_min_spec hi q) as (A1 & A2 & A3).
  destruct (JS_max_spec lo (JS.min hi q)) as (B1 & B2 & B3).
  set (m := JS.min hi q) in *. set (p := JS.max lo m) in *.
  repeat split; intros; destruct A3 as [A3 | A3], B3 as [B3 | B3]; lra.
Qed.

Lemma scaled_between (lo hi : Z) (p : Q) :
  lo <= hi -> (0 <= p <= 1)%Q ->
  (inject_Z lo <= inject_Z lo + p * (inject_Z hi - inject_Z lo) <= inject_Z hi)%Q.
Proof.
  intros H [P0 P1]. rewrite Zle_Qle in H.
  set (a := inject_Z lo) in *. set (b := inject_Z hi) in *.
  assert (A : (0 * (b - a) <= p * (b - a))%Q) by (apply Qmult_le_compat_r; lra).
  assert (B : (p * (b - a) <= 1 * (b - a))%Q) by (apply Qmult_le_compat_r; lra).
  lra.
Qed.

Lemma Math_round_of (x : Q) (z : Z) : x == inject_Z z -> Math_round x = z.
Proof.
  intros E. rewrite <- (Math_round_Z z). unfold Math_round.
  apply Qfloor_comp. rewrite E. reflexivity.
Qed.



End Clamping.

(** X22.  A slider with whole bounds [min <= max] only ever reports whole
    values between them: [min] for a pointer at or left of the track, [max]
    at or right of it; a pointer where the thumb of a value is drawn reports
    that value; and a slider that is disabled or not mounted reports
    nothing. *)
Theorem slider_reports_values_in_range
    (min max : Z) (rect_left rect_width clientX : Q) :
  min <= max -> (0 < rect_width)%Q ->
  let track := Some (rect_left, rect_width) in
  (exists v : Z,
      Slider.handleInteract min max track false clientX = Some v
      /\ min <= v <= max
      /\ ((clientX <= rect_left)%Q -> v = min)
      /\ ((rect_left + rect_width <= clientX)%Q -> v = max))
  /\ (forall value : Z,
         min <= value <= max -> min < max ->
         Slider.handleInteract min max track false
           (rect_left + rect_width * (Slider.percentage value min max / 100))
         = Some value)
  /\ Slider.handleInteract min max track true clientX = None
  /\ Slider.handleInteract min max None false clientX = None.
Proof.
  intros Hm Hw track. subst track.
  split; [| split; [| split; reflexivity]].
  - unfold Slider.handleInteract. cbv zeta. eexists. split; [reflexivity |].
    destruct (clamped 0 1 ((clientX - rect_left) / rect_width) ltac:(lra))
      as (R & _ & Lo & Hi).
    set (p := JS.max 0 (JS.min 1 ((clientX - rect_left) / rect_width))) in *.
    split; [| split].
    + apply Math_round_between. apply scaled_between; assumption.
    + intros H. apply Math_round_of. rewrite Lo; [ring |].
      apply Qle_shift_div_r; lra.
    + intros H. apply Math_round_of. rewrite Hi; [ring |].
      apply Qle_shift_div_l; lra.
  - intros value Hv Hlt. unfold Slider.handleInteract. cbv zeta. f_equal.
    apply Math_round_of.
    assert (D : (0 < inject_Z max - inject_Z min)%Q).
    { rewrite Zlt_Qlt in Hlt. lra. }
    destruct Hv as [V1 V2]. rewrite Zle_Qle in V1, V2.
    set (t := ((inject_Z value - inject_Z min) / (inject_Z max - inject_Z min))%Q).
    assert (T0 : (0 <= t)%Q) by (apply Qle_shift_div_l; lra).
    assert (T1 : (t <= 1)%Q) by (apply Qle_shift_div_r; lra).
    assert (Tm : (t * (inject_Z max - inject_Z min)
                  == inject_Z value - inject_Z min)%Q).
    { unfold t. field. lra. }
    assert (P : (Slider.percentage value min max == t * 100)%Q).
    { unfold Slider.percentage.
      destruct (clamped 0 100 (t * 100) ltac:(lra)) as (_ & In & _).
      fold t. rewrite (Qmult_comm 100) || idtac.
      unfold JS.min at 1.
      destruct (JS_max_spec 0 (t * 100)) as (M1 & M2 & M3).
      destruct (Qle_bool 100 (JS.max 0 (t * 100))) eqn:B.
      - apply Qle_bool_iff in B. destruct M3 as [M3 | M3]; lra.
      - destruct M3 as [M3 | M3]; lra. }
    assert (X : ((rect_left + rect_width * (Slider.percentage value min max / 100)
                  - rect_left) / rect_width == t)%Q).
    { rewrite P. field. lra. }
    destruct (clamped 0 1
                ((rect_left + rect_width * (Slider.percentage value min max / 100)
                  - rect_left) / rect_width) ltac:(lra))
      as (_ & In & _).
    rewrite In by (rewrite X; lra).
    rewrite X, Tm. ring.
Qed.

Lemma slider_reports_values_in_range_witness :
  0 <= 100 /\ (0 < 200)%Q
  /\ Slider.handleInteract 0%Z 100%Z (Some (10%Q, 200%Q)) false
       (10 + 200 * (Slider.percentage 37%Z 0%Z 100%Z / 100))
     = Some 37.
Proof.
  split; [lia |]. split; [lra |].
  exact (proj1 (proj2 (slider_reports_values_in_range 0 100 10 200 0
                         ltac:(lia) ltac:(lra)))
           37 ltac:(lia) ltac:(lia)).
Defined.



(** ** Colour utilities *)

Section Hex.
Import Colors.

Lemma toUpperCase_app (s t : string) :
  toUpperCase (s ++ t) = (toUpperCase s ++ toUpperCase t)%string.
Proof. induction s as [| c s IH]; cbn; [reflexivity | rewrite IH; reflexivity]. Qed.

Lemma string_length_app (s t : string) :
  String.length (s ++ t) = (String.length s + String.length t)%nat.
Proof. induction s as [| c s IH]; cbn; [reflexivity | rewrite IH; reflexivity]. Qed.

Lemma hex2_digits (z : Z) : 0 <= z <= 255 -> two_hex_digits (hex2 z) = true.
Proof.
  intros H.
  assert (A : forallb (fun n => two_hex_digits (hex2 (Z.of_nat n))) (seq 0 256) = true)
    by (vm_compute; reflexivity).
  rewrite forallb_forall in A.
  specialize (A (Z.to_nat z)). rewrite Z2Nat.id in A by lia.
  apply A. apply in_seq. lia.
Qed.

Lemma two_hex_digits_length (s : string) :
  two_hex_digits s = true -> String.length s = 2%nat.
Proof.
  destruct s as [| a [| b [| c s]]]; cbn; try discriminate. reflexivity.
Qed.

Lemma shade_factor (u v : Q) :
  (-1 <= JS.max (JS.min (JS.min u v) 1) (-1) <= 1)%Q.
Proof.
  destruct (JS_min_spec (JS.min u v) 1) as (A1 & A2 & _).
  destruct (JS_max_spec (JS.min (JS.min u v) 1) (-1)) as (B1 & B2 & B3).
  set (m := JS.min (JS.min u v) 1) in *.
  set (x := JS.max m (-1)) in *.
  destruct B3; lra.
Qed.

(** The chroma [a] of [hslToHex]: not negative, and above the lightness and
    above its complement by no more than the rounding of three operations. *)
Lemma chroma_range (s l : Q) :
  (0 <= s <= 100)%Q -> (0 <= l <= 100)%Q ->
  let l1 := JS.div l 100 in
  let a := JS.div (JS.mul s (JS.min l1 (JS.sub 1 l1))) 100 in
  (0 <= l1 <= 1)%Q
  /\ (0 <= a <= 1)%Q
  /\ (a <= l1 + (3 # 4398046511104))%Q
  /\ (a <= 1 - l1 + (3 # 4398046511104))%Q.
Proof.
  intros S L l1 a.
  assert (L0 : (0 <= l1)%Q) by (apply JS_div_nonneg; [lra | reflexivity]).
  assert (L1 : (l1 <= 1)%Q) by (apply JS_div_le; [dbl | reflexivity | lra]).
  assert (C0 : (0 <= JS.sub 1 l1)%Q) by (apply JS_sub_ge; [dbl | lra]).
  pose proof (double_near (1 - l1) ltac:(lra)) as [_ C1].
  fold (JS.sub 1 l1) in C1.
  destruct (JS_min_spec l1 (JS.sub 1 l1)) as (M1 & M2 & M3).
  set (m := JS.min l1 (JS.sub 1 l1)) in *.
  assert (M0 : (0 <= m)%Q) by (destruct M3 as [M3 | M3]; rewrite M3; assumption).
  assert (P0 : (0 * m <= s * m)%Q) by (apply Qmult_le_compat_r; lra).
  assert (P1 : (s * m <= 100 * m)%Q) by (apply Qmult_le_compat_r; lra).
  assert (Q0 : (0 <= JS.mul s m)%Q) by (apply JS_mul_nonneg; lra).
  pose proof (double_near (s * m) ltac:(lra)) as [_ Q1].
  fold (JS.mul s m) in Q1.
  assert (Q2 : (JS.mul s m <= 100)%Q) by (apply JS_mul_le; [dbl | lra]).
  assert (A0 : (0 <= a)%Q) by (apply JS_div_nonneg; [exact Q0 | reflexivity]).
  assert (A1 : (a <= 1)%Q) by (apply JS_div_le; [dbl | reflexivity | lra]).
  assert (E : (JS.mul s m / 100 == JS.mul s m * (1 # 100))%Q) by reflexivity.
  pose proof (double_near (JS.mul s m / 100) ltac:(rewrite E; lra)) as [_ A2].
  fold (JS.div (JS.mul s m) 100) in A2. fold a in A2. rewrite E in A2.
  set (p := JS.mul s m) in *. set (c := JS.sub 1 l1) in *.
  repeat split; lra.
Qed.

Lemma shade_round (l1 a t : Q) :
  (0 <= l1 <= 1)%Q -> (0 <= a <= 1)%Q ->
  (a <= l1 + (3 # 4398046511104))%Q ->
  (a <= 1 - l1 + (3 # 4398046511104))%Q ->
  (-1 <= t <= 1)%Q ->
  0 <= Math_round (JS.mul 255 (JS.sub l1 (JS.mul a t))) <= 255.
Proof.
  intros [L0 L1] [A0 A1] A2 A3 [T0 T1].
  unfold JS.mul, JS.sub.
  assert (U1 : (a * t <= a * 1)%Q) by nra.
  assert (U2 : (a * (-1) <= a * t)%Q) by nra.
  pose proof (double_near (a * t) ltac:(lra)) as [P0 P1].
  generalize dependent (JS.double (a * t)). intros p P0 P1.
  generalize dependent (a * t)%Q. intros ta U1 U2 P0 P1.
  pose proof (double_near (l1 - p) ltac:(lra)) as [C0 C1].
  generalize dependent (JS.double (l1 - p)). intros color C0 C1.
  pose proof (double_near (255 * color) ltac:(lra)) as [V0 V1].
  generalize dependent (JS.double (255 * color)). intros v V0 V1.
  pose proof (Math_round_near v) as [R0 R1].
  assert (X0 : (inject_Z (-1) < inject_Z (Math_round v))%Q)
    by (change (inject_Z (-1)) with (-1)%Q; lra).
  assert (X1 : (inject_Z (Math_round v) < inject_Z 256)%Q)
    by (change (inject_Z 256) with 256%Q; lra).
  rewrite <- Zlt_Qlt in X0, X1. lia.
Qed.

Lemma hex_channel_range (h s l n : Q) :
  (0 <= s <= 100)%Q -> (0 <= l <= 100)%Q -> 0 <= hex_channel h s l n <= 255.
Proof.
  intros S L. unfold hex_channel. cbv zeta.
  destruct (chroma_range s l S L) as (L1 & A1 & A2 & A3).
  apply shade_round; try assumption. apply shade_factor.
Qed.

(** Without saturation every channel is the lightness. *)
Lemma hex_channel_grey (h s l n : Q) :
  s == 0 -> hex_channel h s l n = Math_round (JS.mul 255 (JS.div l 100)).
Proof.
  intros Z0. unfold hex_channel, Math_round. cbv zeta.
  apply Qfloor_comp.
  set (l1 := JS.div l 100).
  set (t := JS.max _ _).
  assert (A : JS.div (JS.mul s (JS.min l1 (JS.sub 1 l1))) 100 == 0).
  { unfold JS.div, JS.mul. rewrite Z0, Qmult_0_l. reflexivity. }
  rewrite A.
  assert (P : JS.mul 0 t == 0) by (unfold JS.mul; rewrite Qmult_0_l; reflexivity).
  rewrite P.
  assert (C : JS.sub l1 0 == l1).
  { unfold JS.sub. assert (E : (l1 - 0 == l1)%Q) by ring. rewrite E.
    apply JS_div_is_double. }
  rewrite C. reflexivity.
Qed.

End Hex.

(** X24.  For a saturation and a lightness between 0 and 100, and any
    hue, every channel of [hslToHex], computed in doubles and rounded, is a
    whole number from 0 to 255, so the result is [#] and three pairs of
    upper-case hexadecimal digits, seven characters in all; at saturation 0
    the three channels are the same grey, [round(255 * (l / 100))]. *)
Theorem hslToHex_is_a_hex_colour (h s l : Q) :
  (0 <= s <= 100)%Q -> (0 <= l <= 100)%Q ->
  let r := hex_channel h s l 0 in
  let g := hex_channel h s l 8 in
  let b := hex_channel h s l 4 in
  Colors.hslToHex h s l = ("#" ++ hex2 r ++ hex2 g ++ hex2 b)%string
  /\ 0 <= r <= 255 /\ 0 <= g <= 255 /\ 0 <= b <= 255
  /\ two_hex_digits (hex2 r) = true
  /\ two_hex_digits (hex2 g) = true
  /\ two_hex_digits (hex2 b) = true
  /\ String.length (Colors.hslToHex h s l) = 7%nat
  /\ (s == 0 ->
      r = Math_round (JS.mul 255 (JS.div l 100)) /\ g = r /\ b = r).
Proof.
  intros S L r g b.
  pose proof (hex_channel_range h s l 0 S L) as Rr.
  pose proof (hex_channel_range h s l 8 S L) as Rg.
  pose proof (hex_channel_range h s l 4 S L) as Rb.
  fold r in Rr. fold g in Rg. fold b in Rb.
  pose proof (hex2_digits r Rr) as Dr. pose proof (hex2_digits g Rg) as Dg.
  pose proof (hex2_digits b Rb) as Db.
  assert (E : Colors.hslToHex h s l = ("#" ++ hex2 r ++ hex2 g ++ hex2 b)%string).
  { unfold Colors.hslToHex. cbv zeta.
    rewrite !toUpperCase_app.
    change (Colors.toUpperCase "#") with "#"%string.
    unfold r, g, b, hex2, hex_channel. cbv zeta. reflexivity. }
  split; [exact E |].
  do 6 (split; [assumption |]).
  split.
  - rewrite E. cbn [String.append String.length]. rewrite !string_length_app.
    rewrite !two_hex_digits_length by assumption. reflexivity.
  - intros Z0. unfold r, g, b. rewrite !hex_channel_grey by exact Z0. auto.
Qed.

Lemma hslToHex_is_a_hex_colour_witness :
  (0 <= 50 <= 100)%Q /\ (0 <= 50 <= 100)%Q
  /\ String.length (Colors.hslToHex 280 50 50) = 7%nat.
Proof.
  split; [lra |]. split; [lra |].
  exact (proj1 (proj2 (proj2 (proj2 (proj2 (proj2 (proj2 (proj2
           (hslToHex_is_a_hex_colour 280 50 50 ltac:(lra) ltac:(lra)))))))))).
Defined.

(** The initial colour of the chroma panel, white and black; a red whose
    green and blue channels come out as 25.499999999999993, printed 19
    where exact arithmetic gives 25.5 and 1A; and the grey of lightness
    29.999999999999996, whose channels come out as 76.5, printed 4D where
    exact arithmetic stays below 76.5. *)
Example hslToHex_initial_colour :
  Colors.hslToHex 280 50 50 = "#9540BF"%string
  /\ Colors.hslToHex 0 0 100 = "#FFFFFF"%string
  /\ Colors.hslToHex 123 45 0 = "#000000"%string
  /\ Colors.hslToHex 0 80 50 = "#E61919"%string
  /\ Colors.hslToHex 0 0 (JS.double 29.999999999999996) = "#4D4D4D"%string
  /\ (255 * (JS.double 29.999999999999996 / 100) < 76.5)%Q.
Proof. repeat split; vm_compute; reflexivity. Qed.

Section PaletteHues.

Lemma rem_small_negative (x y : Q) : (- y < x < 0)%Q -> JS.rem x y == x.
Proof.
  intros [L U]. unfold JS.rem, JS.trunc.
  assert (Y : (0 < y)%Q) by lra.
  assert (N : (x / y < 0)%Q) by (apply Qlt_shift_div_r; lra).
  assert (M : (-1 < x / y)%Q) by (apply Qlt_shift_div_l; lra).
  destruct (Qle_bool 0 (x / y)) eqn:B.
  { apply Qle_bool_iff in B. lra. }
  assert (C : Qceiling (x / y) = 0).
  { unfold Qceiling.
    assert (F : Qfloor (- (x / y)) = 0).
    { apply Qfloor_unique.
      - change (inject_Z 0) with 0%Q. lra.
      - change (inject_Z (0 + 1)) with 1%Q. lra. }
    rewrite F. reflexivity. }
  rewrite C. change (inject_Z 0) with 0%Q. ring.
Qed.

Lemma rem_wraps_once (x y : Q) : (y <= x < 2 * y)%Q -> JS.rem x y == x - y.
Proof.
  intros [L U].
  assert (Y : (0 < y)%Q) by lra.
  destruct (rem_nonneg x y ltac:(lra) Y) as [E _]. rewrite E.
  assert (F : Qfloor (x / y) = 1).
  { apply Qfloor_unique.
    - change (inject_Z 1) with 1%Q. apply Qle_shift_div_l; lra.
    - change (inject_Z (1 + 1)) with 2%Q. apply Qlt_shift_div_r; lra. }
  rewrite F. change (inject_Z 1) with 1%Q. ring.
Qed.

End PaletteHues.

(** X25.  For a hue in [0, 360) the palette keeps its two generated hues
    in [0, 360): 30 degrees on, and opposite.  The accent hue is not wrapped:
    it is [h - 30], negative for a hue below 30.  The generated lightness
    never goes below 10 or above 90, and the reduced saturation never below
    0. *)
Theorem palette_hues (h s l : Q) :
  (0 <= h < 360)%Q ->
  exists hA lA hB sB lB hC : Q,
    Colors.generatePalette h s l
    = Colors.mkPalette (hsl h s l) (hsl hA s lA) (hsl hB sB lB) (hsl hC 100 60)
    /\ (0 <= hA < 360)%Q /\ (hA == h + 30 \/ hA == h + 30 - 360)
    /\ (0 <= hB < 360)%Q /\ (hB == h + 180 \/ hB == h - 180)
    /\ hC == h - 30
    /\ (10 <= lA)%Q /\ (l - 20 <= lA)%Q
    /\ (0 <= sB)%Q /\ (s - 20 <= sB)%Q
    /\ (lB <= 90)%Q /\ (lB <= l + 20)%Q.
Proof.
  intros H. unfold Colors.generatePalette.
  do 6 eexists. split; [reflexivity |].
  destruct (rem_nonneg (h + 30) 360 ltac:(lra) ltac:(lra)) as [_ RA].
  destruct (rem_nonneg (h + 180) 360 ltac:(lra) ltac:(lra)) as [_ RB].
  destruct (JS_max_spec 10 (l - 20)) as (A1 & A2 & _).
  destruct (JS_max_spec 0 (s - 20)) as (B1 & B2 & _).
  destruct (JS_min_spec 90 (l + 20)) as (C1 & C2 & _).
  split; [exact RA |]. split.
  { destruct (Qlt_le_dec (h + 30) 360) as [Lt | Ge].
    - left. apply rem_small. lra.
    - right. apply rem_wraps_once. lra. }
  split; [exact RB |]. split.
  { destruct (Qlt_le_dec (h + 180) 360) as [Lt | Ge].
    - left. apply rem_small. lra.
    - right. rewrite rem_wraps_once by lra. ring. }
  split.
  { destruct (Qlt_le_dec (h - 30) 0) as [Lt | Ge].
    - apply rem_small_negative. lra.
    - apply rem_small. lra. }
  repeat split; assumption.
Qed.

Lemma palette_hues_witness :
  (0 <= 10 < 360)%Q
  /\ exists hC : Q,
       Colors.accent (Colors.generatePalette 10 50 50) = hsl hC 100 60
       /\ hC == -20.
Proof.
  split; [lra |].
  destruct (palette_hues 10 50 50 ltac:(lra))
    as (hA & lA & hB & sB & lB & hC & E & _ & _ & _ & _ & C & _).
  exists hC. split; [rewrite E; reflexivity |].
  rewrite C. reflexivity.
Defined.

(** ** Where the blobs and the slices fall *)

Section Geometry.

Lemma sample_times (u k : Q) :
  (0 <= u < 1)%Q -> (0 < k)%Q -> (0 <= u * k < k)%Q.
Proof.
  intros [U0 U1] K.
  assert (A : (0 * k <= u * k)%Q) by (apply Qmult_le_compat_r; lra).
  assert (B : (u * k < 1 * k)%Q) by (apply Qmult_lt_compat_r; lra).
  lra.
Qed.


Lemma inject_Z_pos (z : Z) : 1 <= z -> (1 <= inject_Z z)%Q.
Proof. intros H. rewrite Zle_Qle in H. exact H. Qed.

End Geometry.

(** X26.  On a canvas that is not empty every blob of the base field is
    centred on the canvas, with a radius from 30% to 80% of its shorter side,
    and, the hue not being negative, is coloured with a hue in [0, 360). *)
Theorem blobs_lie_on_the_canvas {M : MathHost} {C : CanvasHost}
    (ctx : Ctx) (width height : Z) (hue spectra seed : Q) :
  1 <= width -> 1 <= height ->
  canvas (drawPsychedelicField ctx width height hue spectra seed)
  = fold_left
      (fun c i => paint_blob (state ctx) hue (field_blob width height seed i) c)
      (seq 0 (Z.to_nat (field_numOrbs seed)))
      (Paint (canvas ctx)
         (with_fill (field_ramp width height hue spectra seed) (state ctx))
         (FillRect 0 0 width height))
  /\ forall i : nat,
       let b := field_blob width height seed i in
       (0 <= blob_x b < width)%Q
       /\ (0 <= blob_y b < height)%Q
       /\ (0.3 * Z.min width height <= blob_r b < 0.8 * Z.min width height)%Q
       /\ ((0 <= hue)%Q -> (0 <= JS.rem (hue + blob_hueOffset b) 360 < 360)%Q).
Proof.
  intros Hw Hh. split; [apply drawPsychedelicField_canvas |].
  intros i b. subst b. unfold field_blob. cbn [blob_x blob_y blob_r blob_hueOffset].
  pose proof (inject_Z_pos width Hw) as W. pose proof (inject_Z_pos height Hh) as H.
  pose proof (inject_Z_pos (Z.min width height) ltac:(lia)) as Mn.
  pose proof (rng_nth_range (2 + 4 * i + 0) (mulberry32 seed)) as U0.
  pose proof (rng_nth_range (2 + 4 * i + 1) (mulberry32 seed)) as U1.
  pose proof (rng_nth_range (2 + 4 * i + 2) (mulberry32 seed)) as U2.
  pose proof (rng_nth_range (2 + 4 * i + 3) (mulberry32 seed)) as U3.
  split; [apply sample_times; [exact U0 | lra] |].
  split; [apply sample_times; [exact U1 | lra] |].
  split.
  - set (u := rng_nth (2 + 4 * i + 2) (mulberry32 seed)) in *.
    set (m := inject_Z (Z.min width height)) in *.
    assert (A : (0.3 * m <= (0.3 + u * 0.5) * m)%Q)
      by (apply Qmult_le_compat_r; lra).
    assert (B : ((0.3 + u * 0.5) * m < 0.8 * m)%Q)
      by (apply Qmult_lt_compat_r; lra).
    split; assumption.
  - intros Hu. apply rem_nonneg; [| lra].
    set (u := rng_nth (2 + 4 * i + 3) (mulberry32 seed)) in *. lra.
Qed.

Lemma blobs_lie_on_the_canvas_witness :
  1 <= 100
  /\ (let b := field_blob 100 100 12345 0 in
      (0 <= blob_x b < 100%Z)%Q /\ (0 <= blob_y b < 100%Z)%Q).
Proof.
  split; [lia |].
  destruct (proj2 (blobs_lie_on_the_canvas (M := Demo.math) (C := Demo.host)
                     Demo.ctx 100 100 210 50 12345 ltac:(lia) ltac:(lia)) 0%nat)
    as (X & Y & _).
  split; [exact X | exact Y].
Defined.



(** ** Interference, the ramp of the base field, and the idle accumulator *)

(** X28.  Interference lays two grids of vertical bars over the canvas in
    difference mode, the second in the complementary hue, shifted by at most
    one bar and turned by at most 0.1 radian about the centre of the canvas.
    A bar is never thinner than 3 pixels, so the tiles are never empty; it is
    at most 30 pixels wide for a scale that is not negative, and at least 5
    for a scale up to 100. *)
Theorem interference_grids
    (ctx : Ctx) (width height : Z) (hue distortion scale seed : Q) :
  let den := moire_den scale in
  let off := ((distortion / 100) * den)%Q in
  let ang := ((distortion / 100) * 0.1)%Q in
  let s := state ctx in
  history (canvas (renderLinearMoire ctx width height hue distortion scale seed))
  = history (canvas ctx)
    ++ [ painted
           (mkDrawState (Pattern (moire_tile den hue) "repeat") difference
              (filter s) (imageSmoothingEnabled s) (transform s) (clipping s))
           (FillRect 0 0 width height);
         painted
           (mkDrawState
              (Pattern (moire_tile den (JS.rem (hue + 180) 360)) "repeat")
              difference (filter s) (imageSmoothingEnabled s)
              (transform s
               ++ [ Translate (width / 2) (height / 2); Rotate ang;
                    Translate (- width / 2) (- height / 2); Translate off 0 ])
              (clipping s))
           (FillRect (- width) (- height) (width * 3) (height * 3)) ]
  /\ (3 <= den)%Q
  /\ ((0 <= scale)%Q -> (den <= 30)%Q)
  /\ ((scale <= 100)%Q -> (5 <= den)%Q)
  /\ ((0 <= distortion <= 100)%Q -> (0 <= off <= den)%Q /\ (0 <= ang <= 0.1)%Q).
Proof.
  intros den off ang s.
  destruct (JS_max_spec 3 (30 - (scale / 100) * 25)) as (A1 & A2 & A3).
  fold (moire_den scale) in A1, A2, A3. fold den in A1, A2, A3.
  split; [| split; [exact A1 | split; [| split]]].
  - subst den off ang s. unfold renderLinearMoire, moire_den, moire_tile.
    ctx_strokes. rewrite <- !app_assoc. reflexivity.
  - intros H. destruct A3 as [A3 | A3]; rewrite A3; qlra.
  - intros H. qlra.
  - intros H. split; [| subst ang; qlra].
    subst off.
    assert (P : (0 * den <= distortion / 100 * den)%Q)
      by (apply Qmult_le_compat_r; qlra).
    assert (U : (distortion / 100 * den <= 1 * den)%Q)
      by (apply Qmult_le_compat_r; qlra).
    set (p := (distortion / 100 * den)%Q) in *. lra.
Qed.

Section Ramp.
Context {M : MathHost}.


End Ramp.



Section Idle.
Import App.

Lemma setAudioSync_same (s : State) : setAudioSync (audioSync s) s = s.
Proof. destruct s; reflexivity. Qed.

Lemma step_keeps_idle (app : App) (e : Event) :
  (audioSync (state app) = false -> hueOffset (audioAccumulatorRef app) = 0%Q) ->
  audioSync (state (step app e)) = false ->
  hueOffset (audioAccumulatorRef (step app e)) = 0%Q.
Proof.
  intros Inv. destruct e as [frame | media]; cbn [step].
  - rewrite loop_state, loop_hueOffset. intros H.
    unfold tick_offset. rewrite H. apply Inv, H.
  - unfold toggleAudioSync.
    destruct (audioSync (state app)) eqn:S.
    + intros _. reflexivity.
    + destruct media; cbn; [discriminate | intros _; apply Inv; reflexivity].
Qed.

End Idle.

(** X30.  While audio sync is off the accumulator holds nothing: from a
    component that is idle with an empty accumulator, whatever frames and
    presses of the audio button follow, the accumulator is 0 whenever sync is
    off.  A refused microphone leaves the component as it was, and switching
    sync on and off again with no frame in between leaves the hue of a
    component in flux mode where it was. *)
Theorem idle_accumulator_is_empty
    (app : App.App) (events : list App.Event) :
  App.audioSync (App.state app) = false ->
  App.hueOffset (App.audioAccumulatorRef app) = 0%Q ->
  let app' := fold_left App.step events app in
  (App.audioSync (App.state app') = false ->
   App.hueOffset (App.audioAccumulatorRef app') = 0%Q)
  /\ App.toggleAudioSync None app = app
  /\ (forall stream : App.MediaStream,
         App.systemMode (App.state app) = App.flux ->
         (0 <= App.fluxHue (App.state app) < 360)%Q ->
         App.fluxHue
           (App.state
              (App.toggleAudioSync None
                 (App.toggleAudioSync (Some stream) app)))
         == App.fluxHue (App.state app)).
Proof.
  intros Hs H0 app'. subst app'. split; [| split].
  - assert (G : forall (evs : list App.Event) (a : App.App),
               (App.audioSync (App.state a) = false ->
                App.hueOffset (App.audioAccumulatorRef a) = 0%Q) ->
               App.audioSync (App.state (fold_left App.step evs a)) = false ->
               App.hueOffset (App.audioAccumulatorRef (fold_left App.step evs a))
               = 0%Q).
    { induction evs as [| e evs IH]; intros a Inv; cbn [fold_left]; [exact Inv |].
      apply IH. apply step_keeps_idle. exact Inv. }
    apply G. intros _. exact H0.
  - unfold App.toggleAudioSync. rewrite Hs.
    rewrite <- Hs at 1. rewrite setAudioSync_same. destruct app; reflexivity.
  - intros stream Hm Hh. unfold App.toggleAudioSync. rewrite Hs.
    cbn [App.state App.audioSync App.setAudioSync App.systemMode
           App.audioAccumulatorRef].
    rewrite Hm. cbn [App.state App.setFluxHue App.setAudioSync App.fluxHue].
    rewrite H0. rewrite rem_small; [ring |]. lra.
Qed.

Lemma idle_accumulator_is_empty_witness :
  let app :=
    App.mkApp
      (App.mkState App.flux 280 240 210 50 50 30 60 12345 wave false 50
         (Some (4%Q, 4%Q)) false)
      None None (App.mkAccumulator 0) (Some (App.mkCanvasElement 4 4)) None in
  let events :=
    [App.Toggle (Some App.a_MediaStream); App.Tick Demo.loud; App.Tick Demo.loud;
     App.Toggle None] in
  App.audioSync (App.state (fold_left App.step events app)) = false
  /\ App.hueOffset (App.audioAccumulatorRef (fold_left App.step events app)) = 0%Q.
Proof.
  intros app events. split; [reflexivity |].
  exact (proj1 (idle_accumulator_is_empty app events eq_refl eq_refl) eq_refl).
Defined.
